(** * Poirot: translation-call resolution and sidebar refresh

    A shallow embedding of the resolution core of the Poirot editor
    extension:

    - [TranslationRepository.loadTranslations]  (translation/repository.ts)
    - [TranslationService]                       (translation/service.ts)
    - [SidebarService.getTranslationData]        (sidebar/service.ts)
    - [TranslationKeysProvider.refresh]          (sidebar/translation-keys-provider.ts)
    - [ExtractionService]: quotes, key search, key writing, call text
                                                 (extraction/service.ts)
    - [ProjectService.getProjectForFile]         (project/service.ts)
    - [ProjectSelectorProvider.refresh]          (sidebar/project-provider.ts)
    - [EditorService.processDocument], [EditorDecorator.createDecorations],
      [TranslationCodeLensProvider]              (editor/)
    - [ExtensionActivator.debounceDocumentUpdate] (extension/activator.ts)

    Host facilities (the file system, [JSON.parse], the editor API, the
    locale and project collaborators) are gathered in records whose fields
    the services call; the services themselves are transcribed from the
    TypeScript sources. *)

From Stdlib Require Import String Ascii List Bool Arith Lia.
From Stdlib Require Import Sorted Permutation DecimalString NArith.
Import ListNotations.
Local Open Scope string_scope.
Local Open Scope nat_scope.
Local Open Scope list_scope.

(* ===================================================================== *)
(** ** Values of the host language *)
(* ===================================================================== *)

Module JS.

Set Warnings "-register-all".

(** A text is the sequence of its code units; the model keeps the code
    units below 256, one [ascii] each.

    A value as [JSON.parse] builds it, together with [undefined], which
    property reads produce.  A mapping keeps its own properties in the
    order in which the engine enumerates them ([Object.values] follows
    that order).  A number is carried as the text [String] prints for it. *)
Inductive value : Type :=
| VUndefined
| VNull
| VBool (b : bool)
| VNum (repr : string)
| VStr (s : string)
| VArr (items : list value)
| VObj (props : list (string * value)).

(** Abrupt and normal completion of a synchronous computation or of a
    promise: [Throw] is a raised exception (a rejected promise). *)
Inductive completion (A : Type) : Type :=
| Normal (a : A)
| Throw.
Arguments Normal {A} a.
Arguments Throw {A}.

Definition nonempty (s : string) : bool :=
  match s with EmptyString => false | String _ _ => true end.

(** [ToBoolean]: what [if (v)] and [!v] test. *)
Definition truthy (v : value) : bool :=
  match v with
  | VUndefined | VNull => false
  | VBool b => b
  | VNum repr => negb (String.eqb repr "0")
  | VStr s => nonempty s
  | VArr _ | VObj _ => true
  end.

(** [typeof v === 'object'] *)
Definition typeof_object (v : value) : bool :=
  match v with
  | VNull | VArr _ | VObj _ => true
  | _ => false
  end.

(** [Array.isArray(v)] *)
Definition isArray (v : value) : bool :=
  match v with VArr _ => true | _ => false end.

Definition digit_of (c : ascii) : option nat :=
  let n := nat_of_ascii c in
  if (48 <=? n) && (n <=? 57) then Some (n - 48) else None.

Fixpoint digits_value (acc : nat) (s : string) : option nat :=
  match s with
  | EmptyString => Some acc
  | String c s' =>
      match digit_of c with
      | Some d => digits_value (10 * acc + d) s'
      | None => None
      end
  end.

(** A property key names element [i] of an array or of a string exactly
    when it is the canonical decimal writing of [i]. *)
Definition array_index (k : string) : option nat :=
  match k with
  | EmptyString => None
  | String c EmptyString => digit_of c
  | String c _ => if Ascii.eqb c "0" then None else digits_value 0 k
  end.

Definition decimal (n : nat) : string :=
  NilEmpty.string_of_uint (Nat.to_uint n).

Fixpoint assoc (k : string) (props : list (string * value)) : option value :=
  match props with
  | [] => None
  | (k', v) :: rest => if String.eqb k k' then Some v else assoc k rest
  end.

Definition char_at (s : string) (i : nat) : option string :=
  match String.get i s with
  | Some c => Some (String c EmptyString)
  | None => None
  end.

(** [k in v] for a mapping or an array: its own properties.  A name found
    only on a built-in prototype counts here as absent and reads as
    [undefined]: what the engine reads for it (a method, or the prototype
    object) is neither a string nor a list with elements, and no string or
    such list can be reached through it, so the resolver returns the same
    result either way. *)
Definition has (v : value) (k : string) : bool :=
  match v with
  | VObj props => match assoc k props with Some _ => true | None => false end
  | VArr items =>
      if String.eqb k "length" then true
      else match array_index k with
           | Some i => i <? List.length items
           | None => false
           end
  | _ => false
  end.

(** [v[k]]: the read of an own property; a name that is not an own
    property reads as [undefined]. *)
Definition get (v : value) (k : string) : value :=
  match v with
  | VObj props =>
      match assoc k props with Some x => x | None => VUndefined end
  | VArr items =>
      if String.eqb k "length" then VNum (decimal (List.length items))
      else match array_index k with
           | Some i => nth i items VUndefined
           | None => VUndefined
           end
  | VStr s =>
      if String.eqb k "length" then VNum (decimal (String.length s))
      else match array_index k with
           | Some i =>
               match char_at s i with Some c => VStr c | None => VUndefined end
           | None => VUndefined
           end
  | _ => VUndefined
  end.

Fixpoint chars (s : string) : list value :=
  match s with
  | EmptyString => []
  | String c rest => VStr (String c EmptyString) :: chars rest
  end.

(** [Object.values(v)] for a value other than [undefined] and [null]. *)
Definition Object_values (v : value) : list value :=
  match v with
  | VObj props => map snd props
  | VArr items => items
  | VStr s => chars s
  | _ => []
  end.

(** [Object.keys(v)]; raises a [TypeError] on [undefined] and [null]. *)
Definition Object_keys (v : value) : completion (list string) :=
  match v with
  | VUndefined | VNull => Throw
  | VObj props => Normal (map fst props)
  | VArr items => Normal (map decimal (seq 0 (List.length items)))
  | VStr s => Normal (map decimal (seq 0 (String.length s)))
  | _ => Normal []
  end.

(** [String(v)].  An array joins the conversions of its elements with a
    comma, [undefined] and [null] elements giving the empty text.  A
    mapping prints as [[object Object]], unless it has an own property
    named [toString]: parsed data is never callable, so the conversion
    then finds no usable method and raises a [TypeError]. *)
Fixpoint String_ (v : value) : completion string :=
  match v with
  | VUndefined => Normal "undefined"
  | VNull => Normal "null"
  | VBool true => Normal "true"
  | VBool false => Normal "false"
  | VNum repr => Normal repr
  | VStr s => Normal s
  | VArr items =>
      (fix join (l : list value) : completion string :=
         match l with
         | [] => Normal ""
         | x :: rest =>
             let head :=
               match x with
               | VUndefined | VNull => Normal ""
               | _ => String_ x
               end in
             match head with
             | Throw => Throw
             | Normal h =>
                 match rest with
                 | [] => Normal h
                 | _ :: _ =>
                     match join rest with
                     | Normal t => Normal (h ++ "," ++ t)%string
                     | Throw => Throw
                     end
                 end
             end
         end) items
  | VObj props =>
      match assoc "toString" props with
      | Some _ => Throw
      | None => Normal "[object Object]"
      end
  end.

(** White space in the sense of [\s] and of [trim], among the characters
    below 256. *)
Definition is_space (c : ascii) : bool :=
  let n := nat_of_ascii c in
  ((9 <=? n) && (n <=? 13)) || (n =? 32) || (n =? 160).

Fixpoint trim_start (s : list ascii) : list ascii :=
  match s with
  | c :: rest => if is_space c then trim_start rest else s
  | [] => []
  end.

(** [s.trim()] *)
Definition trim (s : list ascii) : list ascii :=
  rev (trim_start (rev (trim_start s))).

(** [s.includes('.')] *)
Fixpoint includes_dot (s : string) : bool :=
  match s with
  | EmptyString => false
  | String c rest => Ascii.eqb c "." || includes_dot rest
  end.

(** [s.split('.')] *)
Fixpoint split_dot_from (cur : string) (s : string) : list string :=
  match s with
  | EmptyString => [cur]
  | String c rest =>
      if Ascii.eqb c "." then cur :: split_dot_from "" rest
      else split_dot_from (cur ++ String c EmptyString)%string rest
  end.

Definition split_dot (s : string) : list string := split_dot_from "" s.

End JS.
Import JS.

(* ===================================================================== *)
(** ** Regular expressions of the scanner *)
(* ===================================================================== *)

Module RegExp.

(** The constructs the two patterns of [findTranslationCalls] are made
    of.  Every star is greedy. *)
Inductive regex : Type :=
| Chr (c : ascii)
| Class (p : ascii -> bool)
| Cat (r1 r2 : regex)
| Star (r : regex)
| Group (n : nat) (r : regex)
| Backref (n : nat)
| WordBoundary.

Definition Plus (r : regex) : regex := Cat r (Star r).

(** A position of the matcher in the text: the character just before it,
    the text from it on, its offset and the captures made so far. *)
Record mstate : Type := {
  before : option ascii;
  rest : list ascii;
  pos : nat;
  caps : list (nat * list ascii)
}.

Definition is_word (c : ascii) : bool :=
  let n := nat_of_ascii c in
  ((48 <=? n) && (n <=? 57)) || ((65 <=? n) && (n <=? 90))
  || ((97 <=? n) && (n <=? 122)) || (n =? 95).

Definition word_opt (c : option ascii) : bool :=
  match c with Some c => is_word c | None => false end.

Definition advance (c : ascii) (tl : list ascii) (st : mstate) : mstate :=
  {| before := Some c; rest := tl; pos := S (pos st); caps := caps st |}.

Fixpoint capture (n : nat) (cs : list (nat * list ascii)) : option (list ascii) :=
  match cs with
  | [] => None
  | (m, s) :: tl => if n =? m then Some s else capture n tl
  end.

Fixpoint eat (s : list ascii) (st : mstate) : option mstate :=
  match s with
  | [] => Some st
  | c :: s' =>
      match rest st with
      | d :: tl => if Ascii.eqb c d then eat s' (advance d tl st) else None
      | [] => None
      end
  end.

(** The iterations of a greedy star whose body is matched by [body]: one
    more iteration is tried first, leaving the loop is the fallback, and
    an iteration that consumes nothing is rejected.  [fuel] bounds the
    number of iterations; the characters left to read are enough. *)
Fixpoint star_loop (body : mstate -> (mstate -> option mstate) -> option mstate)
  (k : mstate -> option mstate) (fuel : nat) (st : mstate) : option mstate :=
  match fuel with
  | 0 => k st
  | S fuel' =>
      match body st (fun st1 => if pos st1 =? pos st then None
                                else star_loop body k fuel' st1) with
      | Some res => Some res
      | None => k st
      end
  end.

(** The backtracking matcher, in continuation-passing style: [k] is what
    remains to be matched after [r]. *)
Fixpoint rmatch (r : regex) (st : mstate) (k : mstate -> option mstate)
  {struct r} : option mstate :=
  match r with
  | Chr c =>
      match rest st with
      | d :: tl => if Ascii.eqb c d then k (advance d tl st) else None
      | [] => None
      end
  | Class p =>
      match rest st with
      | d :: tl => if p d then k (advance d tl st) else None
      | [] => None
      end
  | Cat r1 r2 => rmatch r1 st (fun st1 => rmatch r2 st1 k)
  | Star r1 => star_loop (rmatch r1) k (S (List.length (rest st))) st
  | Group n r1 =>
      rmatch r1 st
        (fun st1 =>
           k {| before := before st1; rest := rest st1; pos := pos st1;
                caps := (n, firstn (pos st1 - pos st) (rest st)) :: caps st1 |})
  | Backref n =>
      match capture n (caps st) with
      | Some s => match eat s st with Some st1 => k st1 | None => None end
      | None => k st
      end
  | WordBoundary =>
      if xorb (word_opt (before st)) (word_opt (hd_error (rest st)))
      then k st else None
  end.

(** The result of a successful [exec]: [index], the offset just after the
    match (the new [lastIndex]) and the captured groups. *)
Record exec_result : Type := {
  index : nat;
  lastIndex : nat;
  groups : list (nat * list ascii)
}.

(** The leftmost match that starts at offset [i] or later; [bef] is the
    character before offset [i] and [tl] the text from [i] on. *)
Fixpoint search (r : regex) (bef : option ascii) (tl : list ascii) (i : nat)
  {struct tl} : option exec_result :=
  match rmatch r {| before := bef; rest := tl; pos := i; caps := [] |} Some with
  | Some st => Some {| index := i; lastIndex := pos st; groups := caps st |}
  | None =>
      match tl with
      | [] => None
      | c :: tl' => search r (Some c) tl' (S i)
      end
  end.

(** [r.exec(text)] for a global pattern whose [lastIndex] is [from]. *)
Definition exec (r : regex) (text : list ascii) (from : nat) : option exec_result :=
  if List.length text <? from then None
  else search r (match from with 0 => None | S j => nth_error text j end)
              (skipn from text) from.

(** [while ((match = r.exec(text)) !== null) ...]: the successive
    matches, each search resuming where the previous match ended. *)
Fixpoint exec_loop (fuel : nat) (r : regex) (text : list ascii) (from : nat)
  : list exec_result :=
  match fuel with
  | 0 => []
  | S fuel' =>
      match exec r text from with
      | None => []
      | Some m => m :: exec_loop fuel' r text (lastIndex m)
      end
  end.

Definition group (n : nat) (m : exec_result) : list ascii :=
  match capture n (groups m) with Some s => s | None => [] end.

Fixpoint cat (rs : list regex) (last : regex) : regex :=
  match rs with
  | [] => last
  | r :: rs' => Cat r (cat rs' last)
  end.

End RegExp.
Import RegExp.

(* ===================================================================== *)
(** ** Host facilities and collaborators *)
(* ===================================================================== *)

(** What the services observably do besides returning: the calls of the
    repository (each reads one locale file) and the fallback searches. *)
Inductive event : Type :=
| LoadTranslations (translationFilePath locale : string)
| SearchKeyInAllLocales (key currentLocale : string).

(** An asynchronous computation that has settled: the events it caused, in
    order, and how its promise completed. *)
Definition M (A : Type) : Type := (list event * completion A)%type.

Definition ret {A : Type} (a : A) : M A := ([], Normal a).

Definition bind {A B : Type} (m : M A) (f : A -> M B) : M B :=
  match snd m with
  | Normal a => (fst m ++ fst (f a), snd (f a))
  | Throw => (fst m, Throw)
  end.

Definition lift {A : Type} (c : completion A) : M A := ([], c).

Definition emit (e : event) : M unit := ([e], Normal tt).

(** [try { m } catch (error) { handler }] *)
Definition try_catch {A : Type} (m : M A) (handler : M A) : M A :=
  match snd m with
  | Normal _ => m
  | Throw => (fst m ++ fst handler, snd handler)
  end.

Notation "x <- m ;; k" := (bind m (fun x => k))
  (at level 61, m at next level, right associativity).
Notation "m ;;; k" := (bind m (fun _ => k))
  (at level 61, right associativity).

(** The file system and the parser of the platform. *)
Record Host : Type := {
  existsSync : string -> bool;
  readFileSync : string -> completion string;
  readdirSync : string -> completion (list string);
  JSON_parse : string -> completion value;
  path_join : string -> string -> string;
  path_basename : string -> string -> string;
  (** [vscode.workspace.getWorkspaceFolder(uri)?.uri.fsPath] *)
  getWorkspaceFolder : string -> option string
}.

(** [InlangSettings], as declared in locale/service.ts *)
Record InlangSettings : Type := {
  baseLocale : option string;
  locales : option (list string);
  pathPattern : option string
}.

(** The methods of [LocaleService] the resolution core calls. *)
Record LocaleService : Type := {
  getCurrentLocale : string;
  loadInlangSettings : string -> option InlangSettings;
  resolveTranslationPath : string -> string -> string
}.

(** The method of [ProjectService] the resolution core calls. *)
Record ProjectService : Type := {
  getActiveProjectPath : string -> string
}.

(* ===================================================================== *)
(** ** translation/repository.ts *)
(* ===================================================================== *)

Module TranslationRepository.
Section Repository.
Variable host : Host.

(** [loadTranslations]: the whole body runs inside [try]; the handler
    returns [null]. *)
Definition loadTranslations (translationFilePath locale : string) : M value :=
  emit (LoadTranslations translationFilePath locale) ;;;
  try_catch
    (if negb (existsSync host translationFilePath) then ret VNull
     else
       fileContent <- lift (readFileSync host translationFilePath) ;;
       translations <- lift (JSON_parse host fileContent) ;;
       lift (Object_keys translations) ;;;
       ret translations)
    (ret VNull).

Definition translationFileExists (translationFilePath : string) : bool :=
  existsSync host translationFilePath.

End Repository.
End TranslationRepository.

(* ===================================================================== *)
(** ** translation/service.ts *)
(* ===================================================================== *)

Module TranslationService.

Inductive keyType : Type := flat | nested.

Record TranslationCall : Type := {
  methodName : string;
  params : string;
  start : nat;
  end_ : nat;
  keyType_ : keyType
}.

Inductive warning : Type := missingLocale | noLocale.

(** [TranslationResult]: the call's fields, spread, and the resolution.
    [warningType = None] is the source's [warningType: null]. *)
Record TranslationResult : Type := {
  call : TranslationCall;
  translationValue : option string;
  warningType : option warning;
  foundInLocale : option string
}.

Record SearchResult : Type := {
  translation : string;
  locale : string
}.

Definition ident_start (c : ascii) : bool :=
  let n := nat_of_ascii c in
  ((65 <=? n) && (n <=? 90)) || ((97 <=? n) && (n <=? 122))
  || (n =? 95) || (n =? 36).

Definition ident_part (c : ascii) : bool :=
  let n := nat_of_ascii c in
  ident_start c || ((48 <=? n) && (n <=? 57)).

Definition not_rparen (c : ascii) : bool := negb (Ascii.eqb c ")").

Definition dquote : ascii := ascii_of_nat 34.

Definition any_quote (c : ascii) : bool :=
  Ascii.eqb c "'" || Ascii.eqb c dquote || Ascii.eqb c "`".

Definition not_quote (c : ascii) : bool :=
  negb (Ascii.eqb c "'" || Ascii.eqb c dquote).

(** The argument list shared by both patterns: optional white space, an
    opening parenthesis, optional white space, group [n] made of any
    characters other than a closing parenthesis, optional white space and
    the closing parenthesis. *)
Definition arguments (n : nat) : regex :=
  cat [Star (Class is_space); Chr "("; Star (Class is_space);
       Group n (Star (Class not_rparen)); Star (Class is_space)]
      (Chr ")").

(** The flat pattern: a word boundary, [m], a dot, group 1 made of an
    identifier (a letter, underscore or dollar sign, then letters, digits,
    underscores and dollar signs), and the argument list as group 2. *)
Definition flatPattern : regex :=
  cat [WordBoundary; Chr "m"; Chr ".";
       Group 1 (Cat (Class ident_start) (Star (Class ident_part)))]
      (arguments 2).

(** The nested pattern: a word boundary, [m], an opening bracket, group 1
    made of one quote character (single, double or back-tick), group 2
    made of one or more characters other than a single or a double quote,
    the text of group 1 again, a closing bracket, and the argument list
    as group 3. *)
Definition nestedPattern : regex :=
  cat [WordBoundary; Chr "m"; Chr "[";
       Group 1 (Class any_quote); Group 2 (Plus (Class not_quote));
       Backref 1; Chr "]"]
      (arguments 3).

Definition flat_call (m : exec_result) : TranslationCall :=
  {| methodName := string_of_list_ascii (group 1 m);
     params := string_of_list_ascii (trim (group 2 m));
     start := index m;
     end_ := lastIndex m;
     keyType_ := flat |}.

Definition nested_call (m : exec_result) : TranslationCall :=
  {| methodName := string_of_list_ascii (group 2 m);
     params := string_of_list_ascii (trim (group 3 m));
     start := index m;
     end_ := lastIndex m;
     keyType_ := nested |}.

(** The matches of a global pattern over the whole text, as the [while]
    loops of [findTranslationCalls] collect them. *)
Definition matches (r : regex) (text : string) : list exec_result :=
  let t := list_ascii_of_string text in
  exec_loop (S (List.length t)) r t 0.

(** [calls.sort((a, b) => a.start - b.start)]: the sort of the platform
    is stable, so an element goes before the first later element whose
    [start] is not smaller. *)
Fixpoint insert_by_start (c : TranslationCall) (l : list TranslationCall)
  : list TranslationCall :=
  match l with
  | [] => [c]
  | d :: l' => if start c <=? start d then c :: l
               else d :: insert_by_start c l'
  end.

Fixpoint sort_by_start (l : list TranslationCall) : list TranslationCall :=
  match l with
  | [] => []
  | c :: l' => insert_by_start c (sort_by_start l')
  end.

Definition findTranslationCalls (text : string) : list TranslationCall :=
  let calls := map flat_call (matches flatPattern text) in
  let calls := calls ++ map nested_call (matches nestedPattern text) in
  sort_by_start calls.

(** [processParaglideVariant]: the body runs inside [try]; the handler
    returns [null] (here [None]). *)
Definition processParaglideVariant (variantArray : value) : option string :=
  match variantArray with
  | VArr (firstVariant :: _) =>
      if negb (truthy firstVariant)
         || negb (typeof_object firstVariant)
         || negb (truthy (get firstVariant "match"))
      then None
      else
        match Object_values (get firstVariant "match") with
        | [] => None
        | first :: _ =>
            match String_ first with
            | Normal s => Some s
            | Throw => None
            end
        end
  | _ => None
  end.

(** The reducer of [getNestedValue]: one segment of the path. *)
Definition nested_step (current : value) (key : string) : value :=
  if truthy current && typeof_object current && has current key
  then get current key
  else VUndefined.

(** [getNestedValue]: [path.split('.').reduce(..., obj)] *)
Definition getNestedValue (obj : value) (path : string) : value :=
  fold_left nested_step (split_dot path) obj.

(** The value [getTranslation] finds for the key, its local [value]. *)
Definition lookup_key (translations : value) (key : string) : value :=
  if includes_dot key then getNestedValue translations key
  else get translations key.

(** [getTranslation]; [None] is the source's [null]. *)
Definition getTranslation (translations : value) (key : string) : option string :=
  if negb (truthy translations) then None
  else
    match lookup_key translations key with
    | VUndefined | VNull => None
    | VStr s => Some s
    | VArr items =>
        match processParaglideVariant (VArr items) with
        | Some variantValue =>
            if nonempty variantValue then Some (variantValue ++ "*")%string
            else None
        | None => None
        end
    | _ => None
    end.

(** A [string | null] result tested by [if (x)]. *)
Definition truthy_string (x : option string) : bool :=
  match x with Some s => nonempty s | None => false end.

Section Service.
Variable host : Host.
Variable localeService : LocaleService.

Definition loadTranslationsForLocale (workspacePath locale : string) : M value :=
  let translationPath := resolveTranslationPath localeService workspacePath locale in
  TranslationRepository.loadTranslations host translationPath locale.

(** The [for] loop of [searchKeyInAllLocales], which returns from
    inside at the first hit. *)
Fixpoint search_locales (workspacePath key currentLocale : string)
  (availableLocales : list string) : M (option SearchResult) :=
  match availableLocales with
  | [] => ret None
  | locale :: others =>
      if String.eqb locale currentLocale
      then search_locales workspacePath key currentLocale others
      else
        translations <- loadTranslationsForLocale workspacePath locale ;;
        if truthy translations then
          match getTranslation translations key with
          | Some translationValue =>
              if nonempty translationValue then
                ret (Some {| translation := translationValue;
                             locale := locale |})
              else search_locales workspacePath key currentLocale others
          | None => search_locales workspacePath key currentLocale others
          end
        else search_locales workspacePath key currentLocale others
  end.

(** [inlangSettings?.locales || ['en']] *)
Definition configured_locales (inlangSettings : option InlangSettings) : list string :=
  match inlangSettings with
  | Some settings =>
      match locales settings with
      | Some ls => ls
      | None => ["en"]
      end
  | None => ["en"]
  end.

Definition searchKeyInAllLocales (workspacePath key currentLocale : string)
  : M (option SearchResult) :=
  emit (SearchKeyInAllLocales key currentLocale) ;;;
  try_catch
    (let inlangSettings := loadInlangSettings localeService workspacePath in
     let availableLocales := configured_locales inlangSettings in
     search_locales workspacePath key currentLocale availableLocales)
    (ret None).

(** The body of the [for] loop of [processTranslationCallsWithWarnings]:
    the result pushed for one call. *)
Definition process_call (translations : value)
  (workspacePath currentLocale : string) (c : TranslationCall)
  : M TranslationResult :=
  let currentTranslation := getTranslation translations (methodName c) in
  if truthy_string currentTranslation then
    ret {| call := c;
           translationValue := currentTranslation;
           warningType := None;
           foundInLocale := None |}
  else
    searchResult <- searchKeyInAllLocales workspacePath (methodName c) currentLocale ;;
    match searchResult with
    | Some found =>
        ret {| call := c;
               translationValue := Some (translation found);
               warningType := Some missingLocale;
               foundInLocale := Some (locale found) |}
    | None =>
        ret {| call := c;
               translationValue := None;
               warningType := Some noLocale;
               foundInLocale := None |}
    end.

Fixpoint process_calls (translations : value)
  (workspacePath currentLocale : string)
  (translationCalls : list TranslationCall)
  (results : list TranslationResult) : M (list TranslationResult) :=
  match translationCalls with
  | [] => ret results
  | c :: others =>
      r <- process_call translations workspacePath currentLocale c ;;
      process_calls translations workspacePath currentLocale others
        (results ++ [r])
  end.

Definition processTranslationCallsWithWarnings
  (translationCalls : list TranslationCall) (translations : value)
  (workspacePath currentLocale : string) : M (list TranslationResult) :=
  process_calls translations workspacePath currentLocale translationCalls [].

End Service.

End TranslationService.
Import TranslationService.

(* ===================================================================== *)
(** ** sidebar/service.ts *)
(* ===================================================================== *)

Module SidebarService.

Record LocaleData : Type := {
  ld_locale : string;
  ld_value : string;
  ld_workspacePath : string
}.

Record TranslationKeyData : Type := {
  key : string;
  locales_ : list LocaleData
}.

(** The part of [vscode.TextDocument] the services read. *)
Record TextDocument : Type := {
  fsPath : string;
  getText : string
}.

(** [file.endsWith('.json')] *)
Definition endsWith_json (file : string) : bool :=
  let n := String.length file in
  (5 <=? n) && String.eqb (substring (n - 5) 5 file) ".json".

Section Service.
Variable host : Host.
Variable localeService : LocaleService.
Variable projectService : ProjectService.

Definition getAvailableLocales (workspacePath : string) : M (list string) :=
  try_catch
    (let projectPath := getActiveProjectPath projectService workspacePath in
     let inlangSettings := loadInlangSettings localeService workspacePath in
     match inlangSettings with
     | Some {| locales := Some ls |} => ret ls
     | _ =>
         let messagesDir := path_join host projectPath "messages" in
         if existsSync host messagesDir then
           files <- lift (readdirSync host messagesDir) ;;
           let found :=
             map (fun file => path_basename host file ".json")
                 (filter endsWith_json files) in
           if 0 <? List.length found then ret found else ret ["en"]
         else ret ["en"]
     end)
    (ret ["en"]).

(** The inner [for] loop of [getTranslationData], over the locales. *)
Fixpoint collect_locales (workspacePath projectPath k : string)
  (availableLocales : list string) (acc : list LocaleData)
  : M (list LocaleData) :=
  match availableLocales with
  | [] => ret acc
  | locale :: others =>
      translations <-
        loadTranslationsForLocale host localeService workspacePath locale ;;
      let translationValue :=
        if truthy translations then getTranslation translations k
        else None in
      match translationValue with
      | Some v =>
          collect_locales workspacePath projectPath k others
            (acc ++ [{| ld_locale := locale; ld_value := v;
                        ld_workspacePath := projectPath |}])
      | None => collect_locales workspacePath projectPath k others acc
      end
  end.

(** The outer [for] loop of [getTranslationData], over the calls. *)
Fixpoint collect_keys (workspacePath projectPath : string)
  (availableLocales : list string)
  (translationCalls : list TranslationCall)
  (translationData : list TranslationKeyData)
  : M (list TranslationKeyData) :=
  match translationCalls with
  | [] => ret translationData
  | c :: others =>
      ls <- collect_locales workspacePath projectPath (methodName c)
              availableLocales [] ;;
      if 0 <? List.length ls then
        collect_keys workspacePath projectPath availableLocales others
          (translationData ++ [{| key := methodName c; locales_ := ls |}])
      else
        collect_keys workspacePath projectPath availableLocales others
          translationData
  end.

Definition getTranslationData (document : option TextDocument)
  : M (list TranslationKeyData) :=
  try_catch
    (match document with
     | None => ret []
     | Some document =>
         match getWorkspaceFolder host (fsPath document) with
         | None => ret []
         | Some workspacePath =>
             let projectPath := getActiveProjectPath projectService workspacePath in
             let text := getText document in
             let translationCalls := findTranslationCalls text in
             if List.length translationCalls =? 0 then ret []
             else
               availableLocales <- getAvailableLocales workspacePath ;;
               collect_keys workspacePath projectPath availableLocales
                 translationCalls []
         end
     end)
    (ret []).

End Service.

End SidebarService.
Import SidebarService.

(* ===================================================================== *)
(** ** sidebar/translation-keys-provider.ts *)
(* ===================================================================== *)

Module TranslationKeysProvider.

Record PendingRefresh : Type := {
  document : option TextDocument;
  force : bool
}.

(** The fields of the provider that [refresh] reads and writes, and three
    observations of a run: the passes whose body is suspended at an
    [await] ([in_flight]), every pass started so far, oldest first
    ([passes]), and the number of change events fired ([fired]). *)
Record provider : Type := {
  refreshInProgress : bool;
  pendingRefresh : option PendingRefresh;
  clearTimeout : bool;
  translationData : list TranslationKeyData;
  currentFilePath : option string;
  in_flight : list PendingRefresh;
  passes : list PendingRefresh;
  fired : nat
}.

(** The state the constructor leaves. *)
Definition initial : provider :=
  {| refreshInProgress := false; pendingRefresh := None;
     clearTimeout := false; translationData := []; currentFilePath := None;
     in_flight := []; passes := []; fired := 0 |}.

(** How the body of the [try] block ends. *)
Inductive outcome : Type :=
| Preserved
| Updated (data : list TranslationKeyData) (path : string)
| ClearScheduled
| Failed.

(** [this.pendingRefresh = { document, force }; return;] *)
Definition record_pending (r : PendingRefresh) (st : provider) : provider :=
  {| refreshInProgress := refreshInProgress st;
     pendingRefresh := Some r;
     clearTimeout := clearTimeout st;
     translationData := translationData st;
     currentFilePath := currentFilePath st;
     in_flight := in_flight st; passes := passes st; fired := fired st |}.

(** The flag is raised and the body entered: a pending clear is
    cancelled, and the body runs up to its first suspension. *)
Definition enter (r : PendingRefresh) (st : provider) : provider :=
  {| refreshInProgress := true;
     pendingRefresh := pendingRefresh st;
     clearTimeout := false;
     translationData := translationData st;
     currentFilePath := currentFilePath st;
     in_flight := r :: in_flight st;
     passes := passes st ++ [r];
     fired := fired st |}.

(** A call of [refresh(document, force)]. *)
Definition refresh (r : PendingRefresh) (st : provider) : provider :=
  if refreshInProgress st then record_pending r st else enter r st.

(** What the rest of the body does to the provider, by the way it ends:
    the translation-file branch fires the event and returns; the normal
    path replaces the data and fires; the branch without a document arms
    the clear timer and returns; an exception leaves the fields alone. *)
Definition body (o : outcome) (st : provider) : provider :=
  match o with
  | Preserved =>
      {| refreshInProgress := refreshInProgress st;
         pendingRefresh := pendingRefresh st;
         clearTimeout := clearTimeout st;
         translationData := translationData st;
         currentFilePath := currentFilePath st;
         in_flight := in_flight st; passes := passes st;
         fired := S (fired st) |}
  | Updated data path =>
      {| refreshInProgress := refreshInProgress st;
         pendingRefresh := pendingRefresh st;
         clearTimeout := clearTimeout st;
         translationData := data;
         currentFilePath := Some path;
         in_flight := in_flight st; passes := passes st;
         fired := S (fired st) |}
  | ClearScheduled =>
      {| refreshInProgress := refreshInProgress st;
         pendingRefresh := pendingRefresh st;
         clearTimeout := true;
         translationData := translationData st;
         currentFilePath := currentFilePath st;
         in_flight := in_flight st; passes := passes st;
         fired := fired st |}
  | Failed => st
  end.

(** [this.refreshInProgress = false;], the first statement of [finally] *)
Definition release (st : provider) : provider :=
  {| refreshInProgress := false;
     pendingRefresh := pendingRefresh st;
     clearTimeout := clearTimeout st;
     translationData := translationData st;
     currentFilePath := currentFilePath st;
     in_flight := in_flight st; passes := passes st; fired := fired st |}.

Definition clear_pending (st : provider) : provider :=
  {| refreshInProgress := refreshInProgress st;
     pendingRefresh := None;
     clearTimeout := clearTimeout st;
     translationData := translationData st;
     currentFilePath := currentFilePath st;
     in_flight := in_flight st; passes := passes st; fired := fired st |}.

(** The rest of [finally]: a recorded request is taken out and run. *)
Definition follow_up (st : provider) : provider :=
  match pendingRefresh st with
  | Some pending => refresh pending (clear_pending st)
  | None => st
  end.

Definition finally_ (st : provider) : provider := follow_up (release st).

Definition leave (st : provider) : provider :=
  {| refreshInProgress := refreshInProgress st;
     pendingRefresh := pendingRefresh st;
     clearTimeout := clearTimeout st;
     translationData := translationData st;
     currentFilePath := currentFilePath st;
     in_flight := tl (in_flight st); passes := passes st; fired := fired st |}.

(** The suspended body resumes, ends with outcome [o], and the [finally]
    block runs.  Without a suspended body there is nothing to resume. *)
Definition settle (o : outcome) (st : provider) : provider :=
  match in_flight st with
  | [] => st
  | _ :: _ => finally_ (body o (leave st))
  end.

(** The turns of the event loop that touch the provider: a call of
    [refresh] from an event handler, and the completion of the pass in
    flight.  (A pass without a document completes in the turn that
    starts it; nothing below relies on that.) *)
Inductive turn : Type :=
| Refresh (r : PendingRefresh)
| Settle (o : outcome).

Definition step (st : provider) (t : turn) : provider :=
  match t with
  | Refresh r => refresh r st
  | Settle o => settle o st
  end.

Definition run (ts : list turn) (st : provider) : provider :=
  fold_left step ts st.

(** A state the provider can be in: one some sequence of turns leads to
    from the constructor's state. *)
Definition reachable (st : provider) : Prop :=
  exists ts, st = run ts initial.

End TranslationKeysProvider.

(* ===================================================================== *)
(** ** extraction/service.ts *)
(* ===================================================================== *)

Module ExtractionService.

(** [stripMatchingQuotes] *)
Definition stripMatchingQuotes (text : string) : string :=
  if negb (nonempty text) || (String.length text <? 2) then text
  else
    match String.get 0 text, String.get (String.length text - 1) text with
    | Some firstChar, Some lastChar =>
        if (Ascii.eqb firstChar dquote && Ascii.eqb lastChar dquote)
           || (Ascii.eqb firstChar "'" && Ascii.eqb lastChar "'")
           || (Ascii.eqb firstChar "`" && Ascii.eqb lastChar "`")
        then substring 1 (String.length text - 2) text
        else text
    | _, _ => text
    end.

(** [prefix ? `${prefix}.${key}` : key] *)
Definition currentKey_of (prefix key : string) : string :=
  if nonempty prefix then (prefix ++ "." ++ key)%string else key.

(** [searchInTranslations]: the entries are visited in enumeration order;
    a nested result that is the empty text is passed over ([if
    (nestedResult)]).  [None] is the source's [null]. *)
Fixpoint searchInTranslations (obj : value) (text prefix : string) {struct obj}
  : option string :=
  match obj with
  | VObj props =>
      (fix entries (l : list (string * value)) : option string :=
         match l with
         | [] => None
         | (key, value) :: others =>
             let currentKey := currentKey_of prefix key in
             match value with
             | VStr s =>
                 if String.eqb s text then Some currentKey else entries others
             | VObj _ =>
                 match searchInTranslations value text currentKey with
                 | Some nestedResult =>
                     if nonempty nestedResult then Some nestedResult
                     else entries others
                 | None => entries others
                 end
             | _ => entries others
             end
         end) props
  | VArr items =>
      (fix elements (i : nat) (l : list value) : option string :=
         match l with
         | [] => None
         | value :: others =>
             let currentKey := currentKey_of prefix (decimal i) in
             match value with
             | VStr s =>
                 if String.eqb s text then Some currentKey
                 else elements (S i) others
             | VObj _ =>
                 match searchInTranslations value text currentKey with
                 | Some nestedResult =>
                     if nonempty nestedResult then Some nestedResult
                     else elements (S i) others
                 | None => elements (S i) others
                 end
             | _ => elements (S i) others
             end
         end) 0 items
  | VStr s =>
      (fix units (i : nat) (l : string) : option string :=
         match l with
         | EmptyString => None
         | String c others =>
             if String.eqb (String c EmptyString) text
             then Some (currentKey_of prefix (decimal i))
             else units (S i) others
         end) 0 s
  | _ => None
  end.

Section Service.
Variable host : Host.
Variable localeService : LocaleService.

(** [inlangSettings?.baseLocale || 'en'] *)
Definition base_locale (inlangSettings : option InlangSettings) : string :=
  match inlangSettings with
  | Some settings =>
      match baseLocale settings with
      | Some l => if nonempty l then l else "en"
      | None => "en"
      end
  | None => "en"
  end.

(** [findExistingTranslation] *)
Definition findExistingTranslation (workspacePath text : string) : M (option string) :=
  try_catch
    (let inlangSettings := loadInlangSettings localeService workspacePath in
     let baseLocale := base_locale inlangSettings in
     let baseTranslationPath :=
       resolveTranslationPath localeService workspacePath baseLocale in
     baseTranslations <-
       TranslationRepository.loadTranslations host baseTranslationPath baseLocale ;;
     if truthy baseTranslations then
       match searchInTranslations baseTranslations text "" with
       | Some foundKey => if nonempty foundKey then ret (Some foundKey) else ret None
       | None => ret None
       end
     else ret None)
    (ret None).

End Service.

(** A key that the engine enumerates among the indices of a mapping: the
    canonical decimal writing of a number below 4294967295. *)
Fixpoint digits_valueN (acc : N) (s : string) : option N :=
  match s with
  | EmptyString => Some acc
  | String c s' =>
      match digit_of c with
      | Some d => digits_valueN (10 * acc + N.of_nat d)%N s'
      | None => None
      end
  end.

Definition own_index (k : string) : option N :=
  match k with
  | EmptyString => None
  | String c EmptyString => option_map N.of_nat (digit_of c)
  | String c _ =>
      if Ascii.eqb c "0" then None
      else match digits_valueN 0%N k with
           | Some v => if (v <? 4294967295)%N then Some v else None
           | None => None
           end
  end.

(** A new property takes its place in the enumeration order: an index
    goes among the indices, in ascending order, before the other keys; any
    other key goes last. *)
Fixpoint insert_index (i : N) (k : string) (v : value)
  (props : list (string * value)) : list (string * value) :=
  match props with
  | [] => [(k, v)]
  | (k', v') :: others =>
      match own_index k' with
      | Some j => if (j <? i)%N then (k', v') :: insert_index i k v others
                  else (k, v) :: props
      | None => (k, v) :: props
      end
  end.

Definition define_prop (k : string) (v : value) (props : list (string * value))
  : list (string * value) :=
  match own_index k with
  | Some i => insert_index i k v props
  | None => props ++ [(k, v)]
  end.

Fixpoint replace_prop (k : string) (v : value) (props : list (string * value))
  : list (string * value) :=
  match props with
  | [] => []
  | (k', v') :: others =>
      if String.eqb k k' then (k, v) :: others
      else (k', v') :: replace_prop k v others
  end.

Definition has_own (k : string) (props : list (string * value)) : bool :=
  match assoc k props with Some _ => true | None => false end.

(** [current[k] = v] on a mapping: an own property is overwritten in
    place; otherwise the name [__proto__] reaches the inherited setter,
    which ignores a text; any other name becomes a new own property. *)
Definition assign (k : string) (v : value) (props : list (string * value))
  : list (string * value) :=
  if has_own k props then replace_prop k v props
  else if String.eqb k "__proto__" then props
  else define_prop k v props.

(** How [setNestedValue] ends: the mapping it leaves; a [TypeError] (a
    [null] stands on the path); or a walk into the shared prototype
    object, whose effects lie outside the mapping. *)
Inductive set_result : Type :=
| Stored (props : list (string * value))
| Raised
| PrototypeReached.

(** The [for] loop of [setNestedValue] and the final assignment. *)
Fixpoint set_in (current : list (string * value)) (keys : list string)
  (lastKey value : string) : set_result :=
  match keys with
  | [] => Stored (assign lastKey (VStr value) current)
  | key :: others =>
      match assoc key current with
      | Some (VObj child) =>
          match set_in child others lastKey value with
          | Stored child' => Stored (replace_prop key (VObj child') current)
          | other => other
          end
      | Some VNull => Raised
      | Some _ =>
          match set_in [] others lastKey value with
          | Stored child' => Stored (replace_prop key (VObj child') current)
          | other => other
          end
      | None =>
          if String.eqb key "__proto__" then PrototypeReached
          else
            match set_in [] others lastKey value with
            | Stored child' => Stored (define_prop key (VObj child') current)
            | other => other
            end
      end
  end.

(** [setNestedValue], on a mapping and with a text as the value, as
    [updateLocaleFile] calls it. *)
Definition setNestedValue (obj : list (string * value)) (path value : string)
  : set_result :=
  if negb (includes_dot path) then Stored (assign path (VStr value) obj)
  else
    let keys := split_dot path in
    let lastKey := last keys "" in
    if negb (nonempty lastKey) then Stored obj
    else set_in obj (removelast keys) lastKey value.

Inductive interpolation : Type := template | code.

(** [formatKeyCall] *)
Definition formatKeyCall (key : string) (interpolationType : interpolation) : string :=
  let keyCall :=
    if includes_dot key
    then ("m[" ++ String dquote key ++ String dquote "]()")%string
    else ("m." ++ key ++ "()")%string in
  match interpolationType with
  | template => ("{" ++ keyCall ++ "}")%string
  | code => keyCall
  end.

End ExtractionService.
Import ExtractionService.

(* ===================================================================== *)
(** ** project/service.ts *)
(* ===================================================================== *)

Module Projects.

(** [Project], as declared in project/service.ts *)
Record Project : Type := {
  path : string;
  name : string;
  relativePath : string
}.

(** [[...projects].sort((a, b) => b.path.length - a.path.length)]: the
    sort of the platform is stable, so an element goes before the first
    later element whose path is not longer. *)
Fixpoint insert_by_length (p : Project) (l : list Project) : list Project :=
  match l with
  | [] => [p]
  | q :: l' =>
      if String.length (path q) <=? String.length (path p) then p :: l
      else q :: insert_by_length p l'
  end.

Fixpoint sort_by_length (l : list Project) : list Project :=
  match l with
  | [] => []
  | p :: l' => insert_by_length p (sort_by_length l')
  end.

Section Service.
(** [path.sep] *)
Variable sep : string.

(** [filePath.startsWith(project.path + path.sep) || filePath === project.path] *)
Definition holds (filePath : string) (project : Project) : bool :=
  String.prefix (path project ++ sep) filePath
  || String.eqb filePath (path project).

(** The [for] loop of [getProjectForFile], which returns from inside at
    the first project that holds the file. *)
Fixpoint first_holding (filePath : string) (sortedProjects : list Project)
  : option string :=
  match sortedProjects with
  | [] => None
  | project :: others =>
      if holds filePath project then Some (path project)
      else first_holding filePath others
  end.

(** [getProjectForFile]; [None] is the source's [null]. *)
Definition getProjectForFile (filePath : string) (projects : list Project)
  : option string :=
  let sortedProjects := sort_by_length projects in
  first_holding filePath sortedProjects.

End Service.

End Projects.
Import Projects.


(* ===================================================================== *)
(** ** sidebar/project-provider.ts *)
(* ===================================================================== *)

Module ProjectSelectorProvider.

(** What is noted of a run: a call of [refresh] from outside, and the
    start of a pass. *)
Inductive mark : Type := Requested | Started.

(** The fields of the provider that [refresh] reads and writes
    ([pendingRefresh] is [true] or, here [false], [null]), and three
    observations of a run: the number of passes suspended at the [await],
    the marks noted so far, oldest first, and the number of change events
    fired. *)
Record selector : Type := {
  refreshInProgress : bool;
  pendingRefresh : bool;
  availableProjects : list Project;
  activeProjectPath : option string;
  in_flight : nat;
  log : list mark;
  fired : nat
}.

(** The state the constructor leaves. *)
Definition initial : selector :=
  {| refreshInProgress := false; pendingRefresh := false;
     availableProjects := []; activeProjectPath := None;
     in_flight := 0; log := []; fired := 0 |}.

(** How the body of the [try] block ends: with the scanned projects and
    the active project path, without a workspace folder, or with an
    exception. *)
Inductive outcome : Type :=
| Scanned (projects : list Project) (active : string)
| NoWorkspace
| Failed.

(** [this.pendingRefresh = true; return;] *)
Definition record_pending (st : selector) : selector :=
  {| refreshInProgress := refreshInProgress st;
     pendingRefresh := true;
     availableProjects := availableProjects st;
     activeProjectPath := activeProjectPath st;
     in_flight := in_flight st; log := log st; fired := fired st |}.

(** The flag is raised and the body entered, up to its suspension. *)
Definition enter (st : selector) : selector :=
  {| refreshInProgress := true;
     pendingRefresh := pendingRefresh st;
     availableProjects := availableProjects st;
     activeProjectPath := activeProjectPath st;
     in_flight := S (in_flight st);
     log := log st ++ [Started];
     fired := fired st |}.

(** A call of [refresh()]. *)
Definition refresh (st : selector) : selector :=
  if refreshInProgress st then record_pending st else enter st.

(** What the rest of the body does to the provider. *)
Definition body (o : outcome) (st : selector) : selector :=
  match o with
  | Scanned projects active =>
      {| refreshInProgress := refreshInProgress st;
         pendingRefresh := pendingRefresh st;
         availableProjects := projects;
         activeProjectPath := Some active;
         in_flight := in_flight st; log := log st;
         fired := S (fired st) |}
  | NoWorkspace =>
      {| refreshInProgress := refreshInProgress st;
         pendingRefresh := pendingRefresh st;
         availableProjects := availableProjects st;
         activeProjectPath := activeProjectPath st;
         in_flight := in_flight st; log := log st;
         fired := S (fired st) |}
  | Failed => st
  end.

(** [this.refreshInProgress = false;], the first statement of [finally] *)
Definition release (st : selector) : selector :=
  {| refreshInProgress := false;
     pendingRefresh := pendingRefresh st;
     availableProjects := availableProjects st;
     activeProjectPath := activeProjectPath st;
     in_flight := in_flight st; log := log st; fired := fired st |}.

Definition clear_pending (st : selector) : selector :=
  {| refreshInProgress := refreshInProgress st;
     pendingRefresh := false;
     availableProjects := availableProjects st;
     activeProjectPath := activeProjectPath st;
     in_flight := in_flight st; log := log st; fired := fired st |}.

(** The rest of [finally]: a recorded request is cleared and run. *)
Definition follow_up (st : selector) : selector :=
  if pendingRefresh st then refresh (clear_pending st) else st.

Definition finally_ (st : selector) : selector := follow_up (release st).

Definition leave (st : selector) : selector :=
  {| refreshInProgress := refreshInProgress st;
     pendingRefresh := pendingRefresh st;
     availableProjects := availableProjects st;
     activeProjectPath := activeProjectPath st;
     in_flight := pred (in_flight st); log := log st; fired := fired st |}.

(** The suspended body resumes, ends with outcome [o], and the [finally]
    block runs.  Without a suspended body there is nothing to resume. *)
Definition settle (o : outcome) (st : selector) : selector :=
  match in_flight st with
  | 0 => st
  | S _ => finally_ (body o (leave st))
  end.

(** A call of [refresh()] from outside is noted. *)
Definition request (st : selector) : selector :=
  refresh
    {| refreshInProgress := refreshInProgress st;
       pendingRefresh := pendingRefresh st;
       availableProjects := availableProjects st;
       activeProjectPath := activeProjectPath st;
       in_flight := in_flight st; log := log st ++ [Requested];
       fired := fired st |}.

(** The turns of the event loop that touch the provider. *)
Inductive turn : Type :=
| Request
| Settle (o : outcome).

Definition step (st : selector) (t : turn) : selector :=
  match t with
  | Request => request st
  | Settle o => settle o st
  end.

Definition run (ts : list turn) (st : selector) : selector :=
  fold_left step ts st.

End ProjectSelectorProvider.


(* ===================================================================== *)
(** ** editor/decorator.ts, editor/codelens.ts, editor/service.ts *)
(* ===================================================================== *)

Module Editor.

(** A decoration: the offset its empty range sits at
    ([document.positionAt(result.end)], twice) and the [after] render
    options. *)
Record Decoration : Type := {
  offset : nat;
  contentText : string;
  color : string;
  fontStyle : string;
  border : string;
  borderRadius : string;
  padding : string;
  margin : string
}.

(** A [string | null] inside a template literal. *)
Definition template_text (x : option string) : string :=
  match x with Some s => s | None => "null" end.

(** The body of the loop of [createDecorations]. *)
Definition decoration (result : TranslationResult) : Decoration :=
  let '(contentText, color, borderColor) :=
    match warningType result with
    | Some noLocale => ("<missing>", "#cc6666", "#cc6666")
    | Some missingLocale =>
        ((String dquote (template_text (translationValue result))
            ++ String dquote " (locales missing)")%string,
         "#d4a574", "#d4a574")
    | None =>
        ((String dquote (template_text (translationValue result))
            ++ String dquote "")%string,
         "#888888", "#888888")
    end in
  {| offset := end_ (call result);
     contentText := contentText;
     color := color;
     fontStyle := "italic";
     border := ("1px solid " ++ borderColor)%string;
     borderRadius := "4px";
     padding := "2px 4px";
     margin := "0 2px" |}.

(** [createDecorations]: one decoration is pushed per result. *)
Definition createDecorations (translationResults : list TranslationResult)
  : list Decoration :=
  fold_left (fun decorations result => decorations ++ [decoration result])
            translationResults [].

(** A code lens: the offset of its empty range, and its command with the
    two arguments. *)
Record CodeLens : Type := {
  position : nat;
  title : string;
  command : string;
  arguments : string * string
}.

(** The fields of [TranslationCodeLensProvider]. *)
Record lenses : Type := {
  translationResults : list TranslationResult;
  document : option TextDocument
}.

(** [updateTranslationResults] *)
Definition updateTranslationResults (d : TextDocument)
  (results : list TranslationResult) : lenses :=
  {| translationResults := results; document := Some d |}.

(** [provideCodeLenses]; a document is identified by its path. *)
Definition provideCodeLenses (provider : lenses) (d : TextDocument) : list CodeLens :=
  match document provider with
  | None => []
  | Some own =>
      if negb (String.eqb (fsPath d) (fsPath own)) then []
      else
        fold_left
          (fun codeLenses result =>
             codeLenses
               ++ [{| position := end_ (call result);
                      title := "$(globe)  Inspect Translation";
                      command := "poirot.clickTranslationLabel";
                      arguments := (methodName (call result), fsPath d) |}])
          (translationResults provider) []
  end.

(** What [processDocument] does besides returning: what the services it
    calls read, and its calls on the decorator and on the code lens
    provider, each for the document they are about. *)
Inductive effect : Type :=
| Read (e : event)
| ClearDecorations (d : TextDocument)
| ApplyDecorations (d : TextDocument) (decorations : list Decoration)
| UpdateTranslationResults (d : TextDocument) (results : list TranslationResult).

(** A settled computation of the editor service: its effects, in order,
    and how it completed. *)
Definition E (A : Type) : Type := (list effect * completion A)%type.

Definition done {A : Type} (a : A) : E A := ([], Normal a).

Definition act (x : effect) : E unit := ([x], Normal tt).

(** A computation of the services, run from the editor service. *)
Definition await {A : Type} (m : M A) : E A := (map Read (fst m), snd m).

Definition then_ {A B : Type} (m : E A) (f : A -> E B) : E B :=
  match snd m with
  | Normal a => (fst m ++ fst (f a), snd (f a))
  | Throw => (fst m, Throw)
  end.

(** [try { m } catch (error) { console.error(...) }] *)
Definition guarded (m : E unit) : E unit :=
  match snd m with
  | Normal _ => m
  | Throw => (fst m, Normal tt)
  end.

Section Service.
Variable host : Host.
Variable localeService : LocaleService.

(** [translations || {}] *)
Definition or_empty (translations : value) : value :=
  if truthy translations then translations else VObj [].

(** [processDocument]; [visible] tells whether a visible editor shows
    the document. *)
Definition processDocument (visible : bool) (d : TextDocument) : E unit :=
  guarded
    (if negb visible then done tt
     else
       then_ (act (ClearDecorations d)) (fun _ =>
       let text := getText d in
       match getWorkspaceFolder host (fsPath d) with
       | None => done tt
       | Some workspacePath =>
           let translationCalls := findTranslationCalls text in
           if List.length translationCalls =? 0
           then act (UpdateTranslationResults d [])
           else
             let currentLocale := getCurrentLocale localeService in
             then_ (await (loadTranslationsForLocale host localeService
                             workspacePath currentLocale)) (fun translations =>
             then_ (await (processTranslationCallsWithWarnings host localeService
                             translationCalls (or_empty translations)
                             workspacePath currentLocale)) (fun translationResults =>
             if List.length translationResults =? 0
             then act (UpdateTranslationResults d [])
             else
               let decorations := createDecorations translationResults in
               then_ (act (ApplyDecorations d decorations)) (fun _ =>
               act (UpdateTranslationResults d translationResults))))
       end)).

End Service.

End Editor.


(* ===================================================================== *)
(** ** extension/activator.ts: debounced document updates *)
(* ===================================================================== *)

Module Activator.

Section Debounce.
(** What a debounced update will run: [DocumentUpdateCallback]. *)
Variable callback : Type.

(** The field [documentUpdateTimeouts] (a [Map] from a document's URI to
    the handle of its timer, in insertion order), the timers the platform
    holds armed (each with the URI and the callback its closure captured),
    the next handle the platform will give out, and the callbacks run so
    far, oldest first. *)
Record activator : Type := {
  documentUpdateTimeouts : list (string * nat);
  timers : list (nat * (string * callback));
  next : nat;
  ran : list (string * callback)
}.

(** The state the constructor leaves. *)
Definition initial : activator :=
  {| documentUpdateTimeouts := []; timers := []; next := 1; ran := [] |}.

(** [map.get(key)] *)
Fixpoint get (k : string) (m : list (string * nat)) : option nat :=
  match m with
  | [] => None
  | (k', v) :: others => if String.eqb k k' then Some v else get k others
  end.

(** [map.set(key, value)]: an entry that exists keeps its place. *)
Fixpoint set (k : string) (v : nat) (m : list (string * nat)) : list (string * nat) :=
  match m with
  | [] => [(k, v)]
  | (k', v') :: others =>
      if String.eqb k k' then (k, v) :: others else (k', v') :: set k v others
  end.

(** [map.delete(key)] *)
Definition delete (k : string) (m : list (string * nat)) : list (string * nat) :=
  filter (fun entry => negb (String.eqb k (fst entry))) m.

(** [clearTimeout(handle)] *)
Definition clearTimeout (h : nat) (st : activator) : activator :=
  {| documentUpdateTimeouts := documentUpdateTimeouts st;
     timers := filter (fun t => negb (h =? fst t)) (timers st);
     next := next st;
     ran := ran st |}.

(** [debounceDocumentUpdate]: a handle is an object or a positive number,
    hence passes the test [if (existingTimeout)]. *)
Definition debounceDocumentUpdate (documentUri : string) (cb : callback)
  (st : activator) : activator :=
  let existingTimeout := get documentUri (documentUpdateTimeouts st) in
  let st := match existingTimeout with
            | Some h => clearTimeout h st
            | None => st
            end in
  let timeout := next st in
  {| documentUpdateTimeouts := set documentUri timeout (documentUpdateTimeouts st);
     timers := timers st ++ [(timeout, (documentUri, cb))];
     next := S (next st);
     ran := ran st |}.

(** The timer [h] expires: if it is armed, the platform disarms it and
    runs its closure, which deletes the document's entry and starts the
    callback. *)
Definition expire (h : nat) (st : activator) : activator :=
  match find (fun t => h =? fst t) (timers st) with
  | Some (_, (documentUri, cb)) =>
      {| documentUpdateTimeouts := delete documentUri (documentUpdateTimeouts st);
         timers := filter (fun t => negb (h =? fst t)) (timers st);
         next := next st;
         ran := ran st ++ [(documentUri, cb)] |}
  | None => st
  end.

(** The save listener's cancellation of the pending update of a
    document. *)
Definition cancel (documentUri : string) (st : activator) : activator :=
  match get documentUri (documentUpdateTimeouts st) with
  | Some h =>
      let st := clearTimeout h st in
      {| documentUpdateTimeouts := delete documentUri (documentUpdateTimeouts st);
         timers := timers st; next := next st; ran := ran st |}
  | None => st
  end.

(** [for (const timeout of map.values()) clearTimeout(timeout);
    map.clear();], as run when real-time updates are switched off and on
    deactivation. *)
Definition cancel_all (st : activator) : activator :=
  let st := fold_left (fun st entry => clearTimeout (snd entry) st)
                      (documentUpdateTimeouts st) st in
  {| documentUpdateTimeouts := []; timers := timers st; next := next st;
     ran := ran st |}.

(** The turns of the event loop that touch the timers. *)
Inductive turn : Type :=
| Changed (documentUri : string) (cb : callback)
| Expired (h : nat)
| Saved (documentUri : string)
| SwitchedOff.

Definition step (st : activator) (t : turn) : activator :=
  match t with
  | Changed documentUri cb => debounceDocumentUpdate documentUri cb st
  | Expired h => expire h st
  | Saved documentUri => cancel documentUri st
  | SwitchedOff => cancel_all st
  end.

Definition run (ts : list turn) (st : activator) : activator :=
  fold_left step ts st.

End Debounce.

End Activator.


(* ===================================================================== *)
(** ** Sample workspaces *)
(* ===================================================================== *)

Module Samples.

Fixpoint lookup {A : Type} (k : string) (table : list (string * A)) : option A :=
  match table with
  | [] => None
  | (k', a) :: rest => if String.eqb k k' then Some a else lookup k rest
  end.

(** A host given by the files on disk ([path], [content]) and by what the
    parser returns for each content that occurs. *)
Definition table_host (files : list (string * string))
  (parsed : list (string * value)) : Host :=
  {| existsSync := fun p => match lookup p files with Some _ => true | None => false end;
     readFileSync := fun p => match lookup p files with Some c => Normal c | None => Throw end;
     readdirSync := fun _ => Throw;
     JSON_parse := fun t => match lookup t parsed with Some v => Normal v | None => Throw end;
     path_join := fun a b => (a ++ "/" ++ b)%string;
     path_basename := fun f ext =>
       let n := String.length f in
       let e := String.length ext in
       if (e <=? n) && String.eqb (substring (n - e) e f) ext
       then substring 0 (n - e) f else f;
     getWorkspaceFolder := fun _ => Some "/w" |}.

(** The locale service of a project whose settings list [ls] and leave
    the path pattern at its default, [./messages/{locale}.json]. *)
Definition sample_locales (current : string) (ls : list string) : LocaleService :=
  {| getCurrentLocale := current;
     loadInlangSettings := fun _ =>
       Some {| baseLocale := None; locales := Some ls; pathPattern := None |};
     resolveTranslationPath := fun workspacePath locale =>
       (workspacePath ++ "/messages/" ++ locale ++ ".json")%string |}.

Definition sample_project : ProjectService :=
  {| getActiveProjectPath := fun workspacePath => workspacePath |}.

(** [{"greeting": [{"match": {"x": "Hi"}}, {"match": {"x": "Yo"}}]}] *)
Definition variant_data : value :=
  VObj [("greeting",
         VArr [VObj [("match", VObj [("x", VStr "Hi")])];
               VObj [("match", VObj [("x", VStr "Yo")])]])].

(** [{"greeting": [{"match": m}]}] *)
Definition variant_of (m : value) : value :=
  VObj [("greeting", VArr [VObj [("match", m)]])].

(** [{"login": {"inputs": {"email": "Email"}}}] *)
Definition login_data : value :=
  VObj [("login", VObj [("inputs", VObj [("email", VStr "Email")])])].

(** [{"greeting": ""}], [{"greeting": "Hallo"}], [{"greeting": "Hello"}] *)
Definition blank_data : value := VObj [("greeting", VStr "")].
Definition hallo_data : value := VObj [("greeting", VStr "Hallo")].
Definition hello_data : value := VObj [("greeting", VStr "Hello")].

(** The text of a string literal of a locale file. *)
Definition quoted (s : string) : string :=
  (String dquote s ++ String dquote EmptyString)%string.

(** The text of a locale file with the single entry [greeting]. *)
Definition greeting_file (v : string) : string :=
  ("{" ++ quoted "greeting" ++ ":" ++ quoted v ++ "}")%string.

(** A workspace whose English file holds an empty greeting and that has
    no other locale. *)
Definition blank_en_host : Host :=
  table_host [("/w/messages/en.json", greeting_file "")]
             [(greeting_file "", blank_data)].

(** A workspace with three locales: no English file, a French file with
    an empty greeting, a German file with a greeting. *)
Definition three_host : Host :=
  table_host [("/w/messages/fr.json", greeting_file "");
              ("/w/messages/de.json", greeting_file "Hallo")]
             [(greeting_file "", blank_data);
              (greeting_file "Hallo", hallo_data)].

(** A workspace whose English file holds the text of an empty array. *)
Definition array_host : Host :=
  table_host [("/w/messages/en.json", "[]")] [("[]", VArr [])].

(** A workspace whose English file is cut short, hence not well-formed. *)
Definition broken_host : Host :=
  table_host [("/w/messages/en.json", "{")] [].

(** A workspace with an English and a German greeting. *)
Definition hello_host : Host :=
  table_host [("/w/messages/en.json", greeting_file "Hello");
              ("/w/messages/de.json", greeting_file "Hallo")]
             [(greeting_file "Hello", hello_data);
              (greeting_file "Hallo", hallo_data)].

(** A locale service whose path pattern does not mention the locale:
    every locale reads [messages/all.json]. *)
Definition one_file_locales (current : string) (ls : list string) : LocaleService :=
  {| getCurrentLocale := current;
     loadInlangSettings := fun _ =>
       Some {| baseLocale := None; locales := Some ls;
               pathPattern := Some "./messages/all.json" |};
     resolveTranslationPath := fun workspacePath _ =>
       (workspacePath ++ "/messages/all.json")%string |}.

(** A workspace whose only data file is [messages/all.json], holding an
    empty greeting. *)
Definition one_file_host : Host :=
  table_host [("/w/messages/all.json", greeting_file "")]
             [(greeting_file "", blank_data)].

End Samples.
Import Samples.

(* ===================================================================== *)
(** ** Vocabulary of the statements *)
(* ===================================================================== *)

Import TranslationKeysProvider.

(** What [loadTranslations] returns, read off the host. *)
Definition loaded (host : Host) (translationFilePath : string) : value :=
  if existsSync host translationFilePath then
    match readFileSync host translationFilePath with
    | Normal fileContent =>
        match JSON_parse host fileContent with
        | Normal VUndefined | Normal VNull | Throw => VNull
        | Normal translations => translations
        end
    | Throw => VNull
    end
  else VNull.

(** The first element of a variant list from which no value is taken: it
    is not a mapping, or has no [match] entry, or its [match] entry is
    falsy or has no values, or the first value of its [match] entry
    converts to the empty text or cannot be converted. *)
Inductive no_usable_match : value -> Prop :=
| not_a_record (v : value) :
    match v with VObj _ => False | _ => True end -> no_usable_match v
| match_missing (fields : list (string * value)) :
    assoc "match" fields = None -> no_usable_match (VObj fields)
| match_falsy (fields : list (string * value)) (m : value) :
    assoc "match" fields = Some m -> truthy m = false ->
    no_usable_match (VObj fields)
| match_empty (fields : list (string * value)) (m : value) :
    assoc "match" fields = Some m -> Object_values m = [] ->
    no_usable_match (VObj fields)
| match_blank (fields : list (string * value)) (m v : value) (vs : list value) :
    assoc "match" fields = Some m -> Object_values m = v :: vs ->
    String_ v = Normal "" ->
    no_usable_match (VObj fields)
| match_unprintable (fields : list (string * value)) (m v : value)
    (vs : list value) :
    assoc "match" fields = Some m -> Object_values m = v :: vs ->
    String_ v = Throw ->
    no_usable_match (VObj fields).

(** The order of the scanner's result, and the calls that start at [o]. *)
Definition by_start (a b : TranslationCall) : Prop := start a <= start b.

Definition starts_at (o : nat) (c : TranslationCall) : bool := start c =? o.


(** The event of loading one locale's file. *)
Definition load_event (ls : LocaleService) (workspacePath locale : string) : event :=
  LoadTranslations (resolveTranslationPath ls workspacePath locale) locale.

(** What a candidate locale contributes to the search: the value its
    loaded data resolves the key to, when there is one and it is not the
    empty text. *)
Definition candidate_value (host : Host) (ls : LocaleService)
  (workspacePath key locale : string) : option string :=
  match getTranslation
          (loaded host (resolveTranslationPath ls workspacePath locale)) key with
  | Some v => if nonempty v then Some v else None
  | None => None
  end.

(** The locales the search considers, in their declared order. *)
Definition candidates (ls : LocaleService) (workspacePath currentLocale : string)
  : list string :=
  filter (fun l => negb (String.eqb l currentLocale))
         (configured_locales (loadInlangSettings ls workspacePath)).

(** The first candidate with a value, and the loads made to find it. *)
Fixpoint first_hit (host : Host) (ls : LocaleService) (workspacePath key : string)
  (cands : list string) : list event * option SearchResult :=
  match cands with
  | [] => ([], None)
  | l :: others =>
      match candidate_value host ls workspacePath key l with
      | Some v => ([load_event ls workspacePath l],
                   Some {| translation := v; locale := l |})
      | None => (load_event ls workspacePath l
                   :: fst (first_hit host ls workspacePath key others),
                 snd (first_hit host ls workspacePath key others))
      end
  end.

(** The invariant of a result: an unresolved call has no value; a call
    resolved elsewhere has a value and names a locale other than the
    active one. *)
Definition well_formed_result (currentLocale : string) (r : TranslationResult) : Prop :=
  (warningType r = Some noLocale -> translationValue r = None)
  /\ (warningType r = Some missingLocale ->
      translationValue r <> None
      /\ exists l, foundInLocale r = Some l /\ l <> currentLocale).

(** What the data of [locale] resolves the key [k] to. *)
Definition resolution (host : Host) (ls : LocaleService)
  (workspacePath k locale : string) : option string :=
  getTranslation (loaded host (resolveTranslationPath ls workspacePath locale)) k.

(** The rows of one key: one per locale that resolves it, in order. *)
Definition rows (host : Host) (ls : LocaleService)
  (workspacePath projectPath k : string) (availableLocales : list string)
  : list LocaleData :=
  flat_map
    (fun l => match resolution host ls workspacePath k l with
              | Some v => [{| ld_locale := l; ld_value := v;
                              ld_workspacePath := projectPath |}]
              | None => []
              end)
    availableLocales.

(** The entries of the calls: one per call with at least one row. *)
Definition entries (host : Host) (ls : LocaleService)
  (workspacePath projectPath : string) (availableLocales : list string)
  (calls : list TranslationCall) : list TranslationKeyData :=
  flat_map
    (fun c =>
       if 0 <? List.length (rows host ls workspacePath projectPath (methodName c)
                              availableLocales)
       then [{| key := methodName c;
                locales_ := rows host ls workspacePath projectPath (methodName c)
                              availableLocales |}]
       else [])
    calls.

(** The target of a request: the document it is about, or none (the
    cleared target). *)
Definition target (r : PendingRefresh) : option string :=
  option_map fsPath (document r).

Definition for_target (t : option string) (r : PendingRefresh) : bool :=
  match t, target r with
  | Some a, Some b => String.eqb a b
  | None, None => true
  | _, _ => false
  end.

(** Either one pass is in flight and the flag is up, or none is, the flag
    is down and no request is pending. *)
Definition coherent (st : provider) : Prop :=
  (refreshInProgress st = true /\ exists r, in_flight st = [r])
  \/ (refreshInProgress st = false /\ in_flight st = [] /\ pendingRefresh st = None).

(** Three requests about one document, as successive edits make them. *)
Definition first_request : PendingRefresh :=
  {| document := Some {| fsPath := "/w/src/app.ts"; getText := "m.greeting()" |};
     force := false |}.

Definition second_request : PendingRefresh :=
  {| document := Some {| fsPath := "/w/src/app.ts"; getText := "m.greeting(1)" |};
     force := false |}.

Definition third_request : PendingRefresh :=
  {| document := Some {| fsPath := "/w/src/app.ts"; getText := "m.greeting(2)" |};
     force := true |}.

(** [st'] lies at or after [st] in the same text. *)
Definition ahead (st st' : mstate) : Prop :=
  pos st <= pos st'
  /\ pos st' + List.length (rest st') = pos st + List.length (rest st).

(** A pattern that opens with a word boundary and the two literal
    characters [c1] and [c2], as both patterns of the scanner do. *)
Definition opens_with (c1 c2 : ascii) (r : regex) : Prop :=
  exists r', r = Cat WordBoundary (Cat (Chr c1) (Cat (Chr c2) r')).


(** The character just before offset [i] of a text, if any. *)
Definition char_before (text : list ascii) (i : nat) : option ascii :=
  match i with
  | 0 => None
  | S j => nth_error text j
  end.

(** What holds of a match of a pattern that opens with [c1] and [c2]: it
    lies at or after the offset the search started from, is not empty,
    ends within the text, starts with [c1] and [c2], and no word character
    stands before it. *)
Definition span_ok (text : list ascii) (c1 c2 : ascii) (from : nat)
  (m : exec_result) : Prop :=
  from <= index m /\ index m < lastIndex m /\ lastIndex m <= List.length text
  /\ nth_error text (index m) = Some c1
  /\ nth_error text (S (index m)) = Some c2
  /\ word_opt (char_before text (index m)) = false.

(** The numbers of the groups of a pattern. *)
Fixpoint groups_of (r : regex) : list nat :=
  match r with
  | Chr _ | Class _ | Backref _ | WordBoundary => []
  | Cat r1 r2 => groups_of r1 ++ groups_of r2
  | Star r1 => groups_of r1
  | Group n r1 => n :: groups_of r1
  end.

(** An identifier: a letter, underscore or dollar sign, then letters,
    digits, underscores and dollar signs. *)
Definition is_identifier (s : list ascii) : Prop :=
  match s with
  | [] => False
  | c :: s' => ident_start c = true /\ Forall (fun d => ident_part d = true) s'
  end.

(** The second character of a call of each shape. *)
Definition opening (k : keyType) : ascii :=
  match k with flat => "." | nested => "[" end%char.


(** [st'] is [st] after reading the characters [s]; the captures are those
    of [st]. *)
Definition consumed (s : list ascii) (st st' : mstate) : Prop :=
  rest st = s ++ rest st' /\ pos st' = pos st + List.length s /\ caps st' = caps st.

(** The key of a scanned call, by its shape: a flat key is an identifier;
    a nested key is not empty and holds no single or double quote. *)
Definition key_shape (c : TranslationCall) : Prop :=
  match keyType_ c with
  | flat => is_identifier (list_ascii_of_string (methodName c))
  | nested =>
      methodName c <> ""
      /\ Forall (fun d => not_quote d = true) (list_ascii_of_string (methodName c))
  end.


(** Induction over a value and the values nested in it. *)
Fixpoint value_nested_ind (P : value -> Prop)
  (Hundefined : P VUndefined) (Hnull : P VNull)
  (Hbool : forall b, P (VBool b)) (Hnum : forall repr, P (VNum repr))
  (Hstr : forall s, P (VStr s))
  (Harr : forall items, Forall P items -> P (VArr items))
  (Hobj : forall props, Forall (fun kv => P (snd kv)) props -> P (VObj props))
  (v : value) {struct v} : P v :=
  match v with
  | VUndefined => Hundefined
  | VNull => Hnull
  | VBool b => Hbool b
  | VNum repr => Hnum repr
  | VStr s => Hstr s
  | VArr items =>
      Harr items
        ((fix all (l : list value) : Forall P l :=
            match l with
            | [] => Forall_nil P
            | x :: l' =>
                Forall_cons x
                  (value_nested_ind P Hundefined Hnull Hbool Hnum Hstr Harr Hobj x)
                  (all l')
            end) items)
  | VObj props =>
      Hobj props
        ((fix all (l : list (string * value)) : Forall (fun kv => P (snd kv)) l :=
            match l with
            | [] => Forall_nil _
            | kv :: l' =>
                Forall_cons kv
                  (value_nested_ind P Hundefined Hnull Hbool Hnum Hstr Harr Hobj (snd kv))
                  (all l')
            end) props)
  end.

(** A mapping as the parser builds it for a catalogue with plain keys: at
    every level of nested mappings the keys are distinct, not empty and
    without a dot. *)
Fixpoint clean_keys (v : value) : Prop :=
  match v with
  | VObj props =>
      NoDup (map fst props)
      /\ (fix all (l : list (string * value)) : Prop :=
            match l with
            | [] => True
            | (k, x) :: l' =>
                k <> "" /\ includes_dot k = false /\ clean_keys x /\ all l'
            end) props
  | _ => True
  end.

(** The loop of [searchInTranslations] over the entries of a mapping. *)
Fixpoint search_entries (text prefix : string) (l : list (string * value))
  : option string :=
  match l with
  | [] => None
  | (key, value) :: others =>
      match value with
      | VStr s =>
          if String.eqb s text then Some (currentKey_of prefix key)
          else search_entries text prefix others
      | VObj _ =>
          match searchInTranslations value text (currentKey_of prefix key) with
          | Some nestedResult =>
              if nonempty nestedResult then Some nestedResult
              else search_entries text prefix others
          | None => search_entries text prefix others
          end
      | _ => search_entries text prefix others
      end
  end.



(** The position reached from [st] by reading the characters [s], with
    [tl] left to read. *)
Definition after (s tl : list ascii) (st : mstate) : mstate :=
  {| before := last (map Some s) (before st);
     rest := tl;
     pos := pos st + List.length s;
     caps := caps st |}.

(** Where the call starts in the text [formatKeyCall] makes: after the
    opening brace of a template interpolation, or at once. *)
Definition offset (t : interpolation) : nat :=
  match t with template => 1 | code => 0 end.


(** What a result says about its call, read back: the result carries the
    call; a result without warning shows what the active data resolve the
    key to, a text that is not empty; a [missingLocale] result shows the
    value of the first candidate locale that has one, the active data
    having none; a [noLocale] result means that neither the active data
    nor any candidate locale has a value. *)
Definition explained (host : Host) (ls : LocaleService) (translations : value)
  (workspacePath currentLocale : string) (c : TranslationCall)
  (r : TranslationResult) : Prop :=
  call r = c
  /\ match warningType r with
     | None =>
         translationValue r = getTranslation translations (methodName c)
         /\ truthy_string (translationValue r) = true
         /\ foundInLocale r = None
     | Some missingLocale =>
         truthy_string (getTranslation translations (methodName c)) = false
         /\ exists l v pre post,
             foundInLocale r = Some l /\ translationValue r = Some v
             /\ candidates ls workspacePath currentLocale = pre ++ l :: post
             /\ Forall (fun l' => candidate_value host ls workspacePath
                                    (methodName c) l' = None) pre
             /\ candidate_value host ls workspacePath (methodName c) l = Some v
     | Some noLocale =>
         truthy_string (getTranslation translations (methodName c)) = false
         /\ translationValue r = None /\ foundInLocale r = None
         /\ Forall (fun l' => candidate_value host ls workspacePath
                                (methodName c) l' = None)
                   (candidates ls workspacePath currentLocale)
     end.

(** What an event of a resolution pass over [calls] may be: the search
    for the key of a call that the active data do not resolve, or the
    load of the file of a configured locale other than the active one. *)
Definition pass_event (ls : LocaleService) (translations : value)
  (workspacePath currentLocale : string) (calls : list TranslationCall)
  (e : event) : Prop :=
  match e with
  | SearchKeyInAllLocales k cur =>
      cur = currentLocale
      /\ truthy_string (getTranslation translations k) = false
      /\ exists c, In c calls /\ methodName c = k
  | LoadTranslations p l =>
      p = resolveTranslationPath ls workspacePath l
      /\ In l (configured_locales (loadInlangSettings ls workspacePath))
      /\ l <> currentLocale
  end.

(** What a resolution pass reads for one call.  Nothing, when the active
    data resolve the call to a text that is not empty.  Otherwise one
    search for the key of the call, followed by the loads of the candidate
    locales in their order, up to and including the first candidate that
    has a value, or of all of them when none has. *)
Definition call_reads (host : Host) (ls : LocaleService) (translations : value)
  (workspacePath currentLocale : string) (c : TranslationCall)
  (block : list event) : Prop :=
  if truthy_string (getTranslation translations (methodName c)) then block = []
  else
    exists tried,
      block = SearchKeyInAllLocales (methodName c) currentLocale
                :: map (load_event ls workspacePath) tried
      /\ ((exists pre l v post,
              candidates ls workspacePath currentLocale = pre ++ l :: post
              /\ Forall (fun l' => candidate_value host ls workspacePath
                                     (methodName c) l' = None) pre
              /\ candidate_value host ls workspacePath (methodName c) l = Some v
              /\ tried = pre ++ [l])
          \/ (Forall (fun l' => candidate_value host ls workspacePath
                                  (methodName c) l' = None)
                     (candidates ls workspacePath currentLocale)
              /\ tried = candidates ls workspacePath currentLocale)).

(** Whether the data of [locale] resolves the key [k]. *)
Definition resolves (host : Host) (ls : LocaleService)
  (workspacePath k locale : string) : bool :=
  match resolution host ls workspacePath k locale with
  | Some _ => true
  | None => false
  end.


(** The locales read off the messages directory of a project: the names
    of its [.json] files, in the order of the directory listing; none when
    the directory is absent or cannot be listed. *)
Definition detected_locales (host : Host) (projectPath : string) : list string :=
  let messagesDir := path_join host projectPath "messages" in
  if existsSync host messagesDir then
    match readdirSync host messagesDir with
    | Normal files =>
        map (fun file => path_basename host file ".json") (filter endsWith_json files)
    | Throw => []
    end
  else [].


(** [l] is [l'] with some elements left out. *)
Inductive subsequence {A : Type} : list A -> list A -> Prop :=
| subsequence_nil : subsequence [] []
| subsequence_skip (x : A) (l l' : list A) :
    subsequence l l' -> subsequence l (x :: l')
| subsequence_keep (x : A) (l l' : list A) :
    subsequence l l' -> subsequence (x :: l) (x :: l').

(** The requests among the turns, oldest first. *)
Definition requests (ts : list turn) : list PendingRefresh :=
  flat_map (fun t => match t with Refresh r => [r] | Settle _ => [] end) ts.

(** The passes started so far, followed by the request on hold, if any. *)
Definition queued (st : provider) : list PendingRefresh :=
  passes st ++ match pendingRefresh st with Some p => [p] | None => [] end.


(** The number of marks [m] in a log. *)
Definition marks (m : ProjectSelectorProvider.mark)
  (l : list ProjectSelectorProvider.mark) : nat :=
  List.length
    (filter (fun x => match m, x with
                      | ProjectSelectorProvider.Requested,
                        ProjectSelectorProvider.Requested => true
                      | ProjectSelectorProvider.Started,
                        ProjectSelectorProvider.Started => true
                      | _, _ => false
                      end) l).

(** What holds of the project selector between turns: one pass is in
    flight and the flag is up, or none is, the flag is down and nothing is
    on hold; without a request on hold, no request has been made since the
    last pass started; and the passes started, with the one on hold, are
    no more than the requests made. *)
Definition selector_invariant (st : ProjectSelectorProvider.selector) : Prop :=
  ((ProjectSelectorProvider.refreshInProgress st = true
    /\ ProjectSelectorProvider.in_flight st = 1)
   \/ (ProjectSelectorProvider.refreshInProgress st = false
       /\ ProjectSelectorProvider.in_flight st = 0
       /\ ProjectSelectorProvider.pendingRefresh st = false))
  /\ (ProjectSelectorProvider.pendingRefresh st = false ->
      last (ProjectSelectorProvider.log st) ProjectSelectorProvider.Started
      = ProjectSelectorProvider.Started)
  /\ marks ProjectSelectorProvider.Started (ProjectSelectorProvider.log st)
     + (if ProjectSelectorProvider.pendingRefresh st then 1 else 0)
     <= marks ProjectSelectorProvider.Requested (ProjectSelectorProvider.log st).


(** What a decoration shows for a call of a text, given the data of the
    active locale: it sits at the end of the call, inside the text; it
    shows the value of the active data, in grey, when that value is not
    empty; otherwise the value of the first candidate locale that has one,
    marked and in amber; otherwise the missing mark, in red. *)
Definition shows (host : Host) (ls : LocaleService) (translations : value)
  (workspacePath currentLocale text : string) (c : TranslationCall)
  (d : Editor.Decoration) : Prop :=
  Editor.offset d = end_ c
  /\ Editor.offset d <= String.length text
  /\ ((exists v,
          getTranslation translations (methodName c) = Some v /\ v <> ""
          /\ Editor.contentText d = (String dquote v ++ String dquote "")%string
          /\ Editor.color d = "#888888")
      \/ (truthy_string (getTranslation translations (methodName c)) = false
          /\ exists l v pre post,
              candidates ls workspacePath currentLocale = pre ++ l :: post
              /\ Forall (fun l' => candidate_value host ls workspacePath
                                     (methodName c) l' = None) pre
              /\ candidate_value host ls workspacePath (methodName c) l = Some v
              /\ v <> ""
              /\ Editor.contentText d
                 = (String dquote v ++ String dquote " (locales missing)")%string
              /\ Editor.color d = "#d4a574")
      \/ (truthy_string (getTranslation translations (methodName c)) = false
          /\ Forall (fun l' => candidate_value host ls workspacePath
                                 (methodName c) l' = None)
                    (candidates ls workspacePath currentLocale)
          /\ Editor.contentText d = "<missing>"
          /\ Editor.color d = "#cc6666")).


(** What holds of the debounce timers between turns: the [Map] has one
    entry per document; the handles of the armed timers are distinct and
    were given out; and the armed timers are exactly the entries of the
    [Map], each for its document. *)
Definition timers_registered {callback : Type} (st : Activator.activator callback)
  : Prop :=
  NoDup (map fst (Activator.documentUpdateTimeouts callback st))
  /\ NoDup (map fst (Activator.timers callback st))
  /\ (forall h p, In (h, p) (Activator.timers callback st) ->
                  h < Activator.next callback st)
  /\ (forall h documentUri cb,
        In (h, (documentUri, cb)) (Activator.timers callback st) ->
        In (documentUri, h) (Activator.documentUpdateTimeouts callback st))
  /\ (forall documentUri h,
        In (documentUri, h) (Activator.documentUpdateTimeouts callback st) ->
        exists cb, In (h, (documentUri, cb)) (Activator.timers callback st)).


(** A text without white space at either end. *)
Definition trimmed (s : list ascii) : Prop :=
  match s with
  | [] => True
  | c :: _ => is_space c = false /\ is_space (last s c) = false
  end.


(** No [null] stands on the way along [keys] from a mapping: the walk of
    [setNestedValue] passes (a value that is not a mapping is replaced on
    the way, and what lies below a replaced value is new). *)
Fixpoint passable (current : list (string * value)) (keys : list string) : Prop :=
  match keys with
  | [] => True
  | key :: others =>
      match assoc key current with
      | Some (VObj child) => passable child others
      | Some VNull => False
      | _ => True
      end
  end.


(** The text occurs in a mapping: as the value of one of its keys, or in
    a mapping that is the value of one of its keys. *)
Inductive occurs (text : string) : value -> Prop :=
| occurs_here (props : list (string * value)) (k : string) :
    In (k, VStr text) props -> occurs text (VObj props)
| occurs_below (props child : list (string * value)) (k : string) :
    In (k, VObj child) props -> occurs text (VObj child) ->
    occurs text (VObj props).

(* ===================================================================== *)
(** * Properties *)
(* ===================================================================== *)

(** ** Settled computations *)

Lemma bind_normal {A B : Type} (m : M A) (f : A -> M B) (a : A) :
  snd m = Normal a -> bind m f = (fst m ++ fst (f a), snd (f a)).
Proof. intros H. unfold bind. now rewrite H. Qed.

Lemma bind_throw {A B : Type} (m : M A) (f : A -> M B) :
  snd m = Throw -> bind m f = (fst m, Throw).
Proof. intros H. unfold bind. now rewrite H. Qed.

Lemma try_catch_normal {A : Type} (m handler : M A) (a : A) :
  snd handler = Normal a -> exists b, snd (try_catch m handler) = Normal b.
Proof.
  intros H. unfold try_catch. destruct (snd m) as [b|] eqn:E.
  - exists b. exact E.
  - exists a. exact H.
Qed.

(** ** The repository *)

Lemma loadTranslations_settles (host : Host) (translationFilePath locale : string) :
  TranslationRepository.loadTranslations host translationFilePath locale
  = ([LoadTranslations translationFilePath locale],
     Normal (loaded host translationFilePath)).
Proof.
  unfold TranslationRepository.loadTranslations, loaded.
  destruct (existsSync host translationFilePath); [|reflexivity].
  destruct (readFileSync host translationFilePath) as [c|]; [|reflexivity].
  unfold bind, try_catch, lift, emit, ret; cbn.
  destruct (JSON_parse host c) as [v|]; [|reflexivity].
  destruct v; reflexivity.
Qed.

Lemma loadTranslationsForLocale_settles (host : Host) (ls : LocaleService)
  (workspacePath locale : string) :
  loadTranslationsForLocale host ls workspacePath locale
  = ([LoadTranslations (resolveTranslationPath ls workspacePath locale) locale],
     Normal (loaded host (resolveTranslationPath ls workspacePath locale))).
Proof. apply loadTranslations_settles. Qed.

(** C8, as the code has it: [loadTranslations] never raises; it returns
    [null] when the file is absent, when reading it fails, when its content
    is not well-formed (the parser raises) and when the content is the
    literal [null]; any other well-formed content is returned as parsed,
    whatever its top-level shape (mapping, array, string, number,
    boolean). *)
Theorem loadTranslations_null_or_parsed :
  forall (host : Host) (translationFilePath locale : string),
    (exists v, snd (TranslationRepository.loadTranslations host translationFilePath locale) = Normal v)
    /\ (existsSync host translationFilePath = false ->
        snd (TranslationRepository.loadTranslations host translationFilePath locale) = Normal VNull)
    /\ (readFileSync host translationFilePath = Throw ->
        snd (TranslationRepository.loadTranslations host translationFilePath locale) = Normal VNull)
    /\ (forall fileContent,
          readFileSync host translationFilePath = Normal fileContent ->
          JSON_parse host fileContent = Throw ->
          snd (TranslationRepository.loadTranslations host translationFilePath locale) = Normal VNull)
    /\ (forall fileContent translations,
          existsSync host translationFilePath = true ->
          readFileSync host translationFilePath = Normal fileContent ->
          JSON_parse host fileContent = Normal translations ->
          snd (TranslationRepository.loadTranslations host translationFilePath locale)
          = Normal (match translations with
                    | VUndefined | VNull => VNull
                    | _ => translations
                    end)).
Proof.
  intros host f locale. rewrite loadTranslations_settles. simpl.
  unfold loaded. repeat split.
  - eexists. reflexivity.
  - intros ->. reflexivity.
  - intros ->. now destruct (existsSync host f).
  - intros c -> ->. now destruct (existsSync host f).
  - intros c v -> -> ->. now destruct v.
Qed.

(** The malformed English file of [broken_host] loads as [null]. *)
Lemma loadTranslations_null_or_parsed_witness :
  snd (TranslationRepository.loadTranslations broken_host "/w/messages/en.json" "en")
  = Normal VNull.
Proof.
  apply (proj1 (proj2 (proj2 (proj2
          (loadTranslations_null_or_parsed broken_host "/w/messages/en.json" "en")))) "{");
    reflexivity.
Defined.

(** C8 as stated fails: the English file of [array_host] exists, is
    well-formed, and holds an array where a mapping is expected; it is
    returned, not [null]. *)
Lemma loadTranslations_wrong_shape_counterexample :
  existsSync array_host "/w/messages/en.json" = true
  /\ readFileSync array_host "/w/messages/en.json" = Normal "[]"
  /\ JSON_parse array_host "[]" = Normal (VArr [])
  /\ snd (TranslationRepository.loadTranslations array_host "/w/messages/en.json" "en")
     = Normal (VArr [])
  /\ snd (TranslationRepository.loadTranslations array_host "/w/messages/en.json" "en")
     <> Normal VNull.
Proof. repeat split; try reflexivity. discriminate. Qed.

(** ** The key resolver *)

Lemma includes_dot_app (a b : string) :
  includes_dot (a ++ b)%string = includes_dot a || includes_dot b.
Proof.
  induction a as [|c a IH]; simpl; [reflexivity|].
  rewrite IH. now rewrite orb_assoc.
Qed.

Lemma split_dot_from_segments (s cur : string) :
  includes_dot cur = false ->
  Forall (fun seg => includes_dot seg = false) (split_dot_from cur s).
Proof.
  revert cur. induction s as [|c s IH]; intros cur Hcur; simpl.
  - constructor; [exact Hcur | constructor].
  - destruct (Ascii.eqb c ".") eqn:E.
    + constructor; [exact Hcur | now apply IH].
    + apply IH. rewrite includes_dot_app, Hcur. simpl. now rewrite E.
Qed.

Lemma split_dot_segments (key : string) :
  Forall (fun seg => includes_dot seg = false) (split_dot key).
Proof. now apply split_dot_from_segments. Qed.

Lemma split_dot_from_cons (s cur : string) :
  exists seg segs, split_dot_from cur s = seg :: segs.
Proof.
  revert cur. induction s as [|c s IH]; intros cur; simpl.
  - now exists cur, [].
  - destruct (Ascii.eqb c "."); [now eexists _, _ | apply IH].
Qed.

Lemma descend_undefined (segs : list string) :
  fold_left nested_step segs VUndefined = VUndefined.
Proof. induction segs as [|s segs IH]; simpl; [reflexivity | exact IH]. Qed.

(** Below a value that is neither a mapping nor a list, every further
    segment reads [undefined]. *)
Lemma descend_blocked (v : value) (segs : list string) :
  match v with VObj _ | VArr _ => False | _ => True end ->
  segs <> [] ->
  fold_left nested_step segs v = VUndefined.
Proof.
  intros Hv Hsegs. destruct segs as [|s segs]; [contradiction|]. simpl.
  replace (nested_step v s) with VUndefined; [apply descend_undefined|].
  unfold nested_step.
  destruct v; try contradiction; simpl; now rewrite ?andb_false_r.
Qed.

Lemma assoc_skip (k k' : string) (v : value) (before after : list (string * value)) :
  k <> k' ->
  assoc k (before ++ (k', v) :: after) = assoc k (before ++ after).
Proof.
  intros Hk. induction before as [|[k0 v0] before IH]; simpl.
  - destruct (String.eqb_spec k k'); [contradiction | reflexivity].
  - now rewrite IH.
Qed.

Lemma lookup_key_array_truthy (data : value) (key : string) (items : list value) :
  lookup_key data key = VArr items -> truthy data = true.
Proof.
  unfold lookup_key, getNestedValue. intros H.
  destruct (truthy data) eqn:T; [reflexivity|exfalso].
  destruct (includes_dot key).
  - destruct (split_dot_from_cons key "") as (seg & segs & E).
    unfold split_dot in H. rewrite E in H. simpl in H.
    unfold nested_step in H at 2. rewrite T in H. simpl in H.
    rewrite descend_undefined in H. discriminate.
  - destruct data; try discriminate; simpl in *.
    destruct s; [|discriminate]. simpl in H.
    destruct (String.eqb key "length"); [discriminate|].
    destruct (array_index key) as [i|]; [|discriminate].
    unfold char_at in H. destruct i; discriminate.
Qed.

Lemma variant_taken (fields : list (string * value)) (others : list value)
  (m v : value) (vs : list value) (text : string) :
  assoc "match" fields = Some m -> truthy m = true ->
  Object_values m = v :: vs -> String_ v = Normal text ->
  processParaglideVariant (VArr (VObj fields :: others)) = Some text.
Proof.
  intros Hm Ht Hv Hs. unfold processParaglideVariant.
  cbn [truthy typeof_object negb orb get]. rewrite Hm, Ht, Hv, Hs. reflexivity.
Qed.

Lemma variant_taken_inv (items : list value) (text : string) :
  processParaglideVariant (VArr items) = Some text ->
  exists fields others m v vs,
    items = VObj fields :: others
    /\ assoc "match" fields = Some m /\ truthy m = true
    /\ Object_values m = v :: vs /\ String_ v = Normal text.
Proof.
  unfold processParaglideVariant. destruct items as [|first others]; [discriminate|].
  destruct first as [| |b|repr|s|l|fields]; cbn [truthy typeof_object negb orb];
    try discriminate.
  - now destruct b.
  - now destruct (negb (String.eqb repr "0")).
  - now destruct (nonempty s).
  - cbn [get]. destruct (assoc "match" fields) as [m|] eqn:Hm; [|discriminate].
    destruct (truthy m) eqn:Ht; [|discriminate]. cbn [negb].
    destruct (Object_values m) as [|v vs] eqn:Hv; [discriminate|].
    destruct (String_ v) as [s|] eqn:Hs; [|discriminate].
    intros H. injection H as <-. exists fields, others, m, v, vs. auto.
Qed.

Lemma variant_not_taken (first : value) (others : list value) :
  no_usable_match first <->
  match processParaglideVariant (VArr (first :: others)) with
  | Some variantValue => variantValue = ""
  | None => True
  end.
Proof.
  split.
  - intros H. unfold processParaglideVariant.
    destruct H as [v Hv | fields Hm | fields m Hm Ht | fields m Hm Hv
                  | fields m v vs Hm Hv Hs | fields m v vs Hm Hv Hs].
    + destruct v; try contradiction; cbn [truthy typeof_object negb orb]; try exact I.
      * now destruct b.
      * now destruct (negb (String.eqb repr "0")).
      * now destruct (nonempty s).
    + cbn [truthy typeof_object negb orb get]. now rewrite Hm.
    + cbn [truthy typeof_object negb orb get]. now rewrite Hm, Ht.
    + cbn [truthy typeof_object negb orb get]. rewrite Hm, Hv.
      now destruct (negb (truthy m)).
    + cbn [truthy typeof_object negb orb get]. rewrite Hm, Hv, Hs.
      now destruct (negb (truthy m)).
    + cbn [truthy typeof_object negb orb get]. rewrite Hm, Hv, Hs.
      now destruct (negb (truthy m)).
  - destruct first as [| |b|repr|s|l|fields];
      try (intros _; now apply not_a_record).
    destruct (assoc "match" fields) as [m|] eqn:Hm;
      [|intros _; now apply match_missing].
    destruct (truthy m) eqn:Ht; [|intros _; now apply (match_falsy fields m)].
    destruct (Object_values m) as [|v vs] eqn:Hv;
      [intros _; now apply (match_empty fields m)|].
    destruct (String_ v) as [text|] eqn:Hs;
      [|intros _; now apply (match_unprintable fields m v vs)].
    rewrite (variant_taken fields others m v vs text Hm Ht Hv Hs).
    intros ->. now apply (match_blank fields m v vs).
Qed.

(** C5: what a list leaf resolves to.  The resolver looks at the first
    element of the list only.  When that element is a mapping whose [match]
    entry is truthy and has values, and the first of these values converts
    to a text that is not empty, the result is that text followed by
    exactly one asterisk, whatever the other elements and the other values
    hold: a string value is taken as it is, any other value in its
    conversion to text.  In every other case of a list leaf (the empty
    list, and a first element with no usable match value) and for a number
    or a boolean the result is [null]. *)
Theorem variant_leaf_first_match :
  forall (data : value) (key : string),
    (forall fields others k v more,
        lookup_key data key = VArr (VObj fields :: others) ->
        assoc "match" fields = Some (VObj ((k, VStr v) :: more)) ->
        v <> "" ->
        getTranslation data key = Some (v ++ "*")%string)
    /\ (forall fields others m v vs text,
          lookup_key data key = VArr (VObj fields :: others) ->
          assoc "match" fields = Some m -> truthy m = true ->
          Object_values m = v :: vs ->
          String_ v = Normal text -> text <> "" ->
          getTranslation data key = Some (text ++ "*")%string)
    /\ (forall items r,
          lookup_key data key = VArr items ->
          getTranslation data key = Some r ->
          exists fields others m v vs text,
            items = VObj fields :: others
            /\ assoc "match" fields = Some m /\ truthy m = true
            /\ Object_values m = v :: vs
            /\ String_ v = Normal text /\ text <> ""
            /\ r = (text ++ "*")%string)
    /\ (forall repr, lookup_key data key = VNum repr -> getTranslation data key = None)
    /\ (forall b, lookup_key data key = VBool b -> getTranslation data key = None)
    /\ (lookup_key data key = VArr [] -> getTranslation data key = None)
    /\ (forall first others,
          lookup_key data key = VArr (first :: others) ->
          (getTranslation data key = None <-> no_usable_match first)).
Proof.
  intros data key.
  assert (Htaken : forall fields others m v vs text,
             lookup_key data key = VArr (VObj fields :: others) ->
             assoc "match" fields = Some m -> truthy m = true ->
             Object_values m = v :: vs ->
             String_ v = Normal text -> text <> "" ->
             getTranslation data key = Some (text ++ "*")%string).
  { intros fields others m v vs text Hleaf Hm Ht Hv Hs Hne. unfold getTranslation.
    rewrite (lookup_key_array_truthy _ _ _ Hleaf), Hleaf. cbn [negb].
    rewrite (variant_taken fields others m v vs text Hm Ht Hv Hs).
    destruct text; [contradiction | reflexivity]. }
  split; [|split; [exact Htaken|]].
  { intros fields others k v more Hleaf Hm Hv.
    now apply (Htaken fields others (VObj ((k, VStr v) :: more)) (VStr v) (map snd more) v). }
  unfold getTranslation. split; [|split; [|split; [|split]]].
  - intros items r Hleaf.
    rewrite (lookup_key_array_truthy _ _ _ Hleaf), Hleaf. cbn [negb].
    destruct (processParaglideVariant (VArr items)) as [text|] eqn:E; [|discriminate].
    destruct (nonempty text) eqn:N; [|discriminate].
    intros H. injection H as <-.
    destruct (variant_taken_inv items text E) as (fields & others & m & v & vs & H).
    exists fields, others, m, v, vs, text. intuition auto. subst text. discriminate.
  - intros repr ->. now destruct (negb (truthy data)).
  - intros b ->. now destruct (negb (truthy data)).
  - intros ->. now destruct (negb (truthy data)).
  - intros first others Hleaf.
    rewrite (lookup_key_array_truthy _ _ _ Hleaf), Hleaf. cbn [negb].
    rewrite (variant_not_taken first others).
    destruct (processParaglideVariant (VArr (first :: others))) as [text|].
    + destruct text; simpl; split; intros H; congruence.
    + split; auto.
Qed.

(** The greeting of [variant_data] resolves to the marked first variant. *)
Lemma variant_leaf_first_match_witness :
  getTranslation variant_data "greeting" = Some "Hi*".
Proof.
  apply (proj1 (variant_leaf_first_match variant_data "greeting")
           [("match", VObj [("x", VStr "Hi")])]
           [VObj [("match", VObj [("x", VStr "Yo")])]] "x" "Hi" []);
    [reflexivity | reflexivity | discriminate].
Defined.

(** C5 as stated fails: a first match value that is no string is not
    dropped but converted to text and marked, and a [match] entry that is a
    string gives its first character. *)
Lemma variant_leaf_coerced_counterexample :
  getTranslation (variant_of (VObj [("x", VNull)])) "greeting" = Some "null*"
  /\ getTranslation (variant_of (VObj [("x", VBool false)])) "greeting" = Some "false*"
  /\ getTranslation (variant_of (VObj [("x", VNum "0")])) "greeting" = Some "0*"
  /\ getTranslation (variant_of (VObj [("x", VObj [])])) "greeting"
     = Some "[object Object]*"
  /\ getTranslation (variant_of (VStr "Hi")) "greeting" = Some "H*".
Proof. repeat split. Qed.

Lemma dotted_first_segment (key : string) :
  includes_dot key = true ->
  exists seg segs, split_dot key = seg :: segs /\ seg <> key.
Proof.
  intros Hdot. destruct (split_dot_from_cons key "") as (seg & segs & E).
  exists seg, segs. split; [exact E|].
  pose proof (split_dot_segments key) as F. unfold split_dot in F.
  rewrite E in F. inversion F as [|? ? Hseg _]; subst.
  intros ->. congruence.
Qed.

(** C6, as the code has it.  For a key with a dot the resolver descends
    segment by segment: if the value reached before the last segment is
    absent or is neither a mapping nor a list, the result is [null]
    (a list is descended into by element index); an entry stored under
    the whole dotted key at the top level is never consulted.  For a key
    without a dot the value inspected is the single top-level read. *)
Theorem dotted_key_descends :
  forall (data : value) (key : string),
    (includes_dot key = true ->
     lookup_key data key = fold_left nested_step (split_dot key) data
     /\ (forall pre post,
           split_dot key = pre ++ post -> post <> [] ->
           match fold_left nested_step pre data with
           | VObj _ | VArr _ => False
           | _ => True
           end ->
           getTranslation data key = None)
     /\ (forall before after v,
           getTranslation (VObj (before ++ (key, v) :: after)) key
           = getTranslation (VObj (before ++ after)) key))
    /\ (includes_dot key = false -> lookup_key data key = get data key).
Proof.
  intros data key. split.
  - intros Hdot. repeat split.
    + unfold lookup_key, getNestedValue. now rewrite Hdot.
    + intros pre post Hsplit Hpost Hblocked.
      unfold getTranslation, lookup_key, getNestedValue.
      rewrite Hdot, Hsplit, fold_left_app, (descend_blocked _ _ Hblocked Hpost).
      now destruct (negb (truthy data)).
    + intros before after v.
      unfold getTranslation, lookup_key, getNestedValue. rewrite Hdot.
      destruct (dotted_first_segment key Hdot) as (seg & segs & E & Hneq).
      rewrite E. simpl. unfold nested_step at 2 4. simpl.
      now rewrite (assoc_skip seg key v before after Hneq).
  - intros Hflat. unfold lookup_key. now rewrite Hflat.
Qed.

(** In [login_data] the path [login.missing.email] stops at the absent
    segment [missing]. *)
Lemma dotted_key_descends_witness :
  getTranslation login_data "login.missing.email" = None.
Proof.
  apply (proj1 (proj2 (proj1 (dotted_key_descends login_data "login.missing.email")
                         eq_refl))
           ["login"; "missing"] ["email"]);
    [reflexivity | discriminate | exact I].
Defined.

(** C6 as stated fails: in [variant_data] the key [greeting.0.match.x]
    passes through [greeting], whose value is a variant list and not a
    mapping, and still resolves. *)
Lemma dotted_key_through_list_counterexample :
  includes_dot "greeting.0.match.x" = true
  /\ split_dot "greeting.0.match.x" = ["greeting"; "0"; "match"; "x"]
  /\ fold_left nested_step ["greeting"] variant_data
     = VArr [VObj [("match", VObj [("x", VStr "Hi")])];
             VObj [("match", VObj [("x", VStr "Yo")])]]
  /\ getTranslation variant_data "greeting.0.match.x" = Some "Hi"
  /\ getTranslation variant_data "greeting.0.match.x" <> None.
Proof. repeat split; try reflexivity. discriminate. Qed.

Example resolve_nested :
  getTranslation login_data "login.inputs.email" = Some "Email"
  /\ getTranslation login_data "login.inputs.missing" = None
  /\ getTranslation (VObj [("a.b", VStr "flat")]) "a.b" = None.
Proof. repeat split; reflexivity. Qed.

(** ** The scanner *)

Lemma insert_by_start_perm (c : TranslationCall) (l : list TranslationCall) :
  Permutation (c :: l) (insert_by_start c l).
Proof.
  induction l as [|d l IH]; simpl; [apply Permutation_refl|].
  destruct (start c <=? start d); [apply Permutation_refl|].
  eapply perm_trans; [apply perm_swap | now apply perm_skip].
Qed.

Lemma sort_by_start_perm (l : list TranslationCall) :
  Permutation l (sort_by_start l).
Proof.
  induction l as [|c l IH]; simpl; [constructor|].
  eapply perm_trans; [apply perm_skip, IH | apply insert_by_start_perm].
Qed.

Lemma insert_by_start_sorted (c : TranslationCall) (l : list TranslationCall) :
  StronglySorted by_start l -> StronglySorted by_start (insert_by_start c l).
Proof.
  induction l as [|d l IH]; intros Hs; simpl.
  - repeat constructor.
  - inversion Hs as [|? ? Hl Hd]; subst.
    destruct (Nat.leb_spec (start c) (start d)) as [Hle|Hlt].
    + constructor; [exact Hs|].
      constructor; [exact Hle|].
      eapply Forall_impl; [|exact Hd]. unfold by_start. intros; lia.
    + constructor; [now apply IH|].
      eapply Permutation_Forall; [apply insert_by_start_perm|].
      constructor; [unfold by_start; lia | exact Hd].
Qed.

Lemma sort_by_start_sorted (l : list TranslationCall) :
  StronglySorted by_start (sort_by_start l).
Proof.
  induction l as [|c l IH]; simpl; [constructor | now apply insert_by_start_sorted].
Qed.

(** Inserting [c] moves it past calls that start strictly earlier only, so
    among the calls that start at one offset the order is kept. *)
Lemma insert_by_start_stable (o : nat) (c : TranslationCall) (l : list TranslationCall) :
  filter (starts_at o) (insert_by_start c l) = filter (starts_at o) (c :: l).
Proof.
  induction l as [|d l IH]; simpl; [reflexivity|].
  destruct (Nat.leb_spec (start c) (start d)) as [Hle|Hlt]; [reflexivity|].
  simpl. rewrite IH. simpl. unfold starts_at.
  destruct (Nat.eqb_spec (start c) o), (Nat.eqb_spec (start d) o);
    try reflexivity; lia.
Qed.

Lemma sort_by_start_stable (o : nat) (l : list TranslationCall) :
  filter (starts_at o) (sort_by_start l) = filter (starts_at o) l.
Proof.
  induction l as [|c l IH]; simpl; [reflexivity|].
  rewrite insert_by_start_stable. simpl. now rewrite IH.
Qed.

(** C7: the calls come back in ascending order of [start]; they are the
    flat matches and the nested matches, nothing lost or added (none when
    neither pattern matches); and among calls that start at the same
    offset the order of discovery is kept, flat matches first. *)
Theorem findTranslationCalls_sorted :
  forall (text : string),
    StronglySorted by_start (findTranslationCalls text)
    /\ Permutation
         (map flat_call (matches flatPattern text)
          ++ map nested_call (matches nestedPattern text))
         (findTranslationCalls text)
    /\ (forall o,
          filter (starts_at o) (findTranslationCalls text)
          = filter (starts_at o) (map flat_call (matches flatPattern text))
            ++ filter (starts_at o) (map nested_call (matches nestedPattern text)))
    /\ (matches flatPattern text = [] -> matches nestedPattern text = [] ->
        findTranslationCalls text = []).
Proof.
  intros text. unfold findTranslationCalls. repeat split.
  - apply sort_by_start_sorted.
  - apply sort_by_start_perm.
  - intros o. now rewrite sort_by_start_stable, filter_app.
  - intros -> ->. reflexivity.
Qed.

(** A text without any call scans to the empty sequence. *)
Lemma findTranslationCalls_sorted_witness :
  findTranslationCalls "const n = items.length;" = [].
Proof.
  apply (proj2 (proj2 (proj2 (findTranslationCalls_sorted "const n = items.length;"))));
    reflexivity.
Defined.

Example scan_two_shapes :
  findTranslationCalls "t(m['login.email'](), m.greeting( name ))"
  = [ {| methodName := "login.email"; params := ""; start := 2; end_ := 20;
         keyType_ := nested |};
      {| methodName := "greeting"; params := "name"; start := 22; end_ := 40;
         keyType_ := flat |} ].
Proof. reflexivity. Qed.

(** ** The fallback search *)

Section Fallback.
Variable host : Host.
Variable ls : LocaleService.
Variables workspacePath key currentLocale : string.

Lemma getTranslation_falsy (translations : value) (k : string) :
  truthy translations = false -> getTranslation translations k = None.
Proof. intros H. unfold getTranslation. now rewrite H. Qed.

Lemma search_locales_first_hit (availableLocales : list string) :
  search_locales host ls workspacePath key currentLocale availableLocales
  = (fst (first_hit host ls workspacePath key
              (filter (fun l => negb (String.eqb l currentLocale))
                      availableLocales)),
     Normal (snd (first_hit host ls workspacePath key
                    (filter (fun l => negb (String.eqb l currentLocale))
                            availableLocales)))).
Proof.
  induction availableLocales as [|l others IH]; simpl; [reflexivity|].
  destruct (String.eqb l currentLocale); simpl; [exact IH|].
  rewrite loadTranslationsForLocale_settles.
  unfold bind; cbn [fst snd]. unfold candidate_value.
  set (t := loaded host (resolveTranslationPath ls workspacePath l)).
  destruct (truthy t) eqn:T.
  - destruct (getTranslation t key) as [v|].
    + destruct (nonempty v); [reflexivity|]. now rewrite IH.
    + now rewrite IH.
  - rewrite (getTranslation_falsy t key T). now rewrite IH.
Qed.

Lemma searchKeyInAllLocales_settles :
  searchKeyInAllLocales host ls workspacePath key currentLocale
  = (SearchKeyInAllLocales key currentLocale :: fst (first_hit host ls workspacePath key (candidates ls workspacePath currentLocale)),
     Normal (snd (first_hit host ls workspacePath key (candidates ls workspacePath currentLocale)))).
Proof.
  unfold searchKeyInAllLocales. rewrite search_locales_first_hit.
  reflexivity.
Qed.

Lemma first_hit_found (pre post : list string) (l v : string) :
  Forall (fun l' => candidate_value host ls workspacePath key l' = None) pre ->
  candidate_value host ls workspacePath key l = Some v ->
  first_hit host ls workspacePath key (pre ++ l :: post)
  = (map (load_event ls workspacePath) (pre ++ [l]), Some {| translation := v; locale := l |}).
Proof.
  intros Hpre Hl. induction Hpre as [|l' pre Hl' _ IH]; simpl.
  - now rewrite Hl.
  - now rewrite Hl', IH.
Qed.

Lemma first_hit_none (cands : list string) :
  Forall (fun l' => candidate_value host ls workspacePath key l' = None) cands ->
  first_hit host ls workspacePath key cands = (map (load_event ls workspacePath) cands, None).
Proof.
  intros H. induction H as [|l cands Hl _ IH]; simpl; [reflexivity|].
  now rewrite Hl, IH.
Qed.

Lemma first_hit_none_inv (cands : list string) :
  snd (first_hit host ls workspacePath key cands) = None ->
  Forall (fun l' => candidate_value host ls workspacePath key l' = None) cands.
Proof.
  induction cands as [|l cands IH]; simpl; [constructor|].
  destruct (candidate_value host ls workspacePath key l) eqn:E; [discriminate|].
  intros H. constructor; [exact E | now apply IH].
Qed.

Lemma first_hit_some (cands : list string) (found : SearchResult) :
  snd (first_hit host ls workspacePath key cands) = Some found ->
  In (locale found) cands
  /\ candidate_value host ls workspacePath key (locale found) = Some (translation found).
Proof.
  induction cands as [|l cands IH]; simpl; [discriminate|].
  destruct (candidate_value host ls workspacePath key l) eqn:E; simpl.
  - intros H. injection H as <-. simpl. auto.
  - intros H. destruct (IH H). auto.
Qed.

Lemma first_hit_loads (cands : list string) (e : event) :
  In e (fst (first_hit host ls workspacePath key cands)) -> exists l, e = load_event ls workspacePath l.
Proof.
  induction cands as [|l cands IH]; simpl; [contradiction|].
  destruct (candidate_value host ls workspacePath key l); simpl.
  - intros [<-|[]]. now exists l.
  - intros [<-|H]; [now exists l | now apply IH].
Qed.

Lemma candidates_not_current (l : string) :
  In l (candidates ls workspacePath currentLocale) -> l <> currentLocale.
Proof.
  unfold candidates. rewrite filter_In. intros [_ H] ->.
  now rewrite String.eqb_refl in H.
Qed.

Lemma candidate_value_nonempty (l v : string) :
  candidate_value host ls workspacePath key l = Some v -> v <> "".
Proof.
  unfold candidate_value.
  destruct (getTranslation _ key) as [w|]; [|discriminate].
  destruct w; simpl; [discriminate|]. intros H. injection H as <-. discriminate.
Qed.

End Fallback.

(** C4, as the code has it.  The search goes through the configured
    locales in their declared order, the excluded locale left out; it
    returns the first locale whose data loads and resolves the key to a
    text that is not empty, together with that text, and loads no locale
    after it; a locale whose file is absent or not well-formed, or whose
    value for the key is missing or empty, counts as having no value and
    the search goes on; the result is [null] exactly when no candidate has
    a value. *)
Theorem searchKeyInAllLocales_first_usable :
  forall (host : Host) (ls : LocaleService) (workspacePath key currentLocale : string),
    (forall pre l post v,
        candidates ls workspacePath currentLocale = pre ++ l :: post ->
        Forall (fun l' => candidate_value host ls workspacePath key l' = None) pre ->
        candidate_value host ls workspacePath key l = Some v ->
        searchKeyInAllLocales host ls workspacePath key currentLocale
        = (SearchKeyInAllLocales key currentLocale
             :: map (load_event ls workspacePath) (pre ++ [l]),
           Normal (Some {| translation := v; locale := l |})))
    /\ (Forall (fun l' => candidate_value host ls workspacePath key l' = None)
               (candidates ls workspacePath currentLocale) ->
        searchKeyInAllLocales host ls workspacePath key currentLocale
        = (SearchKeyInAllLocales key currentLocale
             :: map (load_event ls workspacePath)
                    (candidates ls workspacePath currentLocale),
           Normal None))
    /\ (forall l,
          loaded host (resolveTranslationPath ls workspacePath l) = VNull ->
          candidate_value host ls workspacePath key l = None)
    /\ (snd (searchKeyInAllLocales host ls workspacePath key currentLocale) = Normal None ->
        Forall (fun l' => candidate_value host ls workspacePath key l' = None)
               (candidates ls workspacePath currentLocale)).
Proof.
  intros host ls ws key cur. repeat split.
  - intros pre l post v Hc Hpre Hl.
    rewrite searchKeyInAllLocales_settles, Hc.
    now rewrite (first_hit_found host ls ws key pre post l v Hpre Hl).
  - intros Hall. rewrite searchKeyInAllLocales_settles.
    now rewrite (first_hit_none host ls ws key _ Hall).
  - intros l Hl. unfold candidate_value. now rewrite Hl.
  - rewrite searchKeyInAllLocales_settles. simpl. intros H.
    apply first_hit_none_inv. congruence.
Qed.

(** In [three_host], searching [greeting] with English excluded finds the
    German value after passing the French file. *)
Lemma searchKeyInAllLocales_first_usable_witness :
  searchKeyInAllLocales three_host (sample_locales "en" ["en"; "fr"; "de"])
    "/w" "greeting" "en"
  = ([SearchKeyInAllLocales "greeting" "en";
      LoadTranslations "/w/messages/fr.json" "fr";
      LoadTranslations "/w/messages/de.json" "de"],
     Normal (Some {| translation := "Hallo"; locale := "de" |})).
Proof.
  apply (proj1 (searchKeyInAllLocales_first_usable three_host
                  (sample_locales "en" ["en"; "fr"; "de"]) "/w" "greeting" "en")
           ["fr"] "de" [] "Hallo");
    [reflexivity | repeat constructor | reflexivity].
Defined.

(** C4 as stated fails: in [three_host] the French file loads and resolves
    [greeting] (to the empty text, which the resolver returns as it
    stands), it comes before German in the declared order, and yet the
    search returns the German pair. *)
Lemma searchKeyInAllLocales_blank_counterexample :
  candidates (sample_locales "en" ["en"; "fr"; "de"]) "/w" "en" = ["fr"; "de"]
  /\ loaded three_host "/w/messages/fr.json" = blank_data
  /\ getTranslation blank_data "greeting" = Some ""
  /\ snd (searchKeyInAllLocales three_host (sample_locales "en" ["en"; "fr"; "de"])
            "/w" "greeting" "en")
     = Normal (Some {| translation := "Hallo"; locale := "de" |})
  /\ snd (searchKeyInAllLocales three_host (sample_locales "en" ["en"; "fr"; "de"])
            "/w" "greeting" "en")
     <> Normal (Some {| translation := ""; locale := "fr" |}).
Proof. repeat split; try reflexivity. discriminate. Qed.

(** ** The resolution pipeline *)

Section Pipeline.
Variable host : Host.
Variable ls : LocaleService.
Variable translations : value.
Variables workspacePath currentLocale : string.

Let process := process_call host ls translations workspacePath currentLocale.

Lemma process_call_resolved (c : TranslationCall) (s : string) :
  getTranslation translations (methodName c) = Some s -> s <> "" ->
  process c
  = ([], Normal {| call := c; translationValue := Some s;
                   warningType := None; foundInLocale := None |}).
Proof.
  intros H Hs. unfold process, process_call. rewrite H. simpl.
  destruct s; [contradiction | reflexivity].
Qed.

Lemma process_call_searched (c : TranslationCall) :
  truthy_string (getTranslation translations (methodName c)) = false ->
  process c
  = (SearchKeyInAllLocales (methodName c) currentLocale
       :: fst (first_hit host ls workspacePath (methodName c)
                 (candidates ls workspacePath currentLocale)),
     Normal
       match snd (first_hit host ls workspacePath (methodName c)
                    (candidates ls workspacePath currentLocale)) with
       | Some found =>
           {| call := c; translationValue := Some (translation found);
              warningType := Some missingLocale;
              foundInLocale := Some (locale found) |}
       | None =>
           {| call := c; translationValue := None;
              warningType := Some noLocale; foundInLocale := None |}
       end).
Proof.
  intros H. unfold process, process_call. rewrite H.
  rewrite searchKeyInAllLocales_settles. unfold bind; cbn [fst snd].
  destruct (snd (first_hit _ _ _ _ _)); simpl; now rewrite app_nil_r.
Qed.

Lemma process_call_normal (c : TranslationCall) :
  exists r, snd (process c) = Normal r.
Proof.
  destruct (truthy_string (getTranslation translations (methodName c))) eqn:T.
  - destruct (getTranslation translations (methodName c)) as [s|] eqn:E;
      [|discriminate].
    rewrite (process_call_resolved c s E); [eexists; reflexivity|].
    intros ->. discriminate.
  - rewrite (process_call_searched c T). eexists; reflexivity.
Qed.

(** The loop pushes one result per call, in order, and its events are
    those of the calls, in order. *)
Lemma process_calls_spec (calls : list TranslationCall) :
  forall acc, exists rs,
    snd (process_calls host ls translations workspacePath currentLocale calls acc)
    = Normal (acc ++ rs)
    /\ Forall2 (fun c r => snd (process c) = Normal r) calls rs
    /\ fst (process_calls host ls translations workspacePath currentLocale calls acc)
       = flat_map (fun c => fst (process c)) calls.
Proof.
  induction calls as [|c calls IH]; intros acc; simpl.
  - exists []. rewrite app_nil_r. repeat split. constructor.
  - destruct (process_call_normal c) as [r Hr]. fold process.
    rewrite (bind_normal _ _ r Hr). cbn [fst snd].
    destruct (IH (acc ++ [r])) as (rs & Hrs & HF & Ht).
    exists (r :: rs). rewrite Hrs, Ht, <- app_assoc. repeat split.
    now constructor.
Qed.

Lemma search_event_unresolved (calls : list TranslationCall) (k cur : string) :
  In (SearchKeyInAllLocales k cur) (flat_map (fun c => fst (process c)) calls) ->
  truthy_string (getTranslation translations k) = false.
Proof.
  rewrite in_flat_map. intros (c & _ & Hin).
  destruct (truthy_string (getTranslation translations (methodName c))) eqn:T.
  - destruct (getTranslation translations (methodName c)) as [s|] eqn:E;
      [|discriminate].
    rewrite (process_call_resolved c s E) in Hin; [contradiction|].
    intros ->. discriminate.
  - rewrite (process_call_searched c T) in Hin. destruct Hin as [Heq|Hin].
    + injection Heq as <- _. exact T.
    + apply first_hit_loads in Hin. destruct Hin as [l Hl]. discriminate.
Qed.

Lemma process_call_well_formed (c : TranslationCall) (r : TranslationResult) :
  snd (process c) = Normal r -> well_formed_result currentLocale r.
Proof.
  destruct (truthy_string (getTranslation translations (methodName c))) eqn:T.
  - destruct (getTranslation translations (methodName c)) as [s|] eqn:E;
      [|discriminate].
    rewrite (process_call_resolved c s E); [|intros ->; discriminate].
    simpl. intros H. injection H as <-. split; simpl; discriminate.
  - rewrite (process_call_searched c T). simpl.
    destruct (snd (first_hit _ _ _ _ _)) as [found|] eqn:E;
      intros H; injection H as <-; split; simpl; try discriminate; try reflexivity.
    intros _. split; [discriminate|].
    exists (locale found). split; [reflexivity|].
    apply first_hit_some in E. destruct E as [Hin _].
    now apply candidates_not_current in Hin.
Qed.

End Pipeline.

(** C3: every result of a resolution pass is well formed: state
    Unresolved ([noLocale]) comes with a [null] value; state
    ResolvedElsewhere ([missingLocale]) comes with a value and with a
    [foundInLocale] that differs from the active locale. *)
Theorem results_well_formed :
  forall (host : Host) (ls : LocaleService) (text : string) (translations : value)
         (workspacePath currentLocale : string),
    exists results,
      snd (processTranslationCallsWithWarnings host ls (findTranslationCalls text)
             translations workspacePath currentLocale) = Normal results
      /\ List.length results = List.length (findTranslationCalls text)
      /\ Forall (well_formed_result currentLocale) results.
Proof.
  intros host ls text translations ws cur.
  unfold processTranslationCallsWithWarnings.
  destruct (process_calls_spec host ls translations ws cur
              (findTranslationCalls text) []) as (rs & Hrs & HF & _).
  exists rs. split; [exact Hrs|]. split.
  - symmetry. eapply Forall2_length. exact HF.
  - clear Hrs. induction HF as [|c r calls rs Hc _ IH]; constructor; [|exact IH].
    eapply process_call_well_formed. exact Hc.
Qed.

(** C1, as the code has it: a call whose key resolves in the active
    locale's data to a string leaf that is not empty gets state Resolved
    ([warningType] null) with that string as its value, and the fallback
    search is never run for its key. *)
Theorem resolved_in_active_locale :
  forall (host : Host) (ls : LocaleService) (text : string) (translations : value)
         (workspacePath currentLocale : string) (i : nat) (c : TranslationCall)
         (s : string),
    nth_error (findTranslationCalls text) i = Some c ->
    getTranslation translations (methodName c) = Some s ->
    s <> "" ->
    exists results,
      snd (processTranslationCallsWithWarnings host ls (findTranslationCalls text)
             translations workspacePath currentLocale) = Normal results
      /\ nth_error results i
         = Some {| call := c; translationValue := Some s;
                   warningType := None; foundInLocale := None |}
      /\ ~ In (SearchKeyInAllLocales (methodName c) currentLocale)
              (fst (processTranslationCallsWithWarnings host ls
                      (findTranslationCalls text) translations
                      workspacePath currentLocale)).
Proof.
  intros host ls text translations ws cur i c s Hi Hs Hne.
  unfold processTranslationCallsWithWarnings.
  destruct (process_calls_spec host ls translations ws cur
              (findTranslationCalls text) []) as (rs & Hrs & HF & Ht).
  exists rs. split; [exact Hrs|]. split.
  - revert i Hi. clear Hrs Ht.
    induction HF as [|c' r calls rs Hc _ IH]; intros [|i] Hi; simpl in *;
      try discriminate.
    + injection Hi as ->.
      rewrite (process_call_resolved host ls translations ws cur c s Hs Hne) in Hc.
      simpl in Hc. congruence.
    + now apply IH.
  - rewrite Ht. intros Hin.
    apply search_event_unresolved in Hin. rewrite Hs in Hin. simpl in Hin.
    destruct s; [contradiction | discriminate].
Qed.

(** In [hello_host] the call of [greeting] is resolved from the English
    data and nothing else is read. *)
Lemma resolved_in_active_locale_witness :
  exists results,
    snd (processTranslationCallsWithWarnings hello_host (sample_locales "en" ["en"; "de"])
           (findTranslationCalls "m.greeting()") hello_data "/w" "en") = Normal results
    /\ nth_error results 0
       = Some {| call := {| methodName := "greeting"; params := ""; start := 0;
                            end_ := 12; keyType_ := flat |};
                 translationValue := Some "Hello";
                 warningType := None; foundInLocale := None |}
    /\ ~ In (SearchKeyInAllLocales "greeting" "en")
            (fst (processTranslationCallsWithWarnings hello_host
                    (sample_locales "en" ["en"; "de"])
                    (findTranslationCalls "m.greeting()") hello_data "/w" "en")).
Proof.
  apply (resolved_in_active_locale hello_host (sample_locales "en" ["en"; "de"])
           "m.greeting()" hello_data "/w" "en" 0
           {| methodName := "greeting"; params := ""; start := 0; end_ := 12;
              keyType_ := flat |} "Hello");
    [reflexivity | reflexivity | discriminate].
Defined.

(** C1 as stated fails: in [blank_en_host] the key [greeting] resolves in
    the active locale's data to a string leaf, the empty text, which the
    resolver returns as it stands; the call is nevertheless sent to the
    fallback search and ends up Unresolved. *)
Lemma resolved_in_active_locale_blank_counterexample :
  loaded blank_en_host "/w/messages/en.json" = blank_data
  /\ findTranslationCalls "m.greeting()"
     = [ {| methodName := "greeting"; params := ""; start := 0; end_ := 12;
            keyType_ := flat |} ]
  /\ getTranslation blank_data "greeting" = Some ""
  /\ processTranslationCallsWithWarnings blank_en_host (sample_locales "en" ["en"])
       (findTranslationCalls "m.greeting()") blank_data "/w" "en"
     = ([SearchKeyInAllLocales "greeting" "en"],
        Normal [ {| call := {| methodName := "greeting"; params := ""; start := 0;
                               end_ := 12; keyType_ := flat |};
                    translationValue := None;
                    warningType := Some noLocale;
                    foundInLocale := None |} ]).
Proof. repeat split; reflexivity. Qed.

(** ** The sidebar data *)

Section Sidebar.
Variable host : Host.
Variable ls : LocaleService.
Variable ps : ProjectService.
Variables workspacePath projectPath : string.

Lemma getAvailableLocales_normal :
  exists availableLocales,
    getAvailableLocales host ls ps workspacePath = ([], Normal availableLocales).
Proof.
  unfold getAvailableLocales.
  destruct (loadInlangSettings ls workspacePath) as [[b [l|] p]|];
    try (eexists; reflexivity);
    (destruct (existsSync host _); [|eexists; reflexivity];
     destruct (readdirSync host _) as [files|]; [|eexists; reflexivity];
     rewrite (bind_normal (lift (Normal files)) _ files eq_refl);
     match goal with
     | |- context [0 <? ?n] => destruct (0 <? n)
     end; eexists; reflexivity).
Qed.

Lemma collect_locales_rows (k : string) (availableLocales : list string) :
  forall acc,
    snd (collect_locales host ls workspacePath projectPath k availableLocales acc)
    = Normal (acc ++ rows host ls workspacePath projectPath k availableLocales).
Proof.
  induction availableLocales as [|l others IH]; intros acc; simpl.
  - now rewrite app_nil_r.
  - rewrite loadTranslationsForLocale_settles. unfold bind; cbn [fst snd].
    unfold resolution.
    set (t := loaded host (resolveTranslationPath ls workspacePath l)).
    destruct (truthy t) eqn:T.
    + destruct (getTranslation t k); rewrite IH; [|reflexivity].
      now rewrite <- app_assoc.
    + rewrite (getTranslation_falsy t k T). now rewrite IH.
Qed.

Lemma collect_keys_entries (availableLocales : list string)
  (calls : list TranslationCall) :
  forall acc,
    snd (collect_keys host ls workspacePath projectPath availableLocales calls acc)
    = Normal (acc ++ entries host ls workspacePath projectPath availableLocales calls).
Proof.
  induction calls as [|c calls IH]; intros acc; simpl.
  - now rewrite app_nil_r.
  - rewrite (bind_normal _ _ _ (collect_locales_rows (methodName c) availableLocales [])).
    cbn [fst snd app].
    destruct (0 <? _); rewrite IH; [|reflexivity].
    now rewrite <- app_assoc.
Qed.

Lemma rows_resolved (k : string) (availableLocales : list string) (ld : LocaleData) :
  In ld (rows host ls workspacePath projectPath k availableLocales) ->
  In (ld_locale ld) availableLocales
  /\ resolution host ls workspacePath k (ld_locale ld) = Some (ld_value ld).
Proof.
  unfold rows. rewrite in_flat_map. intros (l & Hl & Hin).
  destruct (resolution host ls workspacePath k l) as [v|] eqn:E; [|contradiction].
  destruct Hin as [<-|[]]. simpl. auto.
Qed.

Lemma rows_unresolved (k : string) (availableLocales : list string) :
  (forall l, In l availableLocales -> resolution host ls workspacePath k l = None) ->
  rows host ls workspacePath projectPath k availableLocales = [].
Proof.
  intros H. induction availableLocales as [|l others IH]; simpl; [reflexivity|].
  rewrite (H l (or_introl eq_refl)). simpl. apply IH.
  intros l' Hl'. apply H. now right.
Qed.

Lemma entries_rows (availableLocales : list string) (calls : list TranslationCall)
  (entry : TranslationKeyData) :
  In entry (entries host ls workspacePath projectPath availableLocales calls) ->
  locales_ entry = rows host ls workspacePath projectPath (key entry) availableLocales
  /\ locales_ entry <> []
  /\ exists c, In c calls /\ key entry = methodName c.
Proof.
  unfold entries. rewrite in_flat_map. intros (c & Hc & Hin).
  destruct (rows host ls workspacePath projectPath (methodName c) availableLocales) as [|ld lds] eqn:E; simpl in Hin;
    [contradiction|].
  destruct Hin as [<-|[]]. simpl. repeat split; [congruence | discriminate |].
  now exists c.
Qed.

End Sidebar.

(** C10: [getTranslationData] never raises; every entry it returns has
    at least one row; each row names a configured locale and carries the
    value that locale's data resolves the entry's key to; a key of the
    document that no configured locale resolves has no entry at all. *)
Theorem getTranslationData_entries :
  forall (host : Host) (ls : LocaleService) (ps : ProjectService)
         (document : option TextDocument),
    exists data,
      snd (getTranslationData host ls ps document) = Normal data
      /\ Forall (fun entry => locales_ entry <> []) data
      /\ (forall d workspacePath availableLocales,
            document = Some d ->
            getWorkspaceFolder host (fsPath d) = Some workspacePath ->
            snd (getAvailableLocales host ls ps workspacePath) = Normal availableLocales ->
            (forall entry ld,
                In entry data -> In ld (locales_ entry) ->
                In (ld_locale ld) availableLocales
                /\ resolution host ls workspacePath (key entry) (ld_locale ld)
                   = Some (ld_value ld))
            /\ (forall c,
                  In c (findTranslationCalls (getText d)) ->
                  (forall l, In l availableLocales ->
                             resolution host ls workspacePath (methodName c) l = None) ->
                  forall entry, In entry data -> key entry <> methodName c)).
Proof.
  intros host ls ps document. unfold getTranslationData.
  destruct document as [d|].
  2:{ exists []. split; [reflexivity|]. split; [constructor|].
      intros; discriminate. }
  destruct (getWorkspaceFolder host (fsPath d)) as [ws|] eqn:W.
  2:{ exists []. split; [reflexivity|]. split; [constructor|].
      intros d' ws' avail' Hd W'. injection Hd as <-. congruence. }
  destruct (List.length (findTranslationCalls (getText d)) =? 0) eqn:L.
  { exists []. split; [reflexivity|]. split; [constructor|].
      intros; split; intros; contradiction. }
  destruct (getAvailableLocales_normal host ls ps ws) as [avail Ha].
  set (pp := getActiveProjectPath ps ws).
  exists (entries host ls ws pp avail (findTranslationCalls (getText d))).
  assert (Hdata :
    snd (try_catch
           (availableLocales <- getAvailableLocales host ls ps ws ;;
            collect_keys host ls ws pp availableLocales
              (findTranslationCalls (getText d)) [])
           (ret []))
    = Normal (entries host ls ws pp avail (findTranslationCalls (getText d)))).
  { rewrite Ha. unfold bind, try_catch; cbn [fst snd].
    now rewrite (collect_keys_entries host ls ws pp avail _ []). }
  split; [exact Hdata|]. split.
  - apply Forall_forall. intros entry Hin.
    now destruct (entries_rows _ _ _ _ _ _ _ Hin) as (_ & H & _).
  - intros d' ws' avail' Hd W' Ha'. injection Hd as <-.
    rewrite W in W'. injection W' as <-.
    rewrite Ha in Ha'. injection Ha' as <-. split.
    + intros entry ld Hin Hld.
      destruct (entries_rows _ _ _ _ _ _ _ Hin) as (Hrows & _ & _).
      rewrite Hrows in Hld. now apply rows_resolved in Hld.
    + intros c Hc Hnone entry Hin Hkey.
      destruct (entries_rows _ _ _ _ _ _ _ Hin) as (Hrows & Hne & _).
      apply Hne. rewrite Hrows, Hkey. now apply rows_unresolved.
Qed.

(** In [hello_host], for a document that calls [greeting] and [farewell],
    the German row of the entry [greeting] carries what the German data
    resolves [greeting] to. *)
Lemma getTranslationData_entries_witness :
  In "de" ["en"; "de"]
  /\ resolution hello_host (sample_locales "en" ["en"; "de"]) "/w" "greeting" "de"
     = Some "Hallo".
Proof.
  destruct (getTranslationData_entries hello_host (sample_locales "en" ["en"; "de"])
              sample_project
              (Some {| fsPath := "/w/src/app.ts";
                       getText := "m.greeting(); m.farewell()" |}))
    as (data & Hdata & _ & Hrows).
  destruct (Hrows {| fsPath := "/w/src/app.ts";
                     getText := "m.greeting(); m.farewell()" |}
              "/w" ["en"; "de"] eq_refl eq_refl eq_refl) as [Hrow _].
  assert (Heq : data
                = [ {| key := "greeting";
                       locales_ := [ {| ld_locale := "en"; ld_value := "Hello";
                                        ld_workspacePath := "/w" |};
                                     {| ld_locale := "de"; ld_value := "Hallo";
                                        ld_workspacePath := "/w" |} ] |} ])
    by (vm_compute in Hdata; congruence).
  subst data.
  apply (Hrow {| key := "greeting";
                 locales_ := [ {| ld_locale := "en"; ld_value := "Hello";
                                  ld_workspacePath := "/w" |};
                               {| ld_locale := "de"; ld_value := "Hallo";
                                  ld_workspacePath := "/w" |} ] |}
              {| ld_locale := "de"; ld_value := "Hallo"; ld_workspacePath := "/w" |});
    simpl; auto.
Defined.

(** ** The refresh coordinator *)

Lemma body_fields (o : outcome) (st : provider) :
  refreshInProgress (body o st) = refreshInProgress st
  /\ pendingRefresh (body o st) = pendingRefresh st
  /\ in_flight (body o st) = in_flight st
  /\ passes (body o st) = passes st.
Proof. destruct o; repeat split. Qed.

Lemma settle_idle (o : outcome) (st : provider) (r : PendingRefresh) :
  in_flight st = [r] -> pendingRefresh st = None ->
  refreshInProgress (settle o st) = false
  /\ in_flight (settle o st) = []
  /\ pendingRefresh (settle o st) = None
  /\ passes (settle o st) = passes st.
Proof.
  intros Hf Hp. unfold settle, finally_, follow_up. rewrite Hf.
  destruct (body_fields o (leave st)) as (_ & Hbp & Hbf & Hbs).
  simpl. rewrite Hbp. simpl. rewrite Hp. simpl.
  rewrite Hbp, Hbf, Hbs. simpl. rewrite Hf, Hp. repeat split.
Qed.

Lemma settle_follow_up (o : outcome) (st : provider) (r p : PendingRefresh) :
  in_flight st = [r] -> pendingRefresh st = Some p ->
  refreshInProgress (settle o st) = true
  /\ in_flight (settle o st) = [p]
  /\ pendingRefresh (settle o st) = None
  /\ passes (settle o st) = passes st ++ [p].
Proof.
  intros Hf Hp. unfold settle, finally_, follow_up. rewrite Hf.
  destruct (body_fields o (leave st)) as (_ & Hbp & Hbf & Hbs).
  simpl. rewrite Hbp. simpl. rewrite Hp. unfold refresh. simpl.
  rewrite Hbf, Hbs. simpl. rewrite Hf. repeat split.
Qed.

Lemma step_coherent (st : provider) (t : turn) :
  coherent st -> coherent (step st t).
Proof.
  intros [[Hflag [r0 Hf]] | (Hflag & Hf & Hp)]; destruct t as [r|o]; simpl.
  - left. unfold refresh. rewrite Hflag. simpl. split; [exact Hflag | now exists r0].
  - destruct (pendingRefresh st) as [p|] eqn:Hp.
    + destruct (settle_follow_up o st r0 p Hf Hp) as (H1 & H2 & _).
      left. split; [exact H1 | now exists p].
    + destruct (settle_idle o st r0 Hf Hp) as (H1 & H2 & H3 & _).
      right. auto.
  - left. unfold refresh. rewrite Hflag. simpl. rewrite Hf. split; [reflexivity | now exists r].
  - right. unfold settle. rewrite Hf. auto.
Qed.

Lemma run_snoc (ts : list turn) (t : turn) (st : provider) :
  run (ts ++ [t]) st = step (run ts st) t.
Proof. unfold run. now rewrite fold_left_app. Qed.

Lemma reachable_coherent (st : provider) : reachable st -> coherent st.
Proof.
  intros [ts ->]. induction ts as [|t ts IH] using rev_ind.
  - right. repeat split.
  - rewrite run_snoc. now apply step_coherent.
Qed.

(** Requests that arrive while a pass is in flight start nothing: the last
    of them is what stays recorded. *)
Lemma requests_while_busy (st : provider) (rs : list PendingRefresh)
  (latest : PendingRefresh) :
  refreshInProgress st = true ->
  refreshInProgress (run (map Refresh (rs ++ [latest])) st) = true
  /\ in_flight (run (map Refresh (rs ++ [latest])) st) = in_flight st
  /\ passes (run (map Refresh (rs ++ [latest])) st) = passes st
  /\ pendingRefresh (run (map Refresh (rs ++ [latest])) st) = Some latest.
Proof.
  revert st. induction rs as [|r rs IH]; intros st Hflag; simpl.
  - unfold refresh. rewrite Hflag. repeat split. exact Hflag.
  - assert (Hr : refreshInProgress (refresh r st) = true)
      by (unfold refresh; rewrite Hflag; exact Hflag).
    destruct (IH (refresh r st) Hr) as (H1 & H2 & H3 & H4).
    unfold run in *. rewrite H1, H2, H3, H4.
    unfold refresh. rewrite Hflag. repeat split.
Qed.

(** C2: at most one pass is in flight, hence at most one for every target.
    Requests arriving while a pass is in flight (for its target or any
    other, the coordinator state being shared) start no pass and leave a
    single pending follow-up, that of the latest request; when the pass
    completes exactly one more pass starts, with those parameters; and
    once a pass completes with nothing pending the coordinator is idle. *)
Theorem single_flight_coalescing :
  forall (st : provider),
    reachable st ->
    List.length (in_flight st) <= 1
    /\ (forall t, List.length (filter (for_target t) (in_flight st)) <= 1)
    /\ forall (r0 : PendingRefresh) (rs : list PendingRefresh)
              (latest : PendingRefresh) (o o' : outcome),
        in_flight st = [r0] ->
        let busy := run (map Refresh (rs ++ [latest])) st in
        let next := settle o busy in
        let done := settle o' next in
        in_flight busy = [r0]
        /\ passes busy = passes st
        /\ pendingRefresh busy = Some latest
        /\ in_flight next = [latest]
        /\ passes next = passes st ++ [latest]
        /\ pendingRefresh next = None
        /\ in_flight done = []
        /\ refreshInProgress done = false
        /\ passes done = passes st ++ [latest].
Proof.
  intros st Hreach. pose proof (reachable_coherent st Hreach) as Hco.
  split; [|split].
  - destruct Hco as [[_ [r ->]] | (_ & -> & _)]; simpl; lia.
  - intros t. destruct Hco as [[_ [r ->]] | (_ & -> & _)]; simpl; [|lia].
    destruct (for_target t r); simpl; lia.
  - intros r0 rs latest o o' Hf busy next done.
    destruct Hco as [[Hflag _] | (_ & Hnil & _)]; [|congruence].
    destruct (requests_while_busy st rs latest Hflag) as (B1 & B2 & B3 & B4).
    fold busy in B1, B2, B3, B4. rewrite Hf in B2.
    destruct (settle_follow_up o busy r0 latest B2 B4) as (N1 & N2 & N3 & N4).
    fold next in N1, N2, N3, N4.
    destruct (settle_idle o' next latest N2 N3) as (D1 & D2 & D3 & D4).
    fold done in D1, D2, D3, D4.
    rewrite D4, N4, B3. repeat split; assumption.
Qed.

(** Three requests during the first pass: one more pass runs, with the
    parameters of the third. *)
Lemma single_flight_coalescing_witness :
  passes (settle (Updated [] "/w/src/app.ts")
            (run (map Refresh [second_request; second_request; third_request])
                 (run [Refresh first_request] initial)))
  = [first_request; third_request].
Proof.
  assert (Hreach : reachable (run [Refresh first_request] initial))
    by (exists [Refresh first_request]; reflexivity).
  destruct (single_flight_coalescing _ Hreach) as (_ & _ & H).
  destruct (H first_request [second_request; second_request] third_request
              (Updated [] "/w/src/app.ts") Failed eq_refl)
    as (_ & _ & _ & _ & Hp & _).
  exact Hp.
Defined.

(** C9: however the body of a pass ends (normally, by an early return or
    by an exception), the [finally] block lowers the flag; with nothing
    pending the coordinator is then idle, and a request recorded during
    the pass is run as the next pass. *)
Theorem completion_leaves_running :
  forall (st : provider) (r : PendingRefresh) (o : outcome),
    reachable st ->
    in_flight st = [r] ->
    refreshInProgress st = true
    /\ refreshInProgress (release (body o (leave st))) = false
    /\ settle o st = follow_up (release (body o (leave st)))
    /\ (pendingRefresh st = None ->
        refreshInProgress (settle o st) = false
        /\ in_flight (settle o st) = []
        /\ passes (settle o st) = passes st)
    /\ (forall p, pendingRefresh st = Some p ->
        in_flight (settle o st) = [p]
        /\ pendingRefresh (settle o st) = None
        /\ passes (settle o st) = passes st ++ [p]).
Proof.
  intros st r o Hreach Hf. repeat split.
  - destruct (reachable_coherent st Hreach) as [[Hflag _] | (_ & Hnil & _)];
      [exact Hflag | congruence].
  - unfold settle. now rewrite Hf.
  - now destruct (settle_idle o st r Hf H) as (H1 & _).
  - now destruct (settle_idle o st r Hf H) as (_ & H2 & _).
  - now destruct (settle_idle o st r Hf H) as (_ & _ & _ & H4).
  - now destruct (settle_follow_up o st r p Hf H) as (_ & H2 & _).
  - now destruct (settle_follow_up o st r p Hf H) as (_ & _ & H3 & _).
  - now destruct (settle_follow_up o st r p Hf H) as (_ & _ & _ & H4).
Qed.

(** A pass that fails while a request is pending: the flag does not stay
    up for the failed pass, and the pending request runs. *)
Lemma completion_leaves_running_witness :
  in_flight (settle Failed (run [Refresh first_request; Refresh third_request] initial))
  = [third_request]
  /\ pendingRefresh (settle Failed (run [Refresh first_request; Refresh third_request] initial))
     = None
  /\ passes (settle Failed (run [Refresh first_request; Refresh third_request] initial))
     = [first_request] ++ [third_request].
Proof.
  assert (Hreach : reachable (run [Refresh first_request; Refresh third_request] initial))
    by (exists [Refresh first_request; Refresh third_request]; reflexivity).
  apply (proj2 (proj2 (proj2 (proj2
           (completion_leaves_running _ first_request Failed Hreach eq_refl))))
           third_request eq_refl).
Defined.

(** ** The matcher advances *)

Lemma ahead_refl (st : mstate) : ahead st st.
Proof. split; reflexivity. Qed.

Lemma ahead_trans (a b c : mstate) : ahead a b -> ahead b c -> ahead a c.
Proof. unfold ahead. intros [H1 H2] [H3 H4]. split; lia. Qed.

Lemma ahead_advance (st : mstate) (d : ascii) (tl : list ascii) :
  rest st = d :: tl -> ahead st (advance d tl st) /\ pos st < pos (advance d tl st).
Proof. intros H. unfold ahead. rewrite H. simpl. repeat split; lia. Qed.

Lemma eat_ahead (s : list ascii) :
  forall st st', eat s st = Some st' -> ahead st st'.
Proof.
  induction s as [|c s IH]; intros st st' H; simpl in H.
  - injection H as <-. apply ahead_refl.
  - destruct (rest st) as [|d tl] eqn:E; [discriminate|].
    destruct (Ascii.eqb c d); [|discriminate].
    eapply ahead_trans; [apply (ahead_advance st d tl E) | now apply IH].
Qed.

Lemma star_loop_ahead
  (body : mstate -> (mstate -> option mstate) -> option mstate)
  (k : mstate -> option mstate) (res : mstate) :
  (forall st k', body st k' = Some res ->
                 exists st', ahead st st' /\ k' st' = Some res) ->
  forall fuel st,
    star_loop body k fuel st = Some res ->
    exists st', ahead st st' /\ k st' = Some res.
Proof.
  intros Hbody. induction fuel as [|fuel IH]; intros st H; simpl in H.
  - exists st. split; [apply ahead_refl | exact H].
  - destruct (body st _) as [res'|] eqn:E.
    + injection H as ->. apply Hbody in E. destruct E as (st1 & H1 & Hk).
      destruct (pos st1 =? pos st); [discriminate|].
      apply IH in Hk. destruct Hk as (st' & H2 & Hk).
      exists st'. split; [eapply ahead_trans; eassumption | exact Hk].
    + exists st. split; [apply ahead_refl | exact H].
Qed.

(** A successful match hands its continuation a position at or after the
    one it started from. *)
Lemma rmatch_ahead (r : regex) :
  forall st k res,
    rmatch r st k = Some res ->
    exists st', ahead st st' /\ k st' = Some res.
Proof.
  induction r as [c | p | r1 IH1 r2 IH2 | r1 IH1 | n r1 IH1 | n | ];
    intros st k res H; cbn [rmatch] in H.
  - destruct (rest st) as [|d tl] eqn:E; [discriminate|].
    destruct (Ascii.eqb c d); [|discriminate].
    exists (advance d tl st). split; [apply (ahead_advance st d tl E) | exact H].
  - destruct (rest st) as [|d tl] eqn:E; [discriminate|].
    destruct (p d); [|discriminate].
    exists (advance d tl st). split; [apply (ahead_advance st d tl E) | exact H].
  - apply IH1 in H. destruct H as (st1 & H1 & H).
    apply IH2 in H. destruct H as (st2 & H2 & H).
    exists st2. split; [eapply ahead_trans; eassumption | exact H].
  - eapply star_loop_ahead; [|exact H]. intros st0 k'. apply IH1.
  - apply IH1 in H. destruct H as (st1 & H1 & H).
    eexists. split; [|exact H]. exact H1.
  - destruct (capture n (caps st)) as [s|].
    + destruct (eat s st) as [st1|] eqn:E; [|discriminate].
      exists st1. split; [now apply eat_ahead in E | exact H].
    + exists st. split; [apply ahead_refl | exact H].
  - destruct (xorb _ _); [|discriminate].
    exists st. split; [apply ahead_refl | exact H].
Qed.

Lemma flatPattern_opens : opens_with "m" "." flatPattern.
Proof. now eexists. Qed.

Lemma nestedPattern_opens : opens_with "m" "[" nestedPattern.
Proof. now eexists. Qed.

(** A match found from offset [i] on starts at or after [i], is not empty,
    ends within the text, and has [c2] as its second character. *)
Lemma search_bounds (c1 c2 : ascii) (r : regex) (tl : list ascii) :
  opens_with c1 c2 r ->
  forall bef i m,
    search r bef tl i = Some m ->
    i <= index m /\ index m < lastIndex m /\ lastIndex m <= i + List.length tl
    /\ nth_error tl (S (index m - i)) = Some c2.
Proof.
  intros (r' & ->). induction tl as [|d tl IH]; intros bef i m H.
  - simpl in H. destruct (xorb _ _); discriminate.
  - cbn [search] in H.
    destruct (rmatch _ _ Some) as [st|] eqn:E.
    + injection H as <-. simpl in *.
      destruct (xorb _ _); [|discriminate].
      destruct (Ascii.eqb c1 d); [|discriminate].
      destruct tl as [|d2 tl2]; [discriminate|].
      destruct (Ascii.eqb_spec c2 d2) as [->|]; [|discriminate].
      apply rmatch_ahead in E. destruct E as (st' & [H1 H2] & Hk).
      injection Hk as ->. simpl in *.
      rewrite Nat.sub_diag. simpl. repeat split; lia.
    + apply IH in H. destruct H as (H1 & H2 & H3 & H4).
      replace (index m - i) with (S (index m - S i)) by lia.
      simpl in *. repeat split; try lia. exact H4.
Qed.

Lemma exec_bounds (c1 c2 : ascii) (r : regex) (text : list ascii) (from : nat)
  (m : exec_result) :
  opens_with c1 c2 r ->
  exec r text from = Some m ->
  from <= index m /\ index m < lastIndex m /\ lastIndex m <= List.length text
  /\ nth_error text (S (index m)) = Some c2.
Proof.
  intros Hr H. unfold exec in H.
  destruct (Nat.ltb_spec (List.length text) from) as [Hlt|Hle]; [discriminate|].
  apply (search_bounds c1 c2 r _ Hr) in H. rewrite length_skipn in H.
  destruct H as (H1 & H2 & H3 & H4). rewrite nth_error_skipn in H4.
  replace (from + S (index m - from)) with (S (index m)) in H4 by lia.
  repeat split; try lia. exact H4.
Qed.

(** Once the fuel exceeds what is left of the text, more fuel finds no more
    matches: the loop has ended on a failed [exec]. *)
Lemma exec_loop_enough (c1 c2 : ascii) (r : regex) (text : list ascii) :
  opens_with c1 c2 r ->
  forall fuel from,
    List.length text < fuel + from ->
    exec_loop (S fuel) r text from = exec_loop fuel r text from.
Proof.
  intros Hr. induction fuel as [|fuel IH]; intros from Hlen.
  - simpl. unfold exec.
    destruct (Nat.ltb_spec (List.length text) from); [reflexivity | lia].
  - change (exec_loop (S (S fuel)) r text from)
      with (match exec r text from with
            | None => []
            | Some m => m :: exec_loop (S fuel) r text (lastIndex m)
            end).
    change (exec_loop (S fuel) r text from)
      with (match exec r text from with
            | None => []
            | Some m => m :: exec_loop fuel r text (lastIndex m)
            end).
    destruct (exec r text from) as [m|] eqn:E; [|reflexivity].
    destruct (exec_bounds c1 c2 r text from m Hr E) as (? & ? & ? & _).
    f_equal. apply IH. lia.
Qed.

(** The matches collected for either pattern are all there are: running
    the loop any longer returns the same list. *)
Lemma matches_complete (c1 c2 : ascii) (r : regex) (text : string) (extra : nat) :
  opens_with c1 c2 r ->
  exec_loop (extra + S (List.length (list_ascii_of_string text))) r
            (list_ascii_of_string text) 0
  = matches r text.
Proof.
  intros Hr. unfold matches. induction extra as [|extra IH]; [reflexivity|].
  rewrite <- IH. apply (exec_loop_enough c1 c2 r _ Hr). lia.
Qed.

(** The successive matches start at strictly increasing offsets, each with
    [c2] as its second character. *)
Lemma exec_loop_indices (c1 c2 : ascii) (r : regex) (text : list ascii) :
  opens_with c1 c2 r ->
  forall fuel from,
    Forall (fun m => from <= index m /\ nth_error text (S (index m)) = Some c2)
           (exec_loop fuel r text from)
    /\ StronglySorted (fun a b => index a < index b) (exec_loop fuel r text from).
Proof.
  intros Hr. induction fuel as [|fuel IH]; intros from; simpl.
  - split; constructor.
  - destruct (exec r text from) as [m|] eqn:E; [|split; constructor].
    destruct (exec_bounds c1 c2 r text from m Hr E) as (H1 & H2 & _ & H4).
    destruct (IH (lastIndex m)) as [HF HS]. split.
    + constructor; [now split|].
      eapply Forall_impl; [|exact HF]. simpl. intros m' [? ?]. split; [lia | assumption].
    + constructor; [exact HS|].
      eapply Forall_impl; [|exact HF]. simpl. intros m' [? _]. lia.
Qed.

Lemma increasing_indices_distinct (ms : list exec_result) :
  StronglySorted (fun a b => index a < index b) ms -> NoDup (map index ms).
Proof.
  induction 1 as [|m ms _ IH Hm]; simpl; constructor; [|exact IH].
  rewrite in_map_iff. intros (m' & Heq & Hin).
  rewrite Forall_forall in Hm. specialize (Hm m' Hin). lia.
Qed.

(** No two calls of a scan start at the same offset: the matches of one
    pattern do not overlap, and at the offset after [m] a flat match has a
    dot where a nested match has a bracket. *)
Lemma scanned_starts_distinct (text : string) :
  NoDup (map start (findTranslationCalls text)).
Proof.
  unfold findTranslationCalls.
  eapply Permutation_NoDup; [apply Permutation_map, sort_by_start_perm|].
  rewrite map_app, !map_map. cbn [flat_call nested_call start].
  unfold matches.
  set (t := list_ascii_of_string text).
  destruct (exec_loop_indices _ _ _ t flatPattern_opens (S (List.length t)) 0)
    as [Ff Sf].
  destruct (exec_loop_indices _ _ _ t nestedPattern_opens (S (List.length t)) 0)
    as [Fn Sn].
  apply NoDup_app.
  - now apply increasing_indices_distinct.
  - now apply increasing_indices_distinct.
  - intros o Hf Hn. rewrite in_map_iff in Hf, Hn.
    destruct Hf as (mf & <- & Hf). destruct Hn as (mn & Heq & Hn).
    rewrite Forall_forall in Ff, Fn.
    destruct (Ff mf Hf) as [_ H1]. destruct (Fn mn Hn) as [_ H2].
    rewrite Heq in H2. congruence.
Qed.

Example scan_backtick :
  map methodName (findTranslationCalls "m[`a.b`]() + m.c()") = ["a.b"; "c"].
Proof. reflexivity. Qed.

(* ===================================================================== *)
(** * Further properties *)
(* ===================================================================== *)

(** ** Spans of the scanned calls *)

Lemma search_head (c1 c2 : ascii) (r : regex) (tl : list ascii) :
  opens_with c1 c2 r -> is_word c1 = true ->
  forall bef i m,
    search r bef tl i = Some m ->
    nth_error tl (index m - i) = Some c1
    /\ word_opt (if index m =? i then bef else nth_error tl (index m - i - 1)) = false.
Proof.
  intros Hr Hw. pose proof (search_bounds c1 c2 r) as Hb.
  destruct Hr as (r' & ->).
  induction tl as [|d tl IH]; intros bef i m H.
  - simpl in H. destruct (xorb _ _); discriminate.
  - pose proof (Hb (d :: tl) (ex_intro _ r' eq_refl) bef i m H) as (Hi & _).
    cbn [search] in H.
    destruct (rmatch _ _ Some) as [st|] eqn:E.
    + injection H as <-. simpl in *.
      destruct (xorb _ _) eqn:X; [|discriminate].
      destruct (Ascii.eqb_spec c1 d) as [->|]; [|discriminate].
      rewrite Nat.sub_diag, Nat.eqb_refl. simpl. split; [reflexivity|].
      rewrite Hw in X. now destruct (word_opt bef).
    + pose proof (Hb tl (ex_intro _ r' eq_refl) (Some d) (S i) m H) as (Hi' & _).
      apply IH in H. destruct H as [H1 H2].
      split.
      * replace (index m - i) with (S (index m - S i)) by lia. exact H1.
      * destruct (Nat.eqb_spec (index m) i) as [|_]; [lia|].
        destruct (Nat.eqb_spec (index m) (S i)) as [Heq|Hne].
        -- rewrite Heq. replace (S i - i - 1) with 0 by lia. exact H2.
        -- replace (index m - i - 1) with (S (index m - S i - 1)) by lia. exact H2.
Qed.

Lemma exec_span (c1 c2 : ascii) (r : regex) (text : list ascii) (from : nat)
  (m : exec_result) :
  opens_with c1 c2 r -> is_word c1 = true ->
  exec r text from = Some m ->
  span_ok text c1 c2 from m.
Proof.
  intros Hr Hw H.
  destruct (exec_bounds c1 c2 r text from m Hr H) as (H1 & H2 & H3 & H4).
  unfold exec in H.
  destruct (Nat.ltb_spec (List.length text) from) as [Hlt|Hle]; [discriminate|].
  apply (search_head c1 c2 r _ Hr Hw) in H. destruct H as [H5 H6].
  rewrite nth_error_skipn in H5.
  replace (from + (index m - from)) with (index m) in H5 by lia.
  repeat split; try assumption.
  destruct (Nat.eqb_spec (index m) from) as [->|Hne]; [exact H6|].
  rewrite nth_error_skipn in H6.
  destruct (index m) as [|j]; [lia|]. simpl.
  replace (from + (S j - from - 1)) with j in H6 by lia. exact H6.
Qed.

(** The successive matches of a pattern: each is well placed, and each
    starts at or after the end of the one before. *)
Lemma exec_loop_spans (c1 c2 : ascii) (r : regex) (text : list ascii) :
  opens_with c1 c2 r -> is_word c1 = true ->
  forall fuel from,
    Forall (span_ok text c1 c2 from) (exec_loop fuel r text from)
    /\ StronglySorted (fun a b => lastIndex a <= index b) (exec_loop fuel r text from).
Proof.
  intros Hr Hw. induction fuel as [|fuel IH]; intros from; simpl.
  - split; constructor.
  - destruct (exec r text from) as [m|] eqn:E; [|split; constructor].
    pose proof (exec_span c1 c2 r text from m Hr Hw E) as Hm.
    destruct (IH (lastIndex m)) as [HF HS]. split.
    + constructor; [exact Hm|].
      eapply Forall_impl; [|exact HF]. intros m' Hm'.
      unfold span_ok in *. repeat split; try tauto. lia.
    + constructor; [exact HS|].
      eapply Forall_impl; [|exact HF]. intros m' Hm'. unfold span_ok in Hm'. tauto.
Qed.

Lemma is_word_m : is_word "m" = true.
Proof. reflexivity. Qed.

Lemma length_text (text : string) :
  List.length (list_ascii_of_string text) = String.length text.
Proof. induction text as [|c text IH]; simpl; congruence. Qed.

(** A call of the scanner's result, traced back to the match it was made
    from. *)
Lemma scanned_call_match (text : string) (c : TranslationCall) :
  In c (findTranslationCalls text) ->
  (exists m, In m (matches flatPattern text) /\ c = flat_call m)
  \/ (exists m, In m (matches nestedPattern text) /\ c = nested_call m).
Proof.
  intros Hin.
  apply (Permutation_in _ (Permutation_sym (sort_by_start_perm _))) in Hin.
  apply in_app_or in Hin. rewrite !in_map_iff in Hin.
  destruct Hin as [(m & <- & Hm) | (m & <- & Hm)]; [left | right]; now exists m.
Qed.

(** X1: every scanned call is a non-empty span inside the text; it starts
    with [m] followed by a dot (flat shape) or an opening bracket (nested
    shape), and the character before it, if any, is not a letter, a digit
    or an underscore. *)
Theorem scanned_call_span :
  forall (text : string) (c : TranslationCall),
    In c (findTranslationCalls text) ->
    start c < end_ c
    /\ end_ c <= String.length text
    /\ nth_error (list_ascii_of_string text) (start c) = Some "m"%char
    /\ nth_error (list_ascii_of_string text) (S (start c)) = Some (opening (keyType_ c))
    /\ word_opt (char_before (list_ascii_of_string text) (start c)) = false.
Proof.
  intros text c Hin. rewrite <- length_text.
  destruct (scanned_call_match text c Hin) as [(m & Hm & ->) | (m & Hm & ->)];
    unfold matches in Hm.
  - destruct (exec_loop_spans _ _ _ (list_ascii_of_string text) flatPattern_opens
                is_word_m (S (List.length (list_ascii_of_string text))) 0) as [HF _].
    rewrite Forall_forall in HF. specialize (HF m Hm). unfold span_ok in HF.
    simpl. tauto.
  - destruct (exec_loop_spans _ _ _ (list_ascii_of_string text) nestedPattern_opens
                is_word_m (S (List.length (list_ascii_of_string text))) 0) as [HF _].
    rewrite Forall_forall in HF. specialize (HF m Hm). unfold span_ok in HF.
    simpl. tauto.
Qed.

(** In [xm.a() m.b(c)] only the second call is found: the first [m] ends
    a longer word. *)
Lemma scanned_call_span_witness :
  start {| methodName := "b"; params := "c"; start := 7; end_ := 13; keyType_ := flat |}
  < end_ {| methodName := "b"; params := "c"; start := 7; end_ := 13; keyType_ := flat |}
  /\ 13 <= String.length "xm.a() m.b(c)"
  /\ nth_error (list_ascii_of_string "xm.a() m.b(c)") 7 = Some "m"%char
  /\ nth_error (list_ascii_of_string "xm.a() m.b(c)") 8 = Some "."%char
  /\ word_opt (char_before (list_ascii_of_string "xm.a() m.b(c)") 7) = false.
Proof.
  apply (scanned_call_span "xm.a() m.b(c)"
           {| methodName := "b"; params := "c"; start := 7; end_ := 13;
              keyType_ := flat |}).
  left. reflexivity.
Defined.

Lemma sorted_pair {A : Type} (R : A -> A -> Prop) (l : list A) (a b : A) :
  StronglySorted R l -> In a l -> In b l -> a = b \/ R a b \/ R b a.
Proof.
  induction 1 as [|x l Hs IH Hx]; intros Ha Hb; [contradiction|].
  rewrite Forall_forall in Hx.
  destruct Ha as [<-|Ha], Hb as [<-|Hb]; auto.
Qed.

(** X2: two calls of the same shape never overlap: the one that starts
    first ends before the other starts. *)
Theorem same_shape_calls_disjoint :
  forall (text : string) (a b : TranslationCall),
    In a (findTranslationCalls text) ->
    In b (findTranslationCalls text) ->
    keyType_ a = keyType_ b ->
    start a < start b ->
    end_ a <= start b.
Proof.
  intros text a b Ha Hb Hk Hlt.
  destruct (scanned_call_match text a Ha) as [(ma & Hma & ->) | (ma & Hma & ->)];
    destruct (scanned_call_match text b Hb) as [(mb & Hmb & ->) | (mb & Hmb & ->)];
    try discriminate; simpl in *; unfold matches in *.
  - destruct (exec_loop_spans _ _ _ (list_ascii_of_string text) flatPattern_opens
                is_word_m (S (List.length (list_ascii_of_string text))) 0) as [HF HS].
    rewrite Forall_forall in HF.
    destruct (sorted_pair _ _ ma mb HS Hma Hmb) as [->|[H|H]]; [lia | exact H |].
    destruct (HF mb Hmb) as (_ & ? & _). lia.
  - destruct (exec_loop_spans _ _ _ (list_ascii_of_string text) nestedPattern_opens
                is_word_m (S (List.length (list_ascii_of_string text))) 0) as [HF HS].
    rewrite Forall_forall in HF.
    destruct (sorted_pair _ _ ma mb HS Hma Hmb) as [->|[H|H]]; [lia | exact H |].
    destruct (HF mb Hmb) as (_ & ? & _). lia.
Qed.

(** In [m.a() m.b()] the first call ends where the blank begins. *)
Lemma same_shape_calls_disjoint_witness :
  end_ {| methodName := "a"; params := ""; start := 0; end_ := 5; keyType_ := flat |}
  <= start {| methodName := "b"; params := ""; start := 6; end_ := 11; keyType_ := flat |}.
Proof.
  apply (same_shape_calls_disjoint "m.a() m.b()"); simpl;
    [left; reflexivity | right; left; reflexivity | reflexivity | lia].
Defined.

(** Sorted without repetition, the calls start at strictly increasing
    offsets. *)
Lemma sorted_distinct_strict (l : list TranslationCall) :
  StronglySorted by_start l -> NoDup (map start l) ->
  StronglySorted (fun a b => start a < start b) l.
Proof.
  induction 1 as [|c l Hs IH Hc]; intros Hnd; [constructor|].
  simpl in Hnd. apply NoDup_cons_iff in Hnd. destruct Hnd as [Hnot Hnd].
  constructor; [now apply IH|].
  rewrite Forall_forall in *. intros d Hd. specialize (Hc d Hd). unfold by_start in Hc.
  assert (start c <> start d); [|lia].
  intros Heq. apply Hnot. rewrite Heq. now apply in_map.
Qed.

(** X3: the calls of a scan start at strictly increasing offsets: no two
    of them start at the same place, whatever their shapes. *)
Theorem scanned_calls_strictly_increasing :
  forall (text : string),
    StronglySorted (fun a b => start a < start b) (findTranslationCalls text).
Proof.
  intros text. apply sorted_distinct_strict.
  - unfold findTranslationCalls. apply sort_by_start_sorted.
  - apply scanned_starts_distinct.
Qed.

(** ** Keys of the scanned calls *)

Lemma star_loop_rel (R : mstate -> mstate -> Prop)
  (body : mstate -> (mstate -> option mstate) -> option mstate)
  (k : mstate -> option mstate) (res : mstate) :
  (forall st, R st st) ->
  (forall a b c, R a b -> R b c -> R a c) ->
  (forall st k', body st k' = Some res -> exists st', R st st' /\ k' st' = Some res) ->
  forall fuel st,
    star_loop body k fuel st = Some res ->
    exists st', R st st' /\ k st' = Some res.
Proof.
  intros Hrefl Htrans Hbody. induction fuel as [|fuel IH]; intros st H; simpl in H.
  - exists st. split; [apply Hrefl | exact H].
  - destruct (body st _) as [res'|] eqn:E.
    + injection H as ->. apply Hbody in E. destruct E as (st1 & H1 & Hk).
      destruct (pos st1 =? pos st); [discriminate|].
      apply IH in Hk. destruct Hk as (st' & H2 & Hk).
      exists st'. split; [eapply Htrans; eassumption | exact Hk].
    + exists st. split; [apply Hrefl | exact H].
Qed.

Lemma eat_caps (s : list ascii) :
  forall st st', eat s st = Some st' -> caps st' = caps st.
Proof.
  induction s as [|c s IH]; intros st st' H; simpl in H.
  - now injection H as <-.
  - destruct (rest st) as [|d tl]; [discriminate|].
    destruct (Ascii.eqb c d); [|discriminate].
    apply IH in H. exact H.
Qed.

(** A pattern leaves alone the captures of the groups it does not
    contain. *)
Lemma rmatch_keeps (n : nat) (r : regex) :
  ~ In n (groups_of r) ->
  forall st k res,
    rmatch r st k = Some res ->
    exists st', capture n (caps st') = capture n (caps st) /\ k st' = Some res.
Proof.
  induction r as [c | p | r1 IH1 r2 IH2 | r1 IH1 | m r1 IH1 | m | ];
    intros Hn st k res H; cbn [rmatch] in H; simpl in Hn.
  - destruct (rest st) as [|d tl]; [discriminate|].
    destruct (Ascii.eqb c d); [|discriminate]. eexists. split; [|exact H]. reflexivity.
  - destruct (rest st) as [|d tl]; [discriminate|].
    destruct (p d); [|discriminate]. eexists. split; [|exact H]. reflexivity.
  - rewrite in_app_iff in Hn.
    apply IH1 in H; [|tauto]. destruct H as (st1 & H1 & H).
    apply IH2 in H; [|tauto]. destruct H as (st2 & H2 & H).
    exists st2. split; [congruence | exact H].
  - eapply (star_loop_rel (fun a b => capture n (caps b) = capture n (caps a)));
      [reflexivity | intros; congruence | | exact H].
    intros st0 k'. now apply IH1.
  - apply IH1 in H; [|tauto]. destruct H as (st1 & H1 & H).
    eexists. split; [|exact H]. simpl.
    destruct (Nat.eqb_spec n m) as [->|_]; [tauto | exact H1].
  - destruct (capture m (caps st)) as [s|].
    + destruct (eat s st) as [st1|] eqn:E; [|discriminate].
      exists st1. split; [|exact H]. now rewrite (eat_caps _ _ _ E).
    + exists st. split; [reflexivity | exact H].
  - destruct (xorb _ _); [|discriminate]. exists st. split; [reflexivity | exact H].
Qed.

Lemma consumed_nil (st : mstate) : consumed [] st st.
Proof. unfold consumed. simpl. repeat split. lia. Qed.

Lemma consumed_cons (d : ascii) (tl s : list ascii) (st st' : mstate) :
  rest st = d :: tl -> consumed s (advance d tl st) st' -> consumed (d :: s) st st'.
Proof.
  unfold consumed. simpl. intros H (H1 & H2 & H3). rewrite H, H1, H2. repeat split.
  - lia.
  - exact H3.
Qed.

(** A star over a character class reads characters of the class. *)
Lemma star_class (q : ascii -> bool) (k : mstate -> option mstate) (res : mstate) :
  forall fuel st,
    star_loop (rmatch (Class q)) k fuel st = Some res ->
    exists s st',
      Forall (fun c => q c = true) s /\ consumed s st st' /\ k st' = Some res.
Proof.
  induction fuel as [|fuel IH]; intros st H; cbn [star_loop rmatch] in H.
  - exists [], st. split; [constructor|]. split; [apply consumed_nil | exact H].
  - destruct (rest st) as [|d tl] eqn:E.
    + exists [], st. split; [constructor|]. split; [apply consumed_nil | exact H].
    + destruct (q d) eqn:Q.
      * destruct (pos (advance d tl st) =? pos st).
        -- exists [], st. split; [constructor|]. split; [apply consumed_nil | exact H].
        -- destruct (star_loop _ k fuel _) as [res'|] eqn:L.
           ++ injection H as ->. apply IH in L. destruct L as (s & st' & Hs & Hc & Hk).
              exists (d :: s), st'. split; [now constructor|].
              split; [now apply (consumed_cons d tl) | exact Hk].
           ++ exists [], st. split; [constructor|]. split; [apply consumed_nil | exact H].
      * exists [], st. split; [constructor|]. split; [apply consumed_nil | exact H].
Qed.

(** A group made of one character of a class followed by a star over a
    class captures what it read. *)
Lemma group_class_star (n : nat) (p q : ascii -> bool) (st : mstate)
  (k : mstate -> option mstate) (res : mstate) :
  rmatch (Group n (Cat (Class p) (Star (Class q)))) st k = Some res ->
  exists c s st',
    p c = true /\ Forall (fun d => q d = true) s
    /\ caps st' = (n, c :: s) :: caps st /\ k st' = Some res.
Proof.
  intros H. cbn [rmatch] in H.
  destruct (rest st) as [|d tl] eqn:E; [discriminate|].
  destruct (p d) eqn:P; [|discriminate].
  apply star_class in H. destruct H as (s & st1 & Hs & (H1 & H2 & H3) & Hk).
  exists d, s. eexists. repeat split; [exact P | exact Hs | | exact Hk].
  simpl in *. rewrite H3, H2, H1. f_equal. f_equal.
  replace (S (pos st + List.length s) - pos st) with (S (List.length s)) by lia.
  simpl. f_equal. now rewrite firstn_app, Nat.sub_diag, firstn_all, firstn_O, app_nil_r.
Qed.

Lemma skip_prefix (r1 r2 : regex) (st : mstate) (k : mstate -> option mstate)
  (res : mstate) :
  rmatch (Cat r1 r2) st k = Some res -> exists st1, rmatch r2 st1 k = Some res.
Proof.
  intros H. cbn [rmatch] in H. apply rmatch_ahead in H.
  destruct H as (st1 & _ & H). now exists st1.
Qed.

Lemma flat_match_key (st res : mstate) :
  rmatch flatPattern st Some = Some res ->
  exists s, is_identifier s /\ capture 1 (caps res) = Some s.
Proof.
  intros H. unfold flatPattern in H. cbn [cat] in H.
  apply skip_prefix in H. destruct H as (st1 & H).
  apply skip_prefix in H. destruct H as (st2 & H).
  apply skip_prefix in H. destruct H as (st3 & H).
  change (rmatch (Group 1 (Cat (Class ident_start) (Star (Class ident_part))))
            st3 (fun st4 => rmatch (arguments 2) st4 Some) = Some res) in H.
  apply group_class_star in H.
  destruct H as (c & s & st4 & Hc & Hs & Hcaps & H).
  apply (rmatch_keeps 1) in H.
  - destruct H as (st5 & Hk & Heq). injection Heq as <-.
    exists (c :: s). split; [now split|].
    rewrite Hk, Hcaps. reflexivity.
  - simpl. intros [|[]]; discriminate.
Qed.

Lemma nested_match_key (st res : mstate) :
  rmatch nestedPattern st Some = Some res ->
  exists c s, not_quote c = true /\ Forall (fun d => not_quote d = true) s
              /\ capture 2 (caps res) = Some (c :: s).
Proof.
  intros H. unfold nestedPattern in H. cbn [cat] in H.
  apply skip_prefix in H. destruct H as (st1 & H).
  apply skip_prefix in H. destruct H as (st2 & H).
  apply skip_prefix in H. destruct H as (st3 & H).
  apply skip_prefix in H. destruct H as (st4 & H).
  change (rmatch (Group 2 (Cat (Class not_quote) (Star (Class not_quote)))) st4
            (fun st5 => rmatch (Cat (Backref 1) (Cat (Chr "]") (arguments 3))) st5 Some)
          = Some res) in H.
  apply group_class_star in H.
  destruct H as (c & s & st5 & Hc & Hs & Hcaps & H).
  apply (rmatch_keeps 2) in H.
  - destruct H as (st6 & Hk & Heq). injection Heq as <-.
    exists c, s. repeat split; [exact Hc | exact Hs |].
    rewrite Hk, Hcaps. reflexivity.
  - simpl. intros [|[]]; discriminate.
Qed.

Lemma search_matched (r : regex) (tl : list ascii) :
  forall bef i m,
    search r bef tl i = Some m ->
    exists st res, rmatch r st Some = Some res /\ groups m = caps res.
Proof.
  induction tl as [|d tl IH]; intros bef i m H; cbn [search] in H.
  - destruct (rmatch r _ Some) as [res|] eqn:E; [|discriminate].
    injection H as <-. eexists _, _. split; [exact E | reflexivity].
  - destruct (rmatch r _ Some) as [res|] eqn:E.
    + injection H as <-. eexists _, _. split; [exact E | reflexivity].
    + now apply IH in H.
Qed.

Lemma exec_loop_matched (r : regex) (text : list ascii) :
  forall fuel from m,
    In m (exec_loop fuel r text from) ->
    exists st res, rmatch r st Some = Some res /\ groups m = caps res.
Proof.
  induction fuel as [|fuel IH]; intros from m H; simpl in H; [contradiction|].
  destruct (exec r text from) as [m'|] eqn:E; [|contradiction].
  destruct H as [<-|H]; [|now apply IH in H].
  unfold exec in E. destruct (_ <? _); [discriminate|].
  now apply search_matched in E.
Qed.

Lemma identifier_no_dot (s : list ascii) :
  Forall (fun d => ident_part d = true) s ->
  includes_dot (string_of_list_ascii s) = false.
Proof.
  induction 1 as [|c s Hc _ IH]; simpl; [reflexivity|].
  rewrite IH, orb_false_r.
  destruct (Ascii.eqb_spec c "."); [subst; discriminate | reflexivity].
Qed.

Lemma ident_start_part (c : ascii) : ident_start c = true -> ident_part c = true.
Proof. unfold ident_part. now intros ->. Qed.

(** X4: a flat call's key is an identifier, so it holds no dot and the
    resolver reads it with a single top-level lookup; a nested call's key
    is not empty and holds no single or double quote. *)
Theorem scanned_call_key :
  forall (text : string) (c : TranslationCall),
    In c (findTranslationCalls text) ->
    key_shape c
    /\ (keyType_ c = flat ->
        includes_dot (methodName c) = false
        /\ forall data, lookup_key data (methodName c) = get data (methodName c)).
Proof.
  intros text c Hin.
  destruct (scanned_call_match text c Hin) as [(m & Hm & ->) | (m & Hm & ->)];
    unfold matches in Hm; apply exec_loop_matched in Hm;
    destruct Hm as (st & res & Hr & Hg).
  - apply flat_match_key in Hr. destruct Hr as (s & Hs & Hcap).
    assert (Hkey : methodName (flat_call m) = string_of_list_ascii s)
      by (simpl; unfold group; now rewrite Hg, Hcap).
    assert (Hdot : includes_dot (methodName (flat_call m)) = false).
    { rewrite Hkey. apply identifier_no_dot.
      destruct s as [|d s]; [contradiction|]. destruct Hs as [Hd Hs].
      constructor; [now apply ident_start_part | exact Hs]. }
    split.
    + unfold key_shape. cbn [keyType_ flat_call]. fold (methodName (flat_call m)).
      now rewrite Hkey, list_ascii_of_string_of_list_ascii.
    + intros _. split; [exact Hdot|]. intros data. unfold lookup_key. now rewrite Hdot.
  - apply nested_match_key in Hr. destruct Hr as (d & s & Hd & Hs & Hcap).
    assert (Hkey : methodName (nested_call m) = string_of_list_ascii (d :: s))
      by (simpl; unfold group; now rewrite Hg, Hcap).
    split; [|discriminate].
    unfold key_shape. cbn [keyType_ nested_call]. fold (methodName (nested_call m)).
    rewrite Hkey, list_ascii_of_string_of_list_ascii. split; [discriminate|].
    now constructor.
Qed.

(** The key of the call in [m.save_all()] is read at the top level. *)
Lemma scanned_call_key_witness :
  includes_dot "save_all" = false
  /\ forall data, lookup_key data "save_all" = get data "save_all".
Proof.
  apply (proj2 (scanned_call_key "m.save_all()"
                  {| methodName := "save_all"; params := ""; start := 0;
                     end_ := 12; keyType_ := flat |}
                  (or_introl eq_refl)) eq_refl).
Defined.

(** ** Texts *)

Lemma list_ascii_app (a b : string) :
  list_ascii_of_string (a ++ b) = list_ascii_of_string a ++ list_ascii_of_string b.
Proof. induction a as [|c a IH]; simpl; [reflexivity | now rewrite IH]. Qed.

Lemma get_after (s : string) (q : ascii) (t : string) :
  String.get (String.length s) (s ++ String q t) = Some q.
Proof. induction s as [|c s IH]; simpl; [reflexivity | exact IH]. Qed.

Lemma substring_before (s t : string) :
  substring 0 (String.length s) (s ++ t) = s.
Proof.
  induction s as [|c s IH]; simpl.
  - now destruct t.
  - now rewrite IH.
Qed.

Lemma string_last_split (t : string) (b : ascii) :
  t <> "" ->
  String.get (String.length t - 1) t = Some b ->
  t = (substring 0 (String.length t - 1) t ++ String b "")%string.
Proof.
  induction t as [|c t IH]; intros Hne Hget; [contradiction|].
  destruct t as [|d t].
  - simpl in *. now injection Hget as ->.
  - assert (Hlen : String.length (String c (String d t)) - 1
                   = S (String.length (String d t) - 1)) by (simpl; lia).
    rewrite Hlen in *. cbn [String.get substring] in *. cbn [append].
    f_equal. apply IH; [discriminate | exact Hget].
Qed.

(** ** Quotes around a selection *)

(** X5: [stripMatchingQuotes] undoes quoting: a text wrapped in a pair of
    the same quote character (single, double or back-tick) comes back
    without the pair; and a text it changes was such a wrapped text. *)
Theorem stripMatchingQuotes_unwraps :
  (forall (q : ascii) (s : string),
      any_quote q = true ->
      stripMatchingQuotes (String q (s ++ String q "")) = s)
  /\ (forall text,
        stripMatchingQuotes text <> text ->
        exists q', any_quote q' = true
                   /\ text = String q' (stripMatchingQuotes text ++ String q' "")).
Proof.
  split.
  - intros q s Hq. unfold stripMatchingQuotes. cbn [nonempty negb orb String.length String.get].
    assert (Hlen : String.length (s ++ String q "") = S (String.length s))
      by (induction s as [|c s IH]; simpl; congruence).
    rewrite Hlen. cbn [Nat.ltb Nat.leb Nat.sub].
    rewrite Nat.sub_0_r, get_after.
    cbn [substring]. rewrite substring_before.
    unfold any_quote in Hq.
    destruct (Ascii.eqb q "'"), (Ascii.eqb q dquote), (Ascii.eqb q "`");
      try reflexivity; discriminate.
  - intros text Hne. unfold stripMatchingQuotes in *.
    destruct text as [|a t]; [now contradiction Hne|].
    cbn [nonempty negb orb String.length String.get] in *.
    destruct t as [|d t]; [now contradiction Hne|].
    cbn [String.length Nat.ltb Nat.leb Nat.sub] in *.
    rewrite Nat.sub_0_r in *.
    change (String.get (S (String.length t)) (String a (String d t)))
      with (String.get (String.length t) (String d t)) in *.
    destruct (String.get (String.length t) (String d t)) as [b|] eqn:G;
      [|now contradiction Hne].
    assert (Hsplit : String d t
                     = (substring 0 (String.length t) (String d t) ++ String b "")%string).
    { pose proof (string_last_split (String d t) b) as H.
      cbn [String.length Nat.sub] in H. rewrite Nat.sub_0_r in H.
      apply H; [discriminate | exact G]. }
    destruct ((Ascii.eqb a dquote && Ascii.eqb b dquote)
              || (Ascii.eqb a "'" && Ascii.eqb b "'")
              || (Ascii.eqb a "`" && Ascii.eqb b "`")) eqn:C;
      [|now contradiction Hne].
    assert (Hab : a = b /\ any_quote a = true).
    { unfold any_quote.
      destruct (Ascii.eqb_spec a dquote), (Ascii.eqb_spec b dquote),
        (Ascii.eqb_spec a "'"), (Ascii.eqb_spec b "'"),
        (Ascii.eqb_spec a "`"), (Ascii.eqb_spec b "`");
        simpl in C; try discriminate C; subst;
        try (split; reflexivity);
        exfalso;
        match goal with
        | H : _ = _ :> ascii |- _ => compute in H; discriminate H
        | H : _ <> _ |- _ => now apply H
        end. }
    destruct Hab as [<- Ha]. exists a. split; [exact Ha|].
    cbn [substring]. f_equal. exact Hsplit.
Qed.

(** The selection ['Save'] is extracted as [Save]. *)
Lemma stripMatchingQuotes_unwraps_witness :
  stripMatchingQuotes "'Save'" = "Save".
Proof.
  apply (proj1 stripMatchingQuotes_unwraps "'"%char "Save" eq_refl).
Defined.

(** ** Paths *)

Lemma split_dot_from_app (a b cur : string) :
  split_dot_from cur (a ++ String "." b) = split_dot_from cur a ++ split_dot b.
Proof.
  revert cur. induction a as [|c a IH]; intros cur; simpl.
  - reflexivity.
  - destruct (Ascii.eqb c "."); [now rewrite IH | apply IH].
Qed.

Lemma split_dot_from_plain (s cur : string) :
  includes_dot s = false -> split_dot_from cur s = [(cur ++ s)%string].
Proof.
  revert cur. induction s as [|c s IH]; intros cur H; simpl in *.
  - clear H. induction cur as [|d cur IHc]; simpl; [reflexivity|].
    now injection IHc as <-.
  - apply orb_false_iff in H. destruct H as [Hc Hs]. rewrite Hc, (IH _ Hs).
    f_equal. clear. induction cur as [|d cur IHc]; simpl; [reflexivity | now rewrite IHc].
Qed.

Lemma split_dot_plain (s : string) : includes_dot s = false -> split_dot s = [s].
Proof. intros H. unfold split_dot. now rewrite (split_dot_from_plain s "" H). Qed.

(** X6: descending along [a.b] is descending along [a] and then, from the
    value reached, along [b]. *)
Theorem getNestedValue_composes :
  forall (obj : value) (a b : string),
    getNestedValue obj (a ++ String "." b)
    = getNestedValue (getNestedValue obj a) b.
Proof.
  intros obj a b. unfold getNestedValue, split_dot.
  now rewrite split_dot_from_app, fold_left_app.
Qed.

Lemma split_dot_concat (segs : list string) :
  segs <> [] ->
  Forall (fun s => includes_dot s = false) segs ->
  split_dot (String.concat "." segs) = segs.
Proof.
  intros Hne H. induction H as [|s segs Hs Hsegs IH]; [contradiction|].
  destruct segs as [|s' segs].
  - simpl. now apply split_dot_plain.
  - change (String.concat "." (s :: s' :: segs))
      with (s ++ String "." (String.concat "." (s' :: segs)))%string.
    unfold split_dot at 1. rewrite split_dot_from_app.
    fold (split_dot s). rewrite (split_dot_plain s Hs). simpl. f_equal.
    apply IH. discriminate.
Qed.

Lemma includes_dot_concat (s s' : string) (segs : list string) :
  includes_dot (String.concat "." (s :: s' :: segs)) = true.
Proof.
  change (String.concat "." (s :: s' :: segs))
    with (s ++ String "." (String.concat "." (s' :: segs)))%string.
  rewrite includes_dot_app. simpl. apply orb_true_r.
Qed.

(** ** Finding the key of a text *)

Lemma searchInTranslations_entries (props : list (string * value))
  (text prefix : string) :
  searchInTranslations (VObj props) text prefix = search_entries text prefix props.
Proof.
  induction props as [|[k v] props IH]; [reflexivity|].
  cbn [search_entries]. rewrite <- IH. reflexivity.
Qed.

Lemma assoc_in_nodup (props : list (string * value)) (k : string) (v : value) :
  NoDup (map fst props) -> In (k, v) props -> assoc k props = Some v.
Proof.
  induction props as [|[k' v'] props IH]; intros Hnd Hin; [contradiction|].
  simpl in *. apply NoDup_cons_iff in Hnd. destruct Hnd as [Hnot Hnd].
  destruct Hin as [Heq|Hin].
  - injection Heq as -> ->. now rewrite String.eqb_refl.
  - destruct (String.eqb_spec k k') as [->|_]; [|now apply IH].
    exfalso. apply Hnot. change k' with (fst (k', v)). now apply in_map.
Qed.

Lemma clean_keys_entry (props : list (string * value)) (k : string) (v : value) :
  clean_keys (VObj props) -> In (k, v) props ->
  k <> "" /\ includes_dot k = false /\ clean_keys v.
Proof.
  intros [_ H] Hin. induction props as [|[k' v'] props IH]; [contradiction|].
  destruct H as (H1 & H2 & H3 & H4). destruct Hin as [Heq|Hin].
  - injection Heq as -> ->. auto.
  - now apply IH.
Qed.

Lemma currentKey_of_nested (prefix key rest : string) :
  key <> "" ->
  currentKey_of (currentKey_of prefix key) rest
  = currentKey_of prefix (key ++ String "." rest).
Proof.
  intros Hk. unfold currentKey_of. destruct prefix as [|c prefix]; simpl.
  - destruct key; [contradiction | reflexivity].
  - f_equal. induction prefix as [|d prefix IH]; simpl; [reflexivity | now rewrite IH].
Qed.

(** Where a search from a mapping with plain keys ends: at a path of
    segments that leads from the mapping to the text. *)
Lemma searchInTranslations_path (v : value) :
  forall props text prefix r,
    v = VObj props -> clean_keys v ->
    searchInTranslations v text prefix = Some r ->
    exists segs,
      segs <> []
      /\ Forall (fun s => includes_dot s = false) segs
      /\ r = currentKey_of prefix (String.concat "." segs)
      /\ fold_left nested_step segs v = VStr text.
Proof.
  induction v as [ | | | | | | props0 IH] using value_nested_ind;
    intros props text prefix r Hv Hclean Hs; try discriminate.
  injection Hv as <-. rewrite searchInTranslations_entries in Hs.
  assert (Hloop : forall l,
             incl l props0 -> search_entries text prefix l = Some r ->
             exists segs,
               segs <> []
               /\ Forall (fun s => includes_dot s = false) segs
               /\ r = currentKey_of prefix (String.concat "." segs)
               /\ fold_left nested_step segs (VObj props0) = VStr text).
  { induction l as [|[k x] l IHl]; intros Hincl Hl; [discriminate|].
    assert (Hin : In (k, x) props0) by (apply Hincl; now left).
    assert (Hrest : incl l props0) by (intros e He; apply Hincl; now right).
    destruct (clean_keys_entry props0 k x Hclean Hin) as (Hk & Hdot & Hx).
    assert (Hstep : nested_step (VObj props0) k = x).
    { unfold nested_step. simpl.
      now rewrite (assoc_in_nodup props0 k x (proj1 Hclean) Hin). }
    cbn [search_entries] in Hl.
    destruct x as [ | | b | repr | s | items | child]; try (now apply IHl).
    - destruct (String.eqb_spec s text) as [->|_]; [|now apply IHl].
      injection Hl as <-. exists [k]. repeat split.
      + discriminate.
      + now constructor.
      + simpl. exact Hstep.
    - destruct (searchInTranslations (VObj child) text (currentKey_of prefix k))
        as [nested|] eqn:En; [|now apply IHl].
      destruct (nonempty nested); [|now apply IHl].
      injection Hl as <-.
      rewrite Forall_forall in IH. specialize (IH (k, VObj child) Hin). simpl in IH.
      destruct (IH child text (currentKey_of prefix k) nested eq_refl Hx En)
        as (segs & Hne & Hsegs & Hr & Hfold).
      exists (k :: segs). repeat split.
      + discriminate.
      + now constructor.
      + rewrite Hr. destruct segs as [|s segs]; [contradiction|].
        now rewrite currentKey_of_nested.
      + simpl. rewrite Hstep. exact Hfold. }
  apply (Hloop props0); [apply incl_refl | exact Hs].
Qed.

Lemma currentKey_of_nonempty (prefix k : string) :
  k <> "" -> nonempty (currentKey_of prefix k) = true.
Proof.
  intros Hk. unfold currentKey_of. destruct prefix; simpl; [|reflexivity].
  now destruct k.
Qed.

(** The loop finds a key as soon as one entry holds the text or leads to
    it. *)
Lemma search_entries_hit (text prefix : string) (l : list (string * value)) :
  (forall k v, In (k, v) l -> k <> "") ->
  (exists k v,
      In (k, v) l
      /\ (v = VStr text
          \/ exists child r,
               v = VObj child
               /\ searchInTranslations (VObj child) text (currentKey_of prefix k)
                  = Some r
               /\ nonempty r = true)) ->
  exists r, search_entries text prefix l = Some r /\ nonempty r = true.
Proof.
  induction l as [|[k0 v0] l IH]; intros Hkeys (k & v & Hin & Hhit);
    [contradiction|].
  assert (Hk0 : k0 <> "") by (apply (Hkeys k0 v0); now left).
  assert (Htail : In (k, v) l ->
                  exists r, search_entries text prefix l = Some r /\ nonempty r = true).
  { intros Hl. apply IH; [|now exists k, v].
    intros k' v' H'. apply (Hkeys k' v'). now right. }
  cbn [search_entries].
  destruct v0 as [ | | b | repr | s | items | child0].
  1-4, 6: (destruct Hin as [Heq|Hin]; [|now apply Htail]; injection Heq as <- <-;
           destruct Hhit as [Hv | (c & r & Hv & _)]; discriminate).
  - destruct (String.eqb_spec s text) as [->|Hne].
    + eexists. split; [reflexivity | now apply currentKey_of_nonempty].
    + destruct Hin as [Heq|Hin]; [|now apply Htail]. injection Heq as <- <-.
      destruct Hhit as [Hv | (c & r & Hv & _)]; [congruence | discriminate].
  - destruct (searchInTranslations (VObj child0) text (currentKey_of prefix k0))
      as [nested|] eqn:En.
    + destruct (nonempty nested) eqn:Hn; [now exists nested|].
      destruct Hin as [Heq|Hin]; [|now apply Htail]. injection Heq as <- <-.
      destruct Hhit as [Hv | (c & r & Hv & Hs & Hr)]; [discriminate|].
      injection Hv as <-. congruence.
    + destruct Hin as [Heq|Hin]; [|now apply Htail]. injection Heq as <- <-.
      destruct Hhit as [Hv | (c & r & Hv & Hs & Hr)]; [discriminate|].
      injection Hv as <-. congruence.
Qed.

Lemma clean_keys_nonempty (props : list (string * value)) :
  clean_keys (VObj props) -> forall k v, In (k, v) props -> k <> "".
Proof.
  intros Hc k v Hin. now destruct (clean_keys_entry props k v Hc Hin).
Qed.

Lemma searchInTranslations_finds (text : string) (v : value) :
  occurs text v -> clean_keys v ->
  forall prefix,
    exists r, searchInTranslations v text prefix = Some r /\ nonempty r = true.
Proof.
  induction 1 as [props k Hin | props child k Hin Hocc IH]; intros Hclean prefix;
    rewrite searchInTranslations_entries;
    apply search_entries_hit; try (now apply clean_keys_nonempty).
  - exists k, (VStr text). split; [exact Hin | now left].
  - exists k, (VObj child). split; [exact Hin|]. right.
    destruct (clean_keys_entry props k (VObj child) Hclean Hin) as (_ & _ & Hc).
    destruct (IH Hc (currentKey_of prefix k)) as (r & Hr & Hn).
    now exists child, r.
Qed.

(** X7: what [findExistingTranslation] finds.  Let the base catalogue be
    a mapping whose keys, at every level, are distinct, not empty and
    without a dot.  Then a key that [findExistingTranslation] reports for
    a text resolves to that text in the base catalogue; and a key is
    reported whenever the text occurs in the catalogue, as the value of a
    key of the mapping or of a mapping nested in it. *)
Theorem found_key_resolves :
  forall (host : Host) (ls : LocaleService) (workspacePath text : string)
         (props : list (string * value)),
    loaded host (resolveTranslationPath ls workspacePath
                   (base_locale (loadInlangSettings ls workspacePath)))
    = VObj props ->
    clean_keys (VObj props) ->
    (forall foundKey,
        snd (findExistingTranslation host ls workspacePath text)
        = Normal (Some foundKey) ->
        getTranslation (VObj props) foundKey = Some text)
    /\ (occurs text (VObj props) ->
        exists foundKey,
          snd (findExistingTranslation host ls workspacePath text)
          = Normal (Some foundKey)).
Proof.
  intros host ls ws text props Hload Hclean.
  unfold findExistingTranslation.
  rewrite loadTranslations_settles, Hload.
  unfold bind, try_catch; cbn [fst snd truthy]. split.
  - intros k Hfound.
    destruct (searchInTranslations (VObj props) text "") as [r|] eqn:Es;
      [|discriminate].
    destruct (nonempty r) eqn:Hr; [|discriminate].
    simpl in Hfound. injection Hfound as <-.
    destruct (searchInTranslations_path _ props text "" r eq_refl Hclean Es)
      as (segs & Hne & Hsegs & Heq & Hfold).
    unfold currentKey_of in Heq. simpl in Heq. subst r.
    unfold getTranslation, lookup_key, getNestedValue. simpl negb. cbv iota.
    destruct segs as [|s [|s' segs]]; [contradiction | |].
    + simpl. inversion Hsegs as [|? ? Hs _]; subst. rewrite Hs.
      simpl in Hfold. unfold nested_step in Hfold. simpl in Hfold.
      destruct (assoc s props) as [x|]; [|discriminate]. simpl. now rewrite Hfold.
    + rewrite includes_dot_concat, split_dot_concat by (discriminate || assumption).
      now rewrite Hfold.
  - intros Hocc.
    destruct (searchInTranslations_finds text _ Hocc Hclean "") as (r & Hr & Hn).
    rewrite Hr, Hn. now exists r.
Qed.

(** In a base catalogue that holds [Email] under [login.inputs.email], that
    is the key found for the text, and it resolves to the text. *)
Lemma found_key_resolves_witness :
  getTranslation login_data "login.inputs.email" = Some "Email".
Proof.
  destruct (found_key_resolves
              (table_host [("/w/messages/en.json", "login")] [("login", login_data)])
              (sample_locales "en" ["en"]) "/w" "Email"
              [("login", VObj [("inputs", VObj [("email", VStr "Email")])])])
    as [Hfound _].
  - reflexivity.
  - simpl. repeat split; try discriminate;
      repeat constructor; simpl; intuition discriminate.
  - apply Hfound. reflexivity.
Defined.

(** ** Writing a key *)

Lemma assoc_replace_prop (k : string) (v : value) (props : list (string * value)) :
  has_own k props = true -> assoc k (replace_prop k v props) = Some v.
Proof.
  unfold has_own. induction props as [|[k' v'] props IH]; simpl; [discriminate|].
  destruct (String.eqb k k') eqn:E; simpl.
  - now rewrite String.eqb_refl.
  - now rewrite E.
Qed.

Lemma assoc_replace_prop_other (k k0 : string) (v : value)
  (props : list (string * value)) :
  k0 <> k -> assoc k0 (replace_prop k v props) = assoc k0 props.
Proof.
  intros Hk. induction props as [|[k' v'] props IH]; simpl; [reflexivity|].
  destruct (String.eqb_spec k k') as [<-|_]; simpl.
  - apply String.eqb_neq in Hk. now rewrite Hk.
  - now rewrite IH.
Qed.

Lemma assoc_insert_index_new (i : N) (k : string) (v : value)
  (props : list (string * value)) :
  assoc k props = None -> assoc k (insert_index i k v props) = Some v.
Proof.
  induction props as [|[k' v'] props IH]; simpl; intros H.
  - now rewrite String.eqb_refl.
  - destruct (String.eqb k k') eqn:E; [discriminate|].
    destruct (own_index k') as [j|]; [destruct (j <? i)%N|]; simpl;
      rewrite ?E, ?String.eqb_refl; auto.
Qed.

Lemma assoc_insert_index_other (i : N) (k k0 : string) (v : value)
  (props : list (string * value)) :
  k0 <> k -> assoc k0 (insert_index i k v props) = assoc k0 props.
Proof.
  intros Hk. apply String.eqb_neq in Hk.
  induction props as [|[k' v'] props IH]; simpl.
  - now rewrite Hk.
  - destruct (own_index k') as [j|]; [destruct (j <? i)%N|]; simpl;
      rewrite ?Hk, ?IH; reflexivity.
Qed.

Lemma assoc_app_new (k : string) (v : value) (props : list (string * value)) :
  assoc k props = None -> assoc k (props ++ [(k, v)]) = Some v.
Proof.
  induction props as [|[k' v'] props IH]; simpl; intros H.
  - now rewrite String.eqb_refl.
  - destruct (String.eqb k k'); [discriminate | auto].
Qed.

Lemma assoc_app_other (k k0 : string) (v : value) (props : list (string * value)) :
  k0 <> k -> assoc k0 (props ++ [(k, v)]) = assoc k0 props.
Proof.
  intros Hk. apply String.eqb_neq in Hk.
  induction props as [|[k' v'] props IH]; simpl.
  - now rewrite Hk.
  - now rewrite IH.
Qed.

Lemma assoc_define_prop (k : string) (v : value) (props : list (string * value)) :
  assoc k props = None -> assoc k (define_prop k v props) = Some v.
Proof.
  intros H. unfold define_prop. destruct (own_index k).
  - now apply assoc_insert_index_new.
  - now apply assoc_app_new.
Qed.

Lemma assoc_define_prop_other (k k0 : string) (v : value)
  (props : list (string * value)) :
  k0 <> k -> assoc k0 (define_prop k v props) = assoc k0 props.
Proof.
  intros H. unfold define_prop. destruct (own_index k).
  - now apply assoc_insert_index_other.
  - now apply assoc_app_other.
Qed.

Lemma assoc_assign (k : string) (v : value) (props : list (string * value)) :
  k <> "__proto__" -> assoc k (assign k v props) = Some v.
Proof.
  intros Hk. unfold assign. destruct (has_own k props) eqn:E.
  - now apply assoc_replace_prop.
  - apply String.eqb_neq in Hk. rewrite Hk. apply assoc_define_prop.
    unfold has_own in E. now destruct (assoc k props).
Qed.

Lemma assoc_assign_other (k k0 : string) (v : value) (props : list (string * value)) :
  k0 <> k -> assoc k0 (assign k v props) = assoc k0 props.
Proof.
  intros Hk. unfold assign. destruct (has_own k props).
  - now apply assoc_replace_prop_other.
  - destruct (String.eqb k "__proto__"); [reflexivity|].
    now apply assoc_define_prop_other.
Qed.

Lemma nested_step_own (props : list (string * value)) (k : string) (v : value) :
  assoc k props = Some v -> nested_step (VObj props) k = v.
Proof. intros H. unfold nested_step. simpl. now rewrite H. Qed.

Lemma set_in_reads_back (keys : list string) :
  forall (current obj' : list (string * value)) (lastKey value : string),
    ~ In "__proto__" keys -> lastKey <> "__proto__" ->
    set_in current keys lastKey value = Stored obj' ->
    fold_left nested_step (keys ++ [lastKey]) (VObj obj') = VStr value.
Proof.
  induction keys as [|key others IH]; intros current obj' lastKey value Hk Hl Hs.
  - simpl in *. injection Hs as <-. apply nested_step_own. now apply assoc_assign.
  - assert (Hkey : key <> "__proto__") by (intros ->; apply Hk; now left).
    assert (Hothers : ~ In "__proto__" others) by (intros Hin; apply Hk; now right).
    simpl in Hs.
    assert (Hown : forall child child',
               set_in child others lastKey value = Stored child' ->
               assoc key obj' = Some (VObj child') ->
               fold_left nested_step ((key :: others) ++ [lastKey]) (VObj obj')
               = VStr value).
    { intros child child' Hc Ha. simpl. rewrite (nested_step_own _ _ _ Ha).
      now apply (IH child). }
    destruct (assoc key current) as [x|] eqn:Ea.
    + assert (Hhas : has_own key current = true) by (unfold has_own; now rewrite Ea).
      destruct x as [ | | b | repr | s | items | child];
        try discriminate;
        match type of Hs with
        | match set_in ?c _ _ _ with _ => _ end = _ =>
            destruct (set_in c others lastKey value) as [child'| |] eqn:Ec;
            try discriminate; injection Hs as <-;
            apply (Hown c child' Ec); now apply assoc_replace_prop
        end.
    + apply String.eqb_neq in Hkey. rewrite Hkey in Hs.
      destruct (set_in [] others lastKey value) as [child'| |] eqn:Ec;
        try discriminate. injection Hs as <-.
      apply (Hown [] child' Ec). now apply assoc_define_prop.
Qed.

Lemma split_dot_from_not_nil (cur s : string) : split_dot_from cur s <> [].
Proof.
  revert cur. induction s as [|c s IH]; intros cur; simpl; [discriminate|].
  destruct (Ascii.eqb c "."); [discriminate | apply IH].
Qed.

Lemma set_in_outcome (keys : list string) (lastKey value : string) :
  forall current : list (string * JS.value),
    ~ In "__proto__" keys ->
    (passable current keys ->
     exists obj', set_in current keys lastKey value = Stored obj')
    /\ (~ passable current keys -> set_in current keys lastKey value = Raised).
Proof.
  induction keys as [|key others IH]; intros current Hk.
  - split; [intros _; eexists; reflexivity | intros H; now contradiction H].
  - assert (Hkey : key <> "__proto__") by (intros ->; apply Hk; now left).
    assert (Hothers : ~ In "__proto__" others) by (intros Hin; apply Hk; now right).
    assert (Hfresh : exists child', set_in [] others lastKey value = Stored child').
    { apply (IH [] Hothers). destruct others; exact I. }
    destruct Hfresh as [fresh Hfresh].
    cbn [set_in passable]. destruct (assoc key current) as [x|] eqn:Ea.
    + destruct x as [ | | b | repr | s | items | child];
        try (rewrite Hfresh; split; [intros _; eexists; reflexivity
                                    | intros H; now contradiction H]).
      * split; [intros [] | reflexivity].
      * destruct (IH child Hothers) as [Hyes Hno]. split.
        -- intros Hp. destruct (Hyes Hp) as [child' ->]. eexists; reflexivity.
        -- intros Hp. now rewrite (Hno Hp).
    + apply String.eqb_neq in Hkey. rewrite Hkey, Hfresh.
      split; [intros _; eexists; reflexivity | intros H; now contradiction H].
Qed.

(** X8: a key written by [setNestedValue] reads back.  For a key without
    a segment [__proto__] that, if dotted, does not end in a dot: when no
    [null] stands on the path, the write ends with a stored mapping, and
    [getTranslation] on that mapping resolves the same key to the written
    text, whatever stood on the path before; when a [null] stands on the
    path, the write raises. *)
Theorem setNestedValue_reads_back :
  forall (obj : list (string * JS.value)) (path value : string),
    ~ In "__proto__" (split_dot path) ->
    last (split_dot path) "" <> "" ->
    (passable obj (removelast (split_dot path)) ->
     exists obj',
       setNestedValue obj path value = Stored obj'
       /\ getTranslation (VObj obj') path = Some value)
    /\ (~ passable obj (removelast (split_dot path)) ->
        setNestedValue obj path value = Raised).
Proof.
  intros obj path value Hproto Hlast.
  assert (Hne : split_dot path <> []) by apply split_dot_from_not_nil.
  destruct (exists_last Hne) as (l & x & E).
  assert (Hl : ~ In "__proto__" l)
    by (intros H; apply Hproto; rewrite E; apply in_or_app; now left).
  assert (Hx : x <> "__proto__")
    by (intros H; apply Hproto; rewrite E; apply in_or_app; right; now left).
  unfold setNestedValue, getTranslation, lookup_key. simpl negb. cbv iota.
  destruct (includes_dot path) eqn:Hdot; cbn [negb].
  - assert (Hn : nonempty (last (split_dot path) "") = true)
      by (destruct (last (split_dot path) ""); [contradiction | reflexivity]).
    rewrite Hn. cbn [negb]. unfold getNestedValue.
    rewrite E in *. rewrite removelast_last, last_last.
    destruct (set_in_outcome l x value obj Hl) as [Hyes Hno]. split; [|exact Hno].
    intros Hp. destruct (Hyes Hp) as [obj' Hset]. exists obj'. split; [exact Hset|].
    now rewrite (set_in_reads_back _ obj obj' _ value Hl Hx Hset).
  - rewrite (split_dot_plain path Hdot) in *. split.
    + intros _. eexists. split; [reflexivity|]. simpl.
      rewrite assoc_assign; [reflexivity|].
      intros ->. apply Hproto. now left.
    + intros H. now contradiction H.
Qed.

(** Writing [login.inputs.email] into a mapping that has [login] as a
    text replaces that text by a nested mapping, and the key reads back. *)
Lemma setNestedValue_reads_back_witness :
  exists obj',
    setNestedValue [("title", VStr "Home"); ("login", VStr "Sign in")]
      "login.inputs.email" "Email"
    = Stored obj'
    /\ getTranslation (VObj obj') "login.inputs.email" = Some "Email".
Proof.
  apply (setNestedValue_reads_back
           [("title", VStr "Home"); ("login", VStr "Sign in")]
           "login.inputs.email" "Email").
  - simpl. intuition discriminate.
  - discriminate.
  - exact I.
Defined.

Lemma map_fst_replace_prop (k : string) (v : value) (props : list (string * value)) :
  map fst (replace_prop k v props) = map fst props.
Proof.
  induction props as [|[k' v'] props IH]; simpl; [reflexivity|].
  destruct (String.eqb_spec k k') as [->|_]; simpl; [reflexivity | now rewrite IH].
Qed.

Lemma filter_own_keys (l props : list (string * value)) :
  incl l props ->
  filter (fun k => has_own k props) (map fst l) = map fst l.
Proof.
  induction l as [|[k v] l IH]; intros Hincl; simpl; [reflexivity|].
  assert (Hin : In (k, v) props) by (apply Hincl; now left).
  assert (Hhas : has_own k props = true).
  { unfold has_own. clear -Hin. induction props as [|[k' v'] props IHp];
      [contradiction|]. simpl. destruct (String.eqb_spec k k'); [reflexivity|].
    destruct Hin as [Heq|Hin]; [injection Heq as -> ->; contradiction | auto]. }
  rewrite Hhas, IH; [reflexivity|]. intros e He. apply Hincl. now right.
Qed.

Lemma filter_insert_index (f : string -> bool) (i : N) (k : string) (v : value)
  (props : list (string * value)) :
  f k = false ->
  filter f (map fst (insert_index i k v props)) = filter f (map fst props).
Proof.
  intros Hk. induction props as [|[k' v'] props IH]; simpl.
  - now rewrite Hk.
  - destruct (own_index k') as [j|]; [destruct (j <? i)%N|]; simpl;
      rewrite ?Hk, ?IH; reflexivity.
Qed.

Lemma filter_define_prop (f : string -> bool) (k : string) (v : value)
  (props : list (string * value)) :
  f k = false ->
  filter f (map fst (define_prop k v props)) = filter f (map fst props).
Proof.
  intros Hk. unfold define_prop. destruct (own_index k).
  - now apply filter_insert_index.
  - rewrite map_app, filter_app. simpl. rewrite Hk. apply app_nil_r.
Qed.

Lemma own_keys_assign (k : string) (v : value) (props : list (string * value)) :
  filter (fun k0 => has_own k0 props) (map fst (assign k v props)) = map fst props.
Proof.
  unfold assign. destruct (has_own k props) eqn:E.
  - rewrite map_fst_replace_prop. apply filter_own_keys, incl_refl.
  - destruct (String.eqb k "__proto__").
    + apply filter_own_keys, incl_refl.
    + rewrite filter_define_prop by exact E. apply filter_own_keys, incl_refl.
Qed.

(** X9: what a write leaves alone.  When [setNestedValue] ends with a
    stored mapping, every top-level key other than the first segment of
    the written key has the value it had, and the keys the mapping had
    before enumerate in their former order. *)
Theorem setNestedValue_frame :
  forall (obj obj' : list (string * value)) (path value : string),
    setNestedValue obj path value = Stored obj' ->
    (forall k, k <> hd "" (split_dot path) -> assoc k obj' = assoc k obj)
    /\ filter (fun k => has_own k obj) (map fst obj') = map fst obj.
Proof.
  intros obj obj' path value Hset. unfold setNestedValue in Hset.
  destruct (includes_dot path) eqn:Hdot; simpl in Hset.
  - destruct (nonempty (last (split_dot path) "")); simpl in Hset.
    + assert (Hne := split_dot_from_not_nil "" path). fold (split_dot path) in Hne.
      destruct (split_dot path) as [|key [|key' keys]] eqn:Ek; [contradiction| |].
      * simpl in Hset. injection Hset as <-. split.
        -- intros k Hk. now apply assoc_assign_other.
        -- apply own_keys_assign.
      * change (removelast (key :: key' :: keys))
          with (key :: removelast (key' :: keys)) in Hset.
        cbn [set_in] in Hset. simpl hd.
        destruct (assoc key obj) as [x|] eqn:Ea.
        -- assert (forall child', obj' = replace_prop key (VObj child') obj ->
                     (forall k, k <> key -> assoc k obj' = assoc k obj)
                     /\ filter (fun k => has_own k obj) (map fst obj') = map fst obj).
           { intros child' ->. split.
             - intros k Hk. now apply assoc_replace_prop_other.
             - rewrite map_fst_replace_prop. apply filter_own_keys, incl_refl. }
           destruct x; try discriminate;
             match type of Hset with
             | match ?s with _ => _ end = _ =>
                 destruct s as [child'| |]; try discriminate;
                 injection Hset as <-; now apply (H child')
             end.
        -- destruct (String.eqb key "__proto__"); [discriminate|].
           match type of Hset with
           | match ?s with _ => _ end = _ =>
               destruct s as [child'| |]; try discriminate; injection Hset as <-
           end.
           split.
           ++ intros k Hk. now apply assoc_define_prop_other.
           ++ rewrite filter_define_prop; [apply filter_own_keys, incl_refl|].
              unfold has_own. now rewrite Ea.
    + injection Hset as <-. split; [reflexivity | apply filter_own_keys, incl_refl].
  - injection Hset as <-. rewrite (split_dot_plain path Hdot). simpl. split.
    + intros k Hk. now apply assoc_assign_other.
    + apply own_keys_assign.
Qed.

(** Writing the new key [greet.hello] into a mapping with the keys
    [title] and [login] leaves both as they were, in this order. *)
Lemma setNestedValue_frame_witness :
  (forall k, k <> hd "" (split_dot "greet.hello") ->
     assoc k [("title", VStr "Home"); ("login", VStr "Sign in");
              ("greet", VObj [("hello", VStr "Hello")])]
     = assoc k [("title", VStr "Home"); ("login", VStr "Sign in")])
  /\ filter (fun k => has_own k [("title", VStr "Home"); ("login", VStr "Sign in")])
       (map fst [("title", VStr "Home"); ("login", VStr "Sign in");
                 ("greet", VObj [("hello", VStr "Hello")])])
     = map fst [("title", VStr "Home"); ("login", VStr "Sign in")].
Proof.
  apply (setNestedValue_frame
           [("title", VStr "Home"); ("login", VStr "Sign in")] _ "greet.hello" "Hello").
  reflexivity.
Defined.

(** ** From an inserted call back to its key *)

Lemma last_default {A : Type} (x : A) (l : list A) (d d' : A) :
  last (x :: l) d = last (x :: l) d'.
Proof. revert x. induction l as [|y l IH]; intros x; [reflexivity | apply IH]. Qed.

Lemma star_class_end (q : ascii -> bool) (k : mstate -> option mstate)
  (fuel : nat) (st : mstate) :
  match rest st with [] => True | d :: _ => q d = false end ->
  star_loop (rmatch (Class q)) k fuel st = k st.
Proof.
  intros H. destruct fuel as [|fuel]; [reflexivity|]. simpl.
  destruct (rest st) as [|d tl]; [reflexivity|]. now rewrite H.
Qed.

Lemma star_class_greedy (q : ascii -> bool) (k : mstate -> option mstate)
  (tl : list ascii) (res : mstate) (s : list ascii) :
  forall (st : mstate) (fuel : nat),
    rest st = s ++ tl ->
    Forall (fun d => q d = true) s ->
    match tl with [] => True | d :: _ => q d = false end ->
    List.length s <= fuel ->
    k (after s tl st) = Some res ->
    star_loop (rmatch (Class q)) k fuel st = Some res.
Proof.
  induction s as [|c s IH]; intros st fuel Hrest Hs Htl Hfuel Hk.
  - rewrite star_class_end by (now rewrite Hrest).
    destruct st as [b r p cs]. simpl in *. subst r.
    unfold after in Hk. simpl in Hk. now rewrite Nat.add_0_r in Hk.
  - destruct fuel as [|fuel]; [simpl in Hfuel; lia|].
    inversion Hs as [|? ? Hc Hs']; subst.
    cbn [star_loop rmatch]. rewrite Hrest. cbn [app]. rewrite Hc.
    cbn [advance pos]. 
    replace (S (pos st) =? pos st) with false by (symmetry; apply Nat.eqb_neq; lia).
    assert (E : star_loop (rmatch (Class q)) k fuel (advance c (s ++ tl) st) = Some res).
    { apply IH; try reflexivity; try assumption.
      - simpl in Hfuel. lia.
      - rewrite <- Hk. unfold after, advance. simpl. f_equal. f_equal.
        + destruct (map Some s) as [|x l]; [reflexivity|]. apply last_default.
        + lia. }
    cbn [rmatch] in E. now rewrite E.
Qed.

Lemma no_second_char (c1 c2 : ascii) (r : regex) (tl : list ascii)
  (bef : option ascii) (i : nat) :
  opens_with c1 c2 r -> ~ In c2 tl -> search r bef tl i = None.
Proof.
  intros Hr Hin. destruct (search r bef tl i) as [m|] eqn:E; [|reflexivity].
  destruct (search_bounds c1 c2 r tl Hr bef i m E) as (_ & _ & _ & H).
  now apply nth_error_In in H.
Qed.


Lemma rmatch_cat (r1 r2 : regex) (st : mstate) (k : mstate -> option mstate) :
  rmatch (Cat r1 r2) st k = rmatch r1 st (fun st1 => rmatch r2 st1 k).
Proof. reflexivity. Qed.

Lemma rmatch_chr (c : ascii) (tl : list ascii) (st : mstate)
  (k : mstate -> option mstate) :
  rest st = c :: tl -> rmatch (Chr c) st k = k (advance c tl st).
Proof. intros H. simpl. now rewrite H, Ascii.eqb_refl. Qed.

Lemma rmatch_class (p : ascii -> bool) (c : ascii) (tl : list ascii) (st : mstate)
  (k : mstate -> option mstate) :
  rest st = c :: tl -> p c = true -> rmatch (Class p) st k = k (advance c tl st).
Proof. intros H Hp. simpl. now rewrite H, Hp. Qed.

Lemma rmatch_boundary (st : mstate) (k : mstate -> option mstate) :
  xorb (word_opt (before st)) (word_opt (hd_error (rest st))) = true ->
  rmatch WordBoundary st k = k st.
Proof. intros H. simpl. now rewrite H. Qed.

Lemma rmatch_star_end (q : ascii -> bool) (st : mstate)
  (k : mstate -> option mstate) :
  match rest st with [] => True | d :: _ => q d = false end ->
  rmatch (Star (Class q)) st k = k st.
Proof. intros H. now apply star_class_end. Qed.

Lemma rmatch_star_greedy (q : ascii -> bool) (s tl : list ascii) (st res : mstate)
  (k : mstate -> option mstate) :
  rest st = s ++ tl ->
  Forall (fun d => q d = true) s ->
  match tl with [] => True | d :: _ => q d = false end ->
  k (after s tl st) = Some res ->
  rmatch (Star (Class q)) st k = Some res.
Proof.
  intros Hrest Hs Htl Hk. apply (star_class_greedy q k tl res s); try assumption.
  rewrite Hrest, length_app. lia.
Qed.

Lemma rmatch_group (n : nat) (r : regex) (st : mstate) (k : mstate -> option mstate) :
  rmatch (Group n r) st k
  = rmatch r st
      (fun st1 =>
         k {| before := before st1; rest := rest st1; pos := pos st1;
              caps := (n, firstn (pos st1 - pos st) (rest st)) :: caps st1 |}).
Proof. reflexivity. Qed.

(** An empty argument list is read. *)
Lemma arguments_empty (n : nat) (st : mstate) (tl : list ascii) :
  rest st = "("%char :: ")"%char :: tl ->
  rmatch (arguments n) st Some
  = Some {| before := Some ")"%char; rest := tl; pos := S (S (pos st));
            caps := (n, []) :: caps st |}.
Proof.
  intros Hrest. unfold arguments. cbn [cat].
  rewrite rmatch_cat, rmatch_star_end by now rewrite Hrest.
  rewrite rmatch_cat, (rmatch_chr _ _ _ _ Hrest).
  rewrite rmatch_cat, rmatch_star_end by reflexivity.
  rewrite rmatch_cat, rmatch_group, rmatch_star_end by reflexivity.
  rewrite rmatch_cat, rmatch_star_end by reflexivity.
  rewrite (rmatch_chr _ tl) by reflexivity.
  cbn [advance pos caps rest before]. now rewrite Nat.sub_diag.
Qed.

Lemma flat_call_matched (bef : option ascii) (key tl : list ascii) (i : nat) :
  word_opt bef = false ->
  is_identifier key ->
  rmatch flatPattern
    {| before := bef; rest := "m" :: "." :: key ++ "(" :: ")" :: tl;
       pos := i; caps := [] |}%char Some
  = Some {| before := Some ")"%char; rest := tl;
            pos := i + List.length key + 4;
            caps := [(2, []); (1, key)] |}.
Proof.
  intros Hbef Hkey. destruct key as [|c s]; [contradiction|].
  destruct Hkey as [Hc Hs].
  unfold flatPattern. cbn [cat].
  rewrite rmatch_cat, rmatch_boundary by (cbn [before rest hd_error]; now rewrite Hbef).
  rewrite rmatch_cat, (rmatch_chr "m" ("." :: (c :: s) ++ "(" :: ")" :: tl))%char
    by reflexivity.
  rewrite rmatch_cat, (rmatch_chr "." ((c :: s) ++ "(" :: ")" :: tl))%char
    by reflexivity.
  rewrite rmatch_cat, rmatch_group, rmatch_cat.
  rewrite (rmatch_class _ c (s ++ "(" :: ")" :: tl))%char by (reflexivity || exact Hc).
  apply (rmatch_star_greedy _ s ("(" :: ")" :: tl)%char);
    [reflexivity | exact Hs | reflexivity |].
  rewrite (arguments_empty 2 _ tl) by reflexivity.
  cbn [after advance pos caps rest before].
  f_equal. f_equal.
  - simpl. lia.
  - f_equal. f_equal.
    replace (S (S (S i)) + List.length s - S (S i)) with (S (List.length s)) by lia.
    cbn [firstn app]. f_equal.
    now rewrite firstn_app, firstn_all, Nat.sub_diag, app_nil_r.
Qed.

Lemma rmatch_other_first (c1 c2 d : ascii) (r : regex) (bef : option ascii)
  (tl : list ascii) (i : nat) (cs : list (nat * list ascii))
  (k : mstate -> option mstate) :
  opens_with c1 c2 r -> c1 <> d ->
  rmatch r {| before := bef; rest := d :: tl; pos := i; caps := cs |} k = None.
Proof.
  intros (r' & ->) Hd. cbn [rmatch rest]. destruct (xorb _ _); [|reflexivity].
  apply Ascii.eqb_neq in Hd. now rewrite Hd.
Qed.

Lemma exec_loop_single (c1 c2 : ascii) (r : regex) (t : list ascii)
  (m : exec_result) :
  opens_with c1 c2 r ->
  exec r t 0 = Some m ->
  ~ In c2 (skipn (lastIndex m) t) ->
  exec_loop (S (List.length t)) r t 0 = [m].
Proof.
  intros Hr Hm Hin. cbn [exec_loop]. rewrite Hm. f_equal.
  destruct (List.length t) as [|fuel]; [reflexivity|]. cbn [exec_loop].
  unfold exec. destruct (_ <? _); [reflexivity|].
  now rewrite (no_second_char c1 c2 r _ _ _ Hr Hin).
Qed.

Lemma exec_loop_none (c1 c2 : ascii) (r : regex) (t : list ascii) (fuel : nat) :
  opens_with c1 c2 r -> ~ In c2 t -> exec_loop fuel r t 0 = [].
Proof.
  intros Hr Hin. destruct fuel as [|fuel]; [reflexivity|]. cbn [exec_loop].
  unfold exec. cbn [Nat.ltb Nat.leb skipn].
  now rewrite (no_second_char c1 c2 r _ _ _ Hr Hin).
Qed.

Lemma ident_part_not (s : list ascii) (d : ascii) :
  ident_part d = false -> Forall (fun x => ident_part x = true) s -> ~ In d s.
Proof.
  intros Hd H Hin. rewrite Forall_forall in H. apply H in Hin. congruence.
Qed.

(** X10: the call text [formatKeyCall] makes for a key that is an
    identifier is read back by the scanner as exactly one call: a flat call
    of that key, without parameters, that spans the call text (inside the
    braces of a template interpolation). *)
Theorem formatted_flat_key_is_scanned :
  forall (key : string) (t : interpolation),
    is_identifier (list_ascii_of_string key) ->
    findTranslationCalls (formatKeyCall key t)
    = [ {| methodName := key; params := "";
           start := offset t; end_ := offset t + String.length key + 4;
           keyType_ := flat |} ].
Proof.
  intros key t Hkey.
  assert (Hparts : Forall (fun x => ident_part x = true) (list_ascii_of_string key)).
  { destruct (list_ascii_of_string key) as [|c s]; [contradiction|].
    destruct Hkey as [Hc Hs]. constructor; [now apply ident_start_part | exact Hs]. }
  assert (Hdot : includes_dot key = false).
  { rewrite <- (string_of_list_ascii_of_string key). now apply identifier_no_dot. }
  set (K := list_ascii_of_string key) in *.
  set (m := {| index := offset t; lastIndex := offset t + List.length K + 4;
               groups := [(2, []); (1, K)] |}).
  assert (Htext : list_ascii_of_string (formatKeyCall key t)
                  = (match t with template => ["{"] | code => [] end
                     ++ "m" :: "." :: K
                     ++ "(" :: ")" :: match t with template => ["}"] | code => [] end)%char).
  { unfold formatKeyCall. rewrite Hdot.
    destruct t; cbn [append list_ascii_of_string app].
    - rewrite !list_ascii_app. cbn [list_ascii_of_string].
      now rewrite <- app_assoc.
    - now rewrite list_ascii_app. }
  assert (Hflat : matches flatPattern (formatKeyCall key t) = [m]).
  { unfold matches. rewrite Htext.
    apply (exec_loop_single "m" "." _ _ _ flatPattern_opens).
    - destruct t; unfold exec; cbn [app Nat.ltb Nat.leb skipn search].
      + rewrite (rmatch_other_first "m" "." "{" flatPattern _ _ _ _ _ flatPattern_opens)
          by discriminate.
        now rewrite (flat_call_matched (Some "{"%char) K ["}"%char] 1 eq_refl Hkey).
      + now rewrite (flat_call_matched None K [] 0 eq_refl Hkey).
    - cbn [lastIndex m].
      assert (Hskip : forall pre tl : list ascii,
                 skipn (List.length pre + List.length K + 4)
                   (pre ++ "m" :: "." :: K ++ "(" :: ")" :: tl)%char = tl).
      { intros pre tl.
        replace (pre ++ "m" :: "." :: K ++ "(" :: ")" :: tl)%char
          with ((pre ++ "m" :: "." :: K ++ ["("; ")"]) ++ tl)%char
          by (rewrite <- !app_assoc; cbn [app]; now rewrite <- app_assoc).
        rewrite skipn_app.
        replace (List.length pre + List.length K + 4)
          with (List.length (pre ++ "m" :: "." :: K ++ ["("; ")"])%char)
          by (rewrite !length_app; cbn [List.length]; rewrite length_app;
              cbn [List.length]; lia).
        now rewrite skipn_all, Nat.sub_diag. }
      destruct t; [rewrite (Hskip ["{"%char]) | rewrite (Hskip [])];
        simpl; intuition discriminate. }
  assert (Hnested : matches nestedPattern (formatKeyCall key t) = []).
  { unfold matches. rewrite Htext.
    apply (exec_loop_none "m" "[" _ _ _ nestedPattern_opens).
    intros Hin.
    assert (HK : ~ In "["%char K) by now apply ident_part_not.
    destruct t; cbn [app] in Hin; repeat (destruct Hin as [Hin|Hin]; [discriminate|]);
      apply in_app_or in Hin; destruct Hin as [Hin|Hin]; try contradiction;
      simpl in Hin; intuition discriminate. }
  unfold findTranslationCalls. rewrite Hflat, Hnested. cbn [map app sort_by_start insert_by_start].
  unfold flat_call, group. cbn [m groups capture Nat.eqb index lastIndex trim rev trim_start].
  unfold K. rewrite string_of_list_ascii_of_string.
  cbn [string_of_list_ascii]. unfold K. now rewrite length_text.
Qed.

(** The template interpolation of [save_all] holds one flat call. *)
Lemma formatted_flat_key_is_scanned_witness :
  findTranslationCalls "{m.save_all()}"
  = [ {| methodName := "save_all"; params := ""; start := 1; end_ := 13;
         keyType_ := flat |} ].
Proof.
  apply (formatted_flat_key_is_scanned "save_all" template).
  split; [reflexivity | repeat constructor].
Defined.

Lemma rmatch_boundary_inv (st res : mstate) (k : mstate -> option mstate) :
  rmatch WordBoundary st k = Some res -> k st = Some res.
Proof. simpl. now destruct (xorb _ _). Qed.

Lemma rmatch_chr_inv (c : ascii) (st res : mstate) (k : mstate -> option mstate) :
  rmatch (Chr c) st k = Some res ->
  exists tl, rest st = c :: tl /\ k (advance c tl st) = Some res.
Proof.
  simpl. destruct (rest st) as [|d tl]; [discriminate|].
  destruct (Ascii.eqb_spec c d) as [->|]; [|discriminate]. intros H. now exists tl.
Qed.

Lemma rmatch_class_inv (p : ascii -> bool) (st res : mstate)
  (k : mstate -> option mstate) :
  rmatch (Class p) st k = Some res ->
  exists c tl, rest st = c :: tl /\ p c = true /\ k (advance c tl st) = Some res.
Proof.
  simpl. destruct (rest st) as [|d tl]; [discriminate|].
  destruct (p d) eqn:E; [|discriminate]. intros H. now exists d, tl.
Qed.

Lemma rmatch_star_inv (q : ascii -> bool) (st res : mstate)
  (k : mstate -> option mstate) :
  rmatch (Star (Class q)) st k = Some res ->
  exists s st',
    Forall (fun c => q c = true) s /\ consumed s st st' /\ k st' = Some res.
Proof. apply star_class. Qed.

(** What a match of the flat pattern reads first: [m], a dot, one or more
    identifier characters, white space if any, and an opening
    parenthesis. *)
Lemma flat_match_shape (st res : mstate) :
  rmatch flatPattern st Some = Some res ->
  exists c s sp more,
    rest st = ("m" :: "." :: (c :: s) ++ sp ++ "(" :: more)%char
    /\ Forall (fun d => ident_part d = true) (c :: s)
    /\ Forall (fun d => is_space d = true) sp.
Proof.
  intros H. unfold flatPattern, arguments in H. cbn [cat] in H.
  rewrite rmatch_cat in H. apply rmatch_boundary_inv in H.
  rewrite rmatch_cat in H. apply rmatch_chr_inv in H. destruct H as (tl1 & H1 & H).
  rewrite rmatch_cat in H. apply rmatch_chr_inv in H. destruct H as (tl2 & H2 & H).
  rewrite rmatch_cat, rmatch_group, rmatch_cat in H.
  apply rmatch_class_inv in H. destruct H as (c & tl3 & H3 & Hc & H).
  apply rmatch_star_inv in H. destruct H as (s & st4 & Hs & (H4 & _) & H).
  rewrite rmatch_cat in H.
  apply rmatch_star_inv in H. destruct H as (sp & st5 & Hsp & (H5 & _) & H).
  rewrite rmatch_cat in H. apply rmatch_chr_inv in H. destruct H as (more & H6 & _).
  exists c, s, sp, more. cbn [advance rest] in *.
  rewrite H1, H2, H3, H4, H5, H6. split; [reflexivity|]. split; [|exact Hsp].
  constructor; [now apply ident_start_part | exact Hs].
Qed.

Lemma search_suffix (r : regex) (tl : list ascii) :
  forall bef i m,
    search r bef tl i = Some m ->
    exists pre st res, tl = pre ++ rest st /\ rmatch r st Some = Some res.
Proof.
  induction tl as [|d tl IH]; intros bef i m H; cbn [search] in H.
  - destruct (rmatch r _ Some) as [res|] eqn:E; [|discriminate].
    exists [], {| before := bef; rest := []; pos := i; caps := [] |}, res. now split.
  - destruct (rmatch r _ Some) as [res|] eqn:E.
    + exists [], {| before := bef; rest := d :: tl; pos := i; caps := [] |}, res.
      now split.
    + apply IH in H. destruct H as (pre & st & res & -> & H).
      exists (d :: pre), st, res. now split.
Qed.

Lemma split_at_only {A : Type} (x : A) (l1 : list A) :
  forall l2 l1' l2',
    l1 ++ x :: l2 = l1' ++ x :: l2' -> ~ In x l1 -> ~ In x l2 -> l1 = l1'.
Proof.
  induction l1 as [|a l1 IH]; intros l2 l1' l2' H H1 H2; destruct l1' as [|b l1'];
    simpl in H.
  - reflexivity.
  - injection H as <- H. exfalso. apply H2. rewrite H. apply in_or_app. right. now left.
  - injection H as -> H. exfalso. apply H1. now left.
  - injection H as -> H. f_equal. apply (IH l2 l1' l2' H); [|exact H2].
    intros Hin. apply H1. now right.
Qed.

(** The flat pattern finds nothing in a text whose only opening
    parenthesis comes right after a character that is neither an
    identifier character nor white space. *)
Lemma flat_search_none (A0 B : list ascii) (z : ascii) (bef : option ascii) (i : nat) :
  ~ In "("%char (A0 ++ [z]) -> ~ In "("%char B ->
  ident_part z = false -> is_space z = false ->
  search flatPattern bef ((A0 ++ [z]) ++ "("%char :: B) i = None.
Proof.
  intros HA HB Hz1 Hz2.
  destruct (search flatPattern bef _ i) as [m|] eqn:E; [|reflexivity]. exfalso.
  apply search_suffix in E. destruct E as (pre & st & res & Ht & Hr).
  apply flat_match_shape in Hr. destruct Hr as (c & s & sp & more & Hrest & Hcs & Hsp).
  rewrite Hrest in Ht.
  assert (Hlast : exists Y y, (c :: s) ++ sp = Y ++ [y]
                              /\ (ident_part y = true \/ is_space y = true)).
  { destruct (@exists_last _ ((c :: s) ++ sp)) as (Y & y & E); [discriminate|].
    exists Y, y. split; [exact E|].
    assert (Hin : In y ((c :: s) ++ sp)) by (rewrite E; apply in_or_app; right; now left).
    apply in_app_or in Hin. rewrite Forall_forall in Hcs, Hsp.
    destruct Hin as [Hin|Hin]; [left; now apply Hcs | right; now apply Hsp]. }
  destruct Hlast as (Y & y & EY & Hy).
  assert (E2 : (c :: s) ++ sp ++ "("%char :: more = Y ++ [y] ++ "("%char :: more)
    by (rewrite app_assoc, EY, <- app_assoc; reflexivity).
  rewrite E2 in Ht.
  change (pre ++ "m" :: "." :: Y ++ [y] ++ "(" :: more)%char
    with (pre ++ ("m" :: "." :: Y) ++ [y] ++ "(" :: more)%char in Ht.
  rewrite !app_assoc in Ht.
  apply split_at_only in Ht; [|exact HA|exact HB].
  apply app_inj_tail in Ht. destruct Ht as [_ ->].
  destruct Hy; congruence.
Qed.

Lemma rmatch_backref (n : nat) (s : list ascii) (st st1 : mstate)
  (k : mstate -> option mstate) :
  capture n (caps st) = Some s -> eat s st = Some st1 ->
  rmatch (Backref n) st k = k st1.
Proof. intros Hc He. simpl. now rewrite Hc, He. Qed.

Lemma nested_call_matched (bef : option ascii) (key tl : list ascii) (i : nat) :
  word_opt bef = false ->
  key <> [] ->
  Forall (fun c => not_quote c = true) key ->
  rmatch nestedPattern
    {| before := bef;
       rest := "m"%char :: "["%char :: dquote
               :: key ++ dquote :: "]"%char :: "("%char :: ")"%char :: tl;
       pos := i; caps := [] |} Some
  = Some {| before := Some ")"%char; rest := tl;
            pos := i + List.length key + 7;
            caps := [(3, []); (2, key); (1, [dquote])] |}.
Proof.
  intros Hbef Hne Hkey. destruct key as [|c s]; [contradiction|].
  inversion Hkey as [|? ? Hc Hs]; subst.
  unfold nestedPattern, Plus. cbn [cat].
  rewrite rmatch_cat, rmatch_boundary by (cbn [before rest hd_error]; now rewrite Hbef).
  rewrite rmatch_cat. erewrite (rmatch_chr "m") by reflexivity.
  rewrite rmatch_cat. erewrite (rmatch_chr "[") by reflexivity.
  rewrite rmatch_cat, rmatch_group. erewrite (rmatch_class _ dquote) by reflexivity.
  cbn [advance pos caps rest before].
  replace (S (S (S i)) - S (S i)) with 1 by lia. cbn [firstn].
  rewrite rmatch_cat, rmatch_group, rmatch_cat.
  erewrite (rmatch_class _ c) by (reflexivity || exact Hc).
  apply (rmatch_star_greedy _ s (dquote :: "]" :: "(" :: ")" :: tl)%char);
    [reflexivity | exact Hs | reflexivity |].
  cbn [after advance pos caps rest before].
  rewrite rmatch_cat. erewrite (rmatch_backref 1) by reflexivity.
  rewrite rmatch_cat. erewrite (rmatch_chr "]") by reflexivity.
  rewrite (arguments_empty 3 _ tl) by reflexivity.
  cbn [advance pos caps rest before].
  f_equal. f_equal.
  - simpl. lia.
  - f_equal. f_equal. f_equal.
    replace (S (S (S (S i))) + List.length s - S (S (S i))) with (S (List.length s))
      by lia.
    cbn [firstn app]. f_equal.
    now rewrite firstn_app, firstn_all, Nat.sub_diag, app_nil_r.
Qed.

(** X11: the call text [formatKeyCall] makes for a dotted key that holds
    no single quote, double quote or opening parenthesis is read back by
    the scanner as exactly one call: a nested call of that key, without
    parameters, that spans the call text. *)
Theorem formatted_nested_key_is_scanned :
  forall (key : string) (t : interpolation),
    includes_dot key = true ->
    Forall (fun c => not_quote c = true /\ c <> "("%char) (list_ascii_of_string key) ->
    findTranslationCalls (formatKeyCall key t)
    = [ {| methodName := key; params := "";
           start := offset t; end_ := offset t + String.length key + 7;
           keyType_ := nested |} ].
Proof.
  intros key t Hdot Hkey.
  set (K := list_ascii_of_string key) in *.
  assert (Hq : Forall (fun c => not_quote c = true) K)
    by (eapply Forall_impl; [|exact Hkey]; now intros c [Hc _]).
  assert (Hp : ~ In "("%char K).
  { intros Hin. rewrite Forall_forall in Hkey. now destruct (Hkey _ Hin). }
  assert (Hne : K <> []).
  { unfold K. destruct key; [discriminate Hdot | discriminate]. }
  set (pre := match t with template => ["{"%char] | code => [] end).
  set (post := match t with template => ["}"%char] | code => [] end).
  set (m := {| index := offset t; lastIndex := offset t + List.length K + 7;
               groups := [(3, []); (2, K); (1, [dquote])] |}).
  assert (Htext : list_ascii_of_string (formatKeyCall key t)
                  = pre ++ "m"%char :: "["%char :: dquote
                        :: K ++ dquote :: "]"%char :: "("%char :: ")"%char :: post).
  { unfold formatKeyCall, pre, post. rewrite Hdot.
    destruct t; cbn [append list_ascii_of_string app].
    - rewrite !list_ascii_app. cbn [list_ascii_of_string app].
      now rewrite <- app_assoc.
    - now rewrite list_ascii_app. }
  assert (Hnested : matches nestedPattern (formatKeyCall key t) = [m]).
  { unfold matches. rewrite Htext.
    apply (exec_loop_single "m" "[" _ _ _ nestedPattern_opens).
    - unfold pre, post. destruct t; unfold exec; cbn [app Nat.ltb Nat.leb skipn search].
      + rewrite (rmatch_other_first "m" "[" "{" nestedPattern _ _ _ _ _
                   nestedPattern_opens) by discriminate.
        now rewrite (nested_call_matched (Some "{"%char) K ["}"%char] 1 eq_refl Hne Hq).
      + now rewrite (nested_call_matched None K [] 0 eq_refl Hne Hq).
    - cbn [lastIndex m].
      replace (pre ++ "m"%char :: "["%char :: dquote
                   :: K ++ dquote :: "]"%char :: "("%char :: ")"%char :: post)
        with ((pre ++ "m"%char :: "["%char :: dquote
                   :: K ++ [dquote; "]"; "("; ")"]%char) ++ post)
        by (rewrite <- !app_assoc; cbn [app]; now rewrite <- app_assoc).
      rewrite skipn_app.
      replace (offset t + List.length K + 7)
        with (List.length (pre ++ "m"%char :: "["%char :: dquote
                               :: K ++ [dquote; "]"; "("; ")"]%char))
        by (rewrite !length_app; cbn [List.length]; rewrite length_app;
            unfold pre; destruct t; cbn [List.length offset]; lia).
      rewrite skipn_all, Nat.sub_diag. cbn [skipn app].
      unfold post. destruct t; simpl; intuition discriminate. }
  assert (Hflat : matches flatPattern (formatKeyCall key t) = []).
  { unfold matches. rewrite Htext. cbn [exec_loop]. unfold exec.
    cbn [Nat.ltb Nat.leb skipn].
    replace (pre ++ "m"%char :: "["%char :: dquote
                 :: K ++ dquote :: "]"%char :: "("%char :: ")"%char :: post)
      with (((pre ++ "m"%char :: "["%char :: dquote :: K ++ [dquote]) ++ ["]"%char])
              ++ "("%char :: ")"%char :: post)
      by (rewrite <- !app_assoc; cbn [app]; rewrite <- !app_assoc; reflexivity).
    rewrite flat_search_none; try reflexivity.
    - intros Hin. rewrite !in_app_iff in Hin. cbn [In] in Hin. rewrite in_app_iff in Hin.
      unfold pre in Hin. destruct t; simpl in Hin; intuition discriminate.
    - unfold post. destruct t; simpl; intuition discriminate. }
  unfold findTranslationCalls. rewrite Hflat, Hnested.
  cbn [map app sort_by_start insert_by_start].
  unfold nested_call, group.
  cbn [m groups capture Nat.eqb index lastIndex trim rev trim_start].
  unfold K. rewrite string_of_list_ascii_of_string.
  cbn [string_of_list_ascii]. now rewrite length_text.
Qed.

(** The call made for [login.inputs.email] holds one nested call. *)
Lemma formatted_nested_key_is_scanned_witness :
  findTranslationCalls (formatKeyCall "login.inputs.email" code)
  = [ {| methodName := "login.inputs.email"; params := ""; start := 0; end_ := 25;
         keyType_ := nested |} ].
Proof.
  apply (formatted_nested_key_is_scanned "login.inputs.email" code).
  - reflexivity.
  - repeat constructor; discriminate.
Defined.

(** ** What a pass reports and what it reads *)

Section Pass.
Variable host : Host.
Variable ls : LocaleService.
Variable translations : value.
Variables workspacePath currentLocale : string.

Lemma first_hit_split (k : string) (cands : list string) (found : SearchResult) :
  snd (first_hit host ls workspacePath k cands) = Some found ->
  exists pre post,
    cands = pre ++ locale found :: post
    /\ Forall (fun l' => candidate_value host ls workspacePath k l' = None) pre
    /\ candidate_value host ls workspacePath k (locale found)
       = Some (translation found).
Proof.
  induction cands as [|l cands IH]; simpl; [discriminate|].
  destruct (candidate_value host ls workspacePath k l) as [v|] eqn:E; simpl.
  - intros H. injection H as <-. exists [], cands. simpl. auto.
  - intros H. destruct (IH H) as (pre & post & -> & Hpre & Hv).
    exists (l :: pre), post. repeat split; [now constructor | exact Hv].
Qed.

Lemma first_hit_loads_candidate (k : string) (cands : list string) (e : event) :
  In e (fst (first_hit host ls workspacePath k cands)) ->
  exists l, In l cands /\ e = load_event ls workspacePath l.
Proof.
  induction cands as [|l cands IH]; simpl; [contradiction|].
  destruct (candidate_value host ls workspacePath k l); simpl.
  - intros [<-|[]]. exists l. auto.
  - intros [<-|H]; [exists l; auto|].
    destruct (IH H) as (l' & Hin & ->). exists l'. auto.
Qed.

Lemma process_call_explained (c : TranslationCall) (r : TranslationResult) :
  snd (process_call host ls translations workspacePath currentLocale c) = Normal r ->
  explained host ls translations workspacePath currentLocale c r.
Proof.
  destruct (truthy_string (getTranslation translations (methodName c))) eqn:T.
  - destruct (getTranslation translations (methodName c)) as [s|] eqn:E;
      [|discriminate].
    rewrite (process_call_resolved host ls translations workspacePath currentLocale
               c s E) by (intros ->; discriminate).
    simpl. intros H. injection H as <-. split; [reflexivity|]. simpl.
    rewrite E. auto.
  - rewrite (process_call_searched host ls translations workspacePath currentLocale
               c T). simpl.
    destruct (snd (first_hit _ _ _ _ _)) as [found|] eqn:E;
      intros H; injection H as <-; (split; [reflexivity|]); simpl.
    + split; [exact T|]. apply first_hit_split in E.
      destruct E as (pre & post & Hc & Hpre & Hv).
      exists (locale found), (translation found), pre, post. auto.
    + repeat split; try exact T. now apply first_hit_none_inv.
Qed.

Lemma process_call_events (calls : list TranslationCall) (c : TranslationCall)
  (e : event) :
  In c calls ->
  In e (fst (process_call host ls translations workspacePath currentLocale c)) ->
  pass_event ls translations workspacePath currentLocale calls e.
Proof.
  intros Hc Hin.
  destruct (truthy_string (getTranslation translations (methodName c))) eqn:T.
  - destruct (getTranslation translations (methodName c)) as [s|] eqn:E;
      [|discriminate].
    rewrite (process_call_resolved host ls translations workspacePath currentLocale
               c s E) in Hin by (intros ->; discriminate).
    contradiction.
  - rewrite (process_call_searched host ls translations workspacePath currentLocale
               c T) in Hin.
    destruct Hin as [<-|Hin].
    + simpl. repeat split; [exact T|]. now exists c.
    + apply first_hit_loads_candidate in Hin. destruct Hin as (l & Hl & ->).
      simpl. split; [reflexivity|]. unfold candidates in Hl.
      apply filter_In in Hl. destruct Hl as [Hl Hne]. split; [exact Hl|].
      intros ->. now rewrite String.eqb_refl in Hne.
Qed.

End Pass.

Section PassReads.
Variable host : Host.
Variable ls : LocaleService.
Variable translations : value.
Variables workspacePath currentLocale : string.

Lemma process_call_reads (c : TranslationCall) :
  call_reads host ls translations workspacePath currentLocale c
    (fst (process_call host ls translations workspacePath currentLocale c)).
Proof.
  unfold call_reads.
  destruct (truthy_string (getTranslation translations (methodName c))) eqn:T.
  - destruct (getTranslation translations (methodName c)) as [s|] eqn:E;
      [|discriminate].
    rewrite (process_call_resolved host ls translations workspacePath currentLocale
               c s E) by (intros ->; discriminate).
    reflexivity.
  - rewrite (process_call_searched host ls translations workspacePath currentLocale
               c T). cbn [fst].
    destruct (snd (first_hit host ls workspacePath (methodName c)
                     (candidates ls workspacePath currentLocale)))
      as [found|] eqn:E.
    + destruct (first_hit_split host ls workspacePath _ _ _ E)
        as (pre & post & Hc & Hpre & Hv).
      exists (pre ++ [locale found]). split.
      * rewrite Hc.
        now rewrite (first_hit_found host ls workspacePath _ pre post
                       (locale found) (translation found) Hpre Hv).
      * left. exists pre, (locale found), (translation found), post. auto.
    + apply first_hit_none_inv in E.
      exists (candidates ls workspacePath currentLocale). split.
      * now rewrite (first_hit_none host ls workspacePath _ _ E).
      * right. auto.
Qed.

Lemma resolved_calls_silent (calls : list TranslationCall) :
  Forall (fun c => truthy_string (getTranslation translations (methodName c)) = true)
         calls ->
  flat_map (fun c => fst (process_call host ls translations workspacePath
                            currentLocale c)) calls = [].
Proof.
  intros H. induction H as [|c calls Hc _ IH]; simpl; [reflexivity|].
  rewrite IH, app_nil_r.
  pose proof (process_call_reads c) as R. unfold call_reads in R.
  now rewrite Hc in R.
Qed.

Lemma load_needs_unresolved (calls : list TranslationCall) (p l : string) :
  In (LoadTranslations p l)
     (flat_map (fun c => fst (process_call host ls translations workspacePath
                                currentLocale c)) calls) ->
  exists c, In c calls
            /\ truthy_string (getTranslation translations (methodName c)) = false.
Proof.
  rewrite in_flat_map. intros (c & Hc & Hin). exists c. split; [exact Hc|].
  pose proof (process_call_reads c) as R. unfold call_reads in R.
  destruct (truthy_string (getTranslation translations (methodName c)));
    [|reflexivity].
  rewrite R in Hin. contradiction.
Qed.

End PassReads.

(** X12: every result of a resolution pass is explained by its call.
    The pass ends with one result per call, in the order of the calls,
    each carrying its call; a result without warning shows the value of
    the active data, which is not empty; a [missingLocale] result shows
    the value of the first configured locale, other than the active one,
    that has a value that is not empty, the active data having none; a
    [noLocale] result means that no such locale has one either. *)
Theorem results_explained :
  forall (host : Host) (ls : LocaleService) (translationCalls : list TranslationCall)
         (translations : value) (workspacePath currentLocale : string),
    exists results,
      snd (processTranslationCallsWithWarnings host ls translationCalls
             translations workspacePath currentLocale) = Normal results
      /\ map call results = translationCalls
      /\ Forall2 (explained host ls translations workspacePath currentLocale)
                 translationCalls results.
Proof.
  intros host ls calls translations ws cur.
  unfold processTranslationCallsWithWarnings.
  destruct (process_calls_spec host ls translations ws cur calls [])
    as (rs & Hrs & HF & _).
  exists rs. split; [exact Hrs|].
  assert (H2 : Forall2 (explained host ls translations ws cur) calls rs).
  { clear Hrs. induction HF as [|c r calls rs Hr _ IH]; [constructor|].
    constructor; [now apply process_call_explained | exact IH]. }
  split; [|exact H2].
  clear -H2. induction H2 as [|c r calls rs [Hr _] _ IH]; simpl; [reflexivity|].
  now rewrite Hr, IH.
Qed.

(** X13: what a resolution pass reads.  The events of the pass are those
    of its calls, in the order of the calls.  A call that the active data
    resolve to a text that is not empty causes no event: no search and no
    load.  Any other call causes one search for its key, followed by the
    loads of the files of the configured locales other than the active
    one, in their order, up to and including the first whose data resolve
    the key to a text that is not empty.  Hence every load is made under
    the name of a configured locale other than the active one, at the path
    of that locale, and only when some call is not resolved; when all
    calls are resolved the pass reads nothing; and when the paths of the
    other configured locales differ from the path of the active locale,
    the file of the active locale is never loaded. *)
Theorem pass_reads_other_locales_only :
  forall (host : Host) (ls : LocaleService) (translationCalls : list TranslationCall)
         (translations : value) (workspacePath currentLocale : string),
    (forall e,
        In e (fst (processTranslationCallsWithWarnings host ls translationCalls
                     translations workspacePath currentLocale)) ->
        pass_event ls translations workspacePath currentLocale translationCalls e)
    /\ (exists blocks,
           fst (processTranslationCallsWithWarnings host ls translationCalls
                  translations workspacePath currentLocale) = concat blocks
           /\ Forall2 (call_reads host ls translations workspacePath currentLocale)
                      translationCalls blocks)
    /\ (Forall (fun c => truthy_string (getTranslation translations (methodName c))
                         = true) translationCalls ->
        fst (processTranslationCallsWithWarnings host ls translationCalls
               translations workspacePath currentLocale) = [])
    /\ (forall p l,
           In (LoadTranslations p l)
              (fst (processTranslationCallsWithWarnings host ls translationCalls
                      translations workspacePath currentLocale)) ->
           p = resolveTranslationPath ls workspacePath l
           /\ In l (configured_locales (loadInlangSettings ls workspacePath))
           /\ l <> currentLocale
           /\ exists c, In c translationCalls
                        /\ truthy_string (getTranslation translations (methodName c))
                           = false)
    /\ ((forall l, In l (configured_locales (loadInlangSettings ls workspacePath)) ->
                   l <> currentLocale ->
                   resolveTranslationPath ls workspacePath l
                   <> resolveTranslationPath ls workspacePath currentLocale) ->
        forall l,
          ~ In (LoadTranslations (resolveTranslationPath ls workspacePath currentLocale) l)
               (fst (processTranslationCallsWithWarnings host ls translationCalls
                       translations workspacePath currentLocale))).
Proof.
  intros host ls calls translations ws cur.
  set (log := fst (processTranslationCallsWithWarnings host ls calls
                     translations ws cur)).
  assert (Hlog : log = flat_map (fun c => fst (process_call host ls translations
                                                 ws cur c)) calls).
  { unfold log, processTranslationCallsWithWarnings.
    destruct (process_calls_spec host ls translations ws cur calls [])
      as (rs & _ & _ & Hev). exact Hev. }
  assert (Hevent : forall e, In e log ->
                             pass_event ls translations ws cur calls e).
  { intros e Hin. rewrite Hlog in Hin. apply in_flat_map in Hin.
    destruct Hin as (c & Hc & Hin).
    now apply (process_call_events host ls translations ws cur calls c). }
  assert (Hload : forall p l,
             In (LoadTranslations p l) log ->
             p = resolveTranslationPath ls ws l
             /\ In l (configured_locales (loadInlangSettings ls ws))
             /\ l <> cur
             /\ exists c, In c calls
                          /\ truthy_string (getTranslation translations (methodName c))
                             = false).
  { intros p l Hin. destruct (Hevent _ Hin) as (Hp & Hl & Hne).
    repeat (split; [assumption|]).
    rewrite Hlog in Hin.
    exact (load_needs_unresolved host ls translations ws cur calls p l Hin). }
  split; [exact Hevent|]. split; [|split; [|split; [exact Hload|]]].
  - exists (map (fun c => fst (process_call host ls translations ws cur c)) calls).
    split; [rewrite Hlog; apply flat_map_concat_map|].
    clear. induction calls as [|c calls IH]; simpl; constructor;
      [apply process_call_reads | exact IH].
  - intros H. rewrite Hlog.
    exact (resolved_calls_silent host ls translations ws cur calls H).
  - intros Hdistinct l Hin. destruct (Hload _ l Hin) as (Hp & Hl & Hne & _).
    now apply (Hdistinct l Hl Hne).
Qed.

(** In [hello_host] the English data resolve the call [m.greeting()]: the
    pass reads nothing.  In [three_host], with no English data, the pass
    searches the other locales and does not load the English file. *)
Lemma pass_reads_other_locales_only_witness :
  fst (processTranslationCallsWithWarnings hello_host
         (sample_locales "en" ["en"; "de"]) (findTranslationCalls "m.greeting()")
         hello_data "/w" "en") = []
  /\ ~ In (LoadTranslations "/w/messages/en.json" "fr")
          (fst (processTranslationCallsWithWarnings three_host
                  (sample_locales "en" ["en"; "fr"; "de"])
                  (findTranslationCalls "m.greeting()") (VObj []) "/w" "en")).
Proof.
  split.
  - apply (pass_reads_other_locales_only hello_host
             (sample_locales "en" ["en"; "de"]) (findTranslationCalls "m.greeting()")
             hello_data "/w" "en").
    repeat constructor.
  - apply (proj2 (proj2 (proj2 (proj2
             (pass_reads_other_locales_only three_host
                (sample_locales "en" ["en"; "fr"; "de"])
                (findTranslationCalls "m.greeting()") (VObj []) "/w" "en"))))).
    intros l [<-|[<-|[<-|[]]]] H; [now contradiction H | discriminate | discriminate].
Defined.

(** The condition on the paths matters: with a pattern that does not
    mention the locale, the search for a key that the active data lack
    loads the active locale's own file, under the name of another locale. *)
Lemma shared_file_is_loaded :
  resolveTranslationPath (one_file_locales "en" ["en"; "fr"]) "/w" "en"
  = "/w/messages/all.json"
  /\ In (LoadTranslations "/w/messages/all.json" "fr")
        (fst (processTranslationCallsWithWarnings one_file_host
                (one_file_locales "en" ["en"; "fr"])
                (findTranslationCalls "m.greeting()") blank_data "/w" "en")).
Proof. split; [reflexivity|]. right. left. reflexivity. Qed.

(** ** What the sidebar lists *)

Section Listing.
Variable host : Host.
Variable ls : LocaleService.
Variables workspacePath projectPath : string.

Lemma rows_locales (k : string) (availableLocales : list string) :
  map ld_locale (rows host ls workspacePath projectPath k availableLocales)
  = filter (resolves host ls workspacePath k) availableLocales.
Proof.
  unfold rows, resolves. induction availableLocales as [|l others IH]; simpl;
    [reflexivity|].
  rewrite map_app, IH. now destruct (resolution host ls workspacePath k l).
Qed.

Lemma rows_project (k : string) (availableLocales : list string) :
  Forall (fun ld => ld_workspacePath ld = projectPath)
         (rows host ls workspacePath projectPath k availableLocales).
Proof.
  unfold rows. induction availableLocales as [|l others IH]; simpl; [constructor|].
  apply Forall_app. split; [|exact IH].
  destruct (resolution host ls workspacePath k l); repeat constructor.
Qed.

Lemma rows_some (k : string) (availableLocales : list string) :
  (0 <? List.length (rows host ls workspacePath projectPath k availableLocales))
  = existsb (resolves host ls workspacePath k) availableLocales.
Proof.
  unfold rows, resolves. induction availableLocales as [|l others IH]; simpl;
    [reflexivity|].
  destruct (resolution host ls workspacePath k l); simpl; [reflexivity | exact IH].
Qed.

Lemma entries_keys (availableLocales : list string) (calls : list TranslationCall) :
  map key (entries host ls workspacePath projectPath availableLocales calls)
  = filter (fun k => existsb (resolves host ls workspacePath k) availableLocales)
           (map methodName calls).
Proof.
  unfold entries. induction calls as [|c calls IH]; simpl; [reflexivity|].
  rewrite map_app, IH, rows_some.
  now destruct (existsb _ availableLocales).
Qed.

End Listing.

(** X14: what the sidebar lists for a document of a workspace.  The
    entries are the keys of the document's calls that some available
    locale resolves, in the order of the calls, a key once per call of it;
    the rows of an entry are the available locales that resolve its key,
    in their order; every row carries the active project's path. *)
Theorem getTranslationData_complete :
  forall (host : Host) (ls : LocaleService) (ps : ProjectService)
         (d : TextDocument) (workspacePath : string)
         (availableLocales : list string) (data : list TranslationKeyData),
    getWorkspaceFolder host (fsPath d) = Some workspacePath ->
    snd (getAvailableLocales host ls ps workspacePath) = Normal availableLocales ->
    snd (getTranslationData host ls ps (Some d)) = Normal data ->
    map key data
    = filter (fun k => existsb (resolves host ls workspacePath k) availableLocales)
             (map methodName (findTranslationCalls (getText d)))
    /\ Forall (fun entry =>
                 map ld_locale (locales_ entry)
                 = filter (resolves host ls workspacePath (key entry)) availableLocales
                 /\ Forall (fun ld => ld_workspacePath ld
                                      = getActiveProjectPath ps workspacePath)
                           (locales_ entry))
              data.
Proof.
  intros host ls ps d ws avail data W Ha Hdata.
  unfold getTranslationData in Hdata. rewrite W in Hdata.
  destruct (List.length (findTranslationCalls (getText d)) =? 0) eqn:L.
  - unfold try_catch, ret in Hdata. simpl in Hdata. injection Hdata as <-.
    apply Nat.eqb_eq, length_zero_iff_nil in L. rewrite L. split; constructor.
  - destruct (getAvailableLocales_normal host ls ps ws) as [avail' Ha'].
    rewrite Ha' in Ha. simpl in Ha. injection Ha as ->.
    rewrite Ha' in Hdata. unfold bind, try_catch in Hdata; cbn [fst snd] in Hdata.
    rewrite (collect_keys_entries host ls ws _ avail _ []) in Hdata.
    injection Hdata as <-. cbn [app]. split; [apply entries_keys|].
    apply Forall_forall. intros entry Hin.
    destruct (entries_rows _ _ _ _ _ _ _ Hin) as (Hrows & _ & _).
    rewrite Hrows. split; [apply rows_locales | apply rows_project].
Qed.

(** In [hello_host], for a document that calls [greeting], [farewell] and
    [greeting] again, the sidebar lists [greeting] twice and [farewell],
    which no locale resolves, not at all. *)
Lemma getTranslationData_complete_witness :
  map key
    [ {| key := "greeting";
         locales_ := [ {| ld_locale := "en"; ld_value := "Hello";
                          ld_workspacePath := "/w" |};
                       {| ld_locale := "de"; ld_value := "Hallo";
                          ld_workspacePath := "/w" |} ] |};
      {| key := "greeting";
         locales_ := [ {| ld_locale := "en"; ld_value := "Hello";
                          ld_workspacePath := "/w" |};
                       {| ld_locale := "de"; ld_value := "Hallo";
                          ld_workspacePath := "/w" |} ] |} ]
  = filter (fun k => existsb (resolves hello_host (sample_locales "en" ["en"; "de"])
                                "/w" k) ["en"; "de"])
      (map methodName
         (findTranslationCalls "m.greeting(); m.farewell(); m.greeting()")).
Proof.
  apply (getTranslationData_complete hello_host (sample_locales "en" ["en"; "de"])
           sample_project
           {| fsPath := "/w/src/app.ts";
              getText := "m.greeting(); m.farewell(); m.greeting()" |}
           "/w" ["en"; "de"]);
    reflexivity.
Defined.

(** X15: the locales the sidebar looks in.  [getAvailableLocales] never
    raises and causes no load.  Locales declared in the project settings
    are returned as they stand, be the list empty; without declared
    locales the result is never empty: it is the locales detected in the
    messages directory of the active project when there is at least one,
    and [en] alone otherwise. *)
Theorem getAvailableLocales_sources :
  forall (host : Host) (ls : LocaleService) (ps : ProjectService)
         (workspacePath : string),
    exists availableLocales,
      getAvailableLocales host ls ps workspacePath = ([], Normal availableLocales)
      /\ (forall settings declared,
            loadInlangSettings ls workspacePath = Some settings ->
            locales settings = Some declared ->
            availableLocales = declared)
      /\ ((forall settings,
             loadInlangSettings ls workspacePath = Some settings ->
             locales settings = None) ->
          availableLocales <> []
          /\ availableLocales
             = match detected_locales host (getActiveProjectPath ps workspacePath) with
               | [] => ["en"]
               | found => found
               end).
Proof.
  intros host ls ps ws. unfold getAvailableLocales.
  assert (Hdir : exists r,
             try_catch
               (if existsSync host (path_join host (getActiveProjectPath ps ws) "messages")
                then
                  files <- lift (readdirSync host
                                   (path_join host (getActiveProjectPath ps ws)
                                      "messages")) ;;
                  (if 0 <? List.length
                             (map (fun file => path_basename host file ".json")
                                (filter endsWith_json files))
                   then ret (map (fun file => path_basename host file ".json")
                               (filter endsWith_json files))
                   else ret ["en"])
                else ret ["en"])
               (ret ["en"]) = ([], Normal r)
             /\ r <> []
             /\ r = match detected_locales host (getActiveProjectPath ps ws) with
                    | [] => ["en"]
                    | found => found
                    end).
  { unfold detected_locales. destruct (existsSync host _) eqn:E.
    - destruct (readdirSync host _) as [files|] eqn:R.
      + rewrite (bind_normal (lift (Normal files)) _ files eq_refl).
        destruct (map _ (filter endsWith_json files)) as [|f fs] eqn:F; simpl.
        * exists ["en"]. repeat split. discriminate.
        * exists (f :: fs). repeat split. discriminate.
      + exists ["en"]. repeat split. discriminate.
    - exists ["en"]. repeat split. discriminate. }
  destruct (loadInlangSettings ls ws) as [[b [l|] p]|] eqn:S.
  - exists l. split; [reflexivity|]. split.
    + intros settings declared H1 H2. injection H1 as <-. simpl in H2. congruence.
    + intros H. specialize (H _ eq_refl). discriminate.
  - destruct Hdir as (r & Hr & Hne & Hfound). exists r. split; [exact Hr|]. split.
    + intros settings declared H1 H2. injection H1 as <-. discriminate.
    + intros _. split; assumption.
  - destruct Hdir as (r & Hr & Hne & Hfound). exists r. split; [exact Hr|]. split.
    + intros settings declared H1. discriminate.
    + intros _. split; assumption.
Qed.

(** ** Which requests the coordinator serves *)

Lemma subsequence_refl {A : Type} (l : list A) : subsequence l l.
Proof. induction l; constructor; assumption. Qed.

Lemma subsequence_empty {A : Type} (l : list A) : subsequence [] l.
Proof. induction l; constructor; assumption. Qed.

Lemma subsequence_snoc_skip {A : Type} (x : A) (l l' : list A) :
  subsequence l l' -> subsequence l (l' ++ [x]).
Proof.
  induction 1; simpl.
  - apply subsequence_skip, subsequence_nil.
  - now apply subsequence_skip.
  - now apply subsequence_keep.
Qed.

Lemma subsequence_snoc_keep {A : Type} (x : A) (l l' : list A) :
  subsequence l l' -> subsequence (l ++ [x]) (l' ++ [x]).
Proof.
  induction 1; simpl.
  - apply subsequence_keep, subsequence_nil.
  - now apply subsequence_skip.
  - now apply subsequence_keep.
Qed.

Lemma subsequence_prefix {A : Type} (l1 l2 l' : list A) :
  subsequence (l1 ++ l2) l' -> subsequence l1 l'.
Proof.
  intros H. remember (l1 ++ l2) as l eqn:E. revert l1 E.
  induction H as [|x l l' H IH|x l l' H IH]; intros l1 E.
  - symmetry in E. apply app_eq_nil in E. destruct E as [-> _]. constructor.
  - apply subsequence_skip. now apply IH.
  - destruct l1 as [|y l1]; simpl in E.
    + apply subsequence_empty.
    + injection E as <- E. apply subsequence_keep. now apply IH.
Qed.

Lemma requests_snoc (ts : list turn) (t : turn) :
  requests (ts ++ [t])
  = requests ts ++ match t with Refresh r => [r] | Settle _ => [] end.
Proof. unfold requests. rewrite flat_map_app. simpl. now rewrite app_nil_r. Qed.

Lemma settle_nothing (o : outcome) (st : provider) :
  in_flight st = [] -> settle o st = st.
Proof. intros H. unfold settle. now rewrite H. Qed.

Lemma settle_queued (o : outcome) (st : provider) :
  coherent st -> queued (settle o st) = queued st.
Proof.
  unfold queued. intros [[Hflag [r0 Hf]] | (Hflag & Hf & Hp)].
  - destruct (pendingRefresh st) as [p|] eqn:Hp.
    + destruct (settle_follow_up o st r0 p Hf Hp) as (_ & _ & H3 & H4).
      rewrite H3, H4. now rewrite app_nil_r.
    + destruct (settle_idle o st r0 Hf Hp) as (_ & _ & H3 & H4).
      now rewrite H3, H4.
  - unfold settle. now rewrite Hf.
Qed.

Lemma refresh_queued (r : PendingRefresh) (st : provider) :
  coherent st ->
  queued (refresh r st) = passes st ++ [r].
Proof.
  unfold queued, refresh. intros [[Hflag _] | (Hflag & _ & Hp)]; rewrite Hflag; simpl.
  - reflexivity.
  - rewrite Hp. now rewrite app_nil_r.
Qed.

Lemma run_queued (ts : list turn) :
  subsequence (queued (run ts initial)) (requests ts)
  /\ forall d, last (queued (run ts initial)) d = last (requests ts) d.
Proof.
  induction ts as [|t ts [IH1 IH2]] using rev_ind.
  - split; [constructor | reflexivity].
  - assert (Hc : coherent (run ts initial)) by (apply reachable_coherent; now exists ts).
    rewrite run_snoc, requests_snoc. destruct t as [r|o]; cbn [step].
    + rewrite (refresh_queued r _ Hc). split.
      * apply subsequence_snoc_keep. now apply (subsequence_prefix _ _ _ IH1).
      * intros d. now rewrite !last_last.
    + rewrite (settle_queued o _ Hc), app_nil_r. now split.
Qed.

(** X16: the coordinator serves the latest request.  Whatever calls of
    [refresh] and completions of passes came before, once the pass in
    flight and its follow-up have completed the provider is idle with
    nothing on hold; the passes it has run are requests that were made, in
    the order in which they were made, none of them twice; and the last
    pass it ran is the last request that was made. *)
Theorem latest_request_served :
  forall (ts : list turn) (o1 o2 : outcome),
    let st := run (ts ++ [Settle o1; Settle o2]) initial in
    refreshInProgress st = false
    /\ in_flight st = []
    /\ pendingRefresh st = None
    /\ subsequence (passes st) (requests ts)
    /\ forall d, last (passes st) d = last (requests ts) d.
Proof.
  intros ts o1 o2 st.
  assert (Hrun : st = settle o2 (settle o1 (run ts initial))).
  { unfold st. change [Settle o1; Settle o2] with ([Settle o1] ++ [Settle o2]).
    now rewrite app_assoc, !run_snoc. }
  assert (Hc : coherent (run ts initial)) by (apply reachable_coherent; now exists ts).
  assert (Hc1 : coherent (settle o1 (run ts initial)))
    by (apply (step_coherent _ (Settle o1)); exact Hc).
  assert (Hq : queued st = queued (run ts initial))
    by (rewrite Hrun, (settle_queued o2 _ Hc1); now apply settle_queued).
  assert (Hidle : refreshInProgress st = false /\ in_flight st = []
                  /\ pendingRefresh st = None).
  { rewrite Hrun. destruct Hc as [[Hflag [r0 Hf]] | (Hflag & Hf & Hp)].
    - destruct (pendingRefresh (run ts initial)) as [p|] eqn:Hp.
      + destruct (settle_follow_up o1 _ r0 p Hf Hp) as (_ & H2 & H3 & _).
        destruct (settle_idle o2 _ p H2 H3) as (H5 & H6 & H7 & _). auto.
      + destruct (settle_idle o1 _ r0 Hf Hp) as (H1 & H2 & H3 & _).
        rewrite (settle_nothing o2 _ H2). auto.
    - rewrite (settle_nothing o1 _ Hf), (settle_nothing o2 _ Hf). auto. }
  destruct Hidle as (H1 & H2 & H3). repeat split; try assumption.
  - replace (passes st) with (queued st)
      by (unfold queued; rewrite H3; apply app_nil_r).
    rewrite Hq. apply run_queued.
  - intros d. replace (passes st) with (queued st)
      by (unfold queued; rewrite H3; apply app_nil_r).
    rewrite Hq. apply run_queued.
Qed.

(** ** The project of a file *)

Lemma insert_by_length_perm (p : Project) (l : list Project) :
  Permutation (insert_by_length p l) (p :: l).
Proof.
  induction l as [|q l IH]; simpl; [reflexivity|].
  destruct (_ <=? _); [reflexivity|].
  rewrite IH. apply perm_swap.
Qed.

Lemma sort_by_length_perm (l : list Project) : Permutation (sort_by_length l) l.
Proof.
  induction l as [|p l IH]; simpl; [reflexivity|].
  rewrite insert_by_length_perm. now constructor.
Qed.

Lemma insert_by_length_sorted (p : Project) (l : list Project) :
  StronglySorted (fun a b => String.length (path b) <= String.length (path a)) l ->
  StronglySorted (fun a b => String.length (path b) <= String.length (path a))
                 (insert_by_length p l).
Proof.
  induction 1 as [|q l Hl IH Hq]; simpl.
  - repeat constructor.
  - destruct (Nat.leb_spec (String.length (path q)) (String.length (path p))) as [Hle|Hlt].
    + constructor; [now constructor|]. constructor; [exact Hle|].
      rewrite Forall_forall in *. intros x Hx. specialize (Hq x Hx). lia.
    + constructor; [exact IH|].
      rewrite Forall_forall in *. intros x Hx.
      apply (Permutation_in _ (insert_by_length_perm p l)) in Hx.
      destruct Hx as [<-|Hx]; [lia | now apply Hq].
Qed.

Lemma sort_by_length_sorted (l : list Project) :
  StronglySorted (fun a b => String.length (path b) <= String.length (path a))
                 (sort_by_length l).
Proof.
  induction l as [|p l IH]; simpl; [constructor|].
  now apply insert_by_length_sorted.
Qed.

Lemma first_holding_sorted (sep filePath : string) (l : list Project) :
  StronglySorted (fun a b => String.length (path b) <= String.length (path a)) l ->
  match first_holding sep filePath l with
  | Some p =>
      exists project,
        In project l /\ path project = p /\ holds sep filePath project = true
        /\ forall q, In q l -> holds sep filePath q = true ->
                     String.length (path q) <= String.length p
  | None => forall q, In q l -> holds sep filePath q = false
  end.
Proof.
  induction 1 as [|a l Hl IH Ha]; simpl.
  - intros q [].
  - destruct (holds sep filePath a) eqn:E.
    + exists a. repeat split; [now left | exact E |].
      intros q [<-|Hq] _; [lia|]. rewrite Forall_forall in Ha. now apply Ha.
    + destruct (first_holding sep filePath l) as [p|].
      * destruct IH as (project & Hin & Hp & Hh & Hmax).
        exists project. repeat split; [now right | exact Hp | exact Hh |].
        intros q [<-|Hq] Hq'; [congruence | now apply Hmax].
      * intros q [<-|Hq]; [exact E | now apply IH].
Qed.

(** X17: [getProjectForFile] answers with the most specific project.
    When it returns a path, this is the path of one of the projects, that
    project holds the file (the file is the project's path itself or lies
    below it), and no project that holds the file has a longer path; it
    returns [null] exactly when no project holds the file. *)
Theorem getProjectForFile_most_specific :
  forall (sep filePath : string) (projects : list Project),
    match getProjectForFile sep filePath projects with
    | Some p =>
        exists project,
          In project projects /\ path project = p
          /\ holds sep filePath project = true
          /\ forall q, In q projects -> holds sep filePath q = true ->
                       String.length (path q) <= String.length p
    | None => forall q, In q projects -> holds sep filePath q = false
    end.
Proof.
  intros sep filePath projects. unfold getProjectForFile.
  pose proof (first_holding_sorted sep filePath _ (sort_by_length_sorted projects)) as H.
  pose proof (sort_by_length_perm projects) as P.
  destruct (first_holding sep filePath (sort_by_length projects)) as [p|].
  - destruct H as (project & Hin & Hp & Hh & Hmax).
    exists project. repeat split; try assumption.
    + now apply (Permutation_in _ P).
    + intros q Hq. apply Hmax. now apply (Permutation_in _ (Permutation_sym P)).
  - intros q Hq. apply H. now apply (Permutation_in _ (Permutation_sym P)).
Qed.

(** ** The project selector's refresh *)

Lemma marks_snoc (m x : ProjectSelectorProvider.mark)
  (l : list ProjectSelectorProvider.mark) :
  marks m (l ++ [x])
  = marks m l + match m, x with
                | ProjectSelectorProvider.Requested,
                  ProjectSelectorProvider.Requested => 1
                | ProjectSelectorProvider.Started,
                  ProjectSelectorProvider.Started => 1
                | _, _ => 0
                end.
Proof.
  unfold marks. rewrite filter_app, length_app. simpl.
  destruct m, x; reflexivity.
Qed.

Lemma selector_body_fields (o : ProjectSelectorProvider.outcome)
  (st : ProjectSelectorProvider.selector) :
  ProjectSelectorProvider.refreshInProgress (ProjectSelectorProvider.body o st)
  = ProjectSelectorProvider.refreshInProgress st
  /\ ProjectSelectorProvider.pendingRefresh (ProjectSelectorProvider.body o st)
     = ProjectSelectorProvider.pendingRefresh st
  /\ ProjectSelectorProvider.in_flight (ProjectSelectorProvider.body o st)
     = ProjectSelectorProvider.in_flight st
  /\ ProjectSelectorProvider.log (ProjectSelectorProvider.body o st)
     = ProjectSelectorProvider.log st.
Proof. destruct o; repeat split. Qed.

Lemma selector_settle (o : ProjectSelectorProvider.outcome)
  (st : ProjectSelectorProvider.selector) :
  ProjectSelectorProvider.in_flight st = 1 ->
  let st' := ProjectSelectorProvider.settle o st in
  ProjectSelectorProvider.pendingRefresh st' = false
  /\ ProjectSelectorProvider.refreshInProgress st'
     = ProjectSelectorProvider.pendingRefresh st
  /\ ProjectSelectorProvider.in_flight st'
     = (if ProjectSelectorProvider.pendingRefresh st then 1 else 0)
  /\ ProjectSelectorProvider.log st'
     = ProjectSelectorProvider.log st
       ++ (if ProjectSelectorProvider.pendingRefresh st
           then [ProjectSelectorProvider.Started] else []).
Proof.
  intros Hf. unfold ProjectSelectorProvider.settle,
    ProjectSelectorProvider.finally_, ProjectSelectorProvider.follow_up.
  rewrite Hf.
  destruct (selector_body_fields o (ProjectSelectorProvider.leave st))
    as (_ & Hp & Hi & Hl).
  cbn [ProjectSelectorProvider.release ProjectSelectorProvider.pendingRefresh].
  rewrite Hp. cbn [ProjectSelectorProvider.leave ProjectSelectorProvider.pendingRefresh].
  destruct (ProjectSelectorProvider.pendingRefresh st) eqn:P.
  - unfold ProjectSelectorProvider.refresh. simpl. rewrite Hi, Hl. simpl.
    rewrite Hf. repeat split.
  - simpl. rewrite Hp, Hi, Hl. simpl. rewrite P, Hf, app_nil_r. repeat split.
Qed.

Lemma selector_settle_nothing (o : ProjectSelectorProvider.outcome)
  (st : ProjectSelectorProvider.selector) :
  ProjectSelectorProvider.in_flight st = 0 -> ProjectSelectorProvider.settle o st = st.
Proof. intros H. unfold ProjectSelectorProvider.settle. now rewrite H. Qed.

Lemma selector_step (st : ProjectSelectorProvider.selector)
  (t : ProjectSelectorProvider.turn) :
  selector_invariant st -> selector_invariant (ProjectSelectorProvider.step st t).
Proof.
  intros (Hc & Hfresh & Hcount). destruct t as [|o]; cbn [ProjectSelectorProvider.step].
  - unfold ProjectSelectorProvider.request, ProjectSelectorProvider.refresh.
    cbn [ProjectSelectorProvider.refreshInProgress ProjectSelectorProvider.pendingRefresh
         ProjectSelectorProvider.in_flight ProjectSelectorProvider.log
         ProjectSelectorProvider.record_pending ProjectSelectorProvider.enter] in *.
    destruct Hc as [[Hflag Hf] | (Hflag & Hf & Hp)]; rewrite Hflag;
      unfold selector_invariant;
      cbn [ProjectSelectorProvider.refreshInProgress ProjectSelectorProvider.pendingRefresh
           ProjectSelectorProvider.in_flight ProjectSelectorProvider.log
           ProjectSelectorProvider.record_pending ProjectSelectorProvider.enter] in *.
    + split; [left; now split|]. split; [discriminate|].
      rewrite !marks_snoc.
      destruct (ProjectSelectorProvider.pendingRefresh st); lia.
    + rewrite Hf, Hp in *. split; [left; now split|]. split.
      * intros _. now rewrite last_last.
      * rewrite !marks_snoc. lia.
  - destruct Hc as [[Hflag Hf] | (Hflag & Hf & Hp)].
    + destruct (selector_settle o st Hf) as (H1 & H2 & H3 & H4).
      unfold selector_invariant. rewrite H1, H2, H3, H4.
      destruct (ProjectSelectorProvider.pendingRefresh st) eqn:P.
      * split; [left; now split|]. split; [intros _; now rewrite last_last|].
        rewrite !marks_snoc. lia.
      * rewrite app_nil_r. split; [right; repeat split|].
        split; [now apply Hfresh | lia].
    + unfold ProjectSelectorProvider.settle. rewrite Hf.
      repeat split; [right; repeat split; assumption | exact Hfresh | exact Hcount].
Qed.

Lemma selector_run (ts : list ProjectSelectorProvider.turn) :
  selector_invariant (ProjectSelectorProvider.run ts ProjectSelectorProvider.initial).
Proof.
  induction ts as [|t ts IH] using rev_ind.
  - repeat split; [right; repeat split | simpl; lia].
  - unfold ProjectSelectorProvider.run. rewrite fold_left_app. simpl.
    now apply selector_step.
Qed.

(** X18: the project selector serves every request with a fresh scan and
    never scans more often than asked.  After any calls of [refresh] and
    completions of passes, the passes started are no more than the calls
    made; and once the pass in flight and its follow-up have completed, the
    provider is idle with nothing on hold, and no call has been made since
    the last pass started: the last mark noted is the start of a pass. *)
Theorem selector_serves_requests :
  forall (ts : list ProjectSelectorProvider.turn)
         (o1 o2 : ProjectSelectorProvider.outcome),
    let busy := ProjectSelectorProvider.run ts ProjectSelectorProvider.initial in
    let st := ProjectSelectorProvider.run
                (ts ++ [ProjectSelectorProvider.Settle o1;
                        ProjectSelectorProvider.Settle o2])
                ProjectSelectorProvider.initial in
    marks ProjectSelectorProvider.Started (ProjectSelectorProvider.log busy)
    <= marks ProjectSelectorProvider.Requested (ProjectSelectorProvider.log busy)
    /\ ProjectSelectorProvider.refreshInProgress st = false
    /\ ProjectSelectorProvider.pendingRefresh st = false
    /\ ProjectSelectorProvider.in_flight st = 0
    /\ marks ProjectSelectorProvider.Requested (ProjectSelectorProvider.log st)
       = marks ProjectSelectorProvider.Requested (ProjectSelectorProvider.log busy)
    /\ last (ProjectSelectorProvider.log st) ProjectSelectorProvider.Started
       = ProjectSelectorProvider.Started.
Proof.
  intros ts o1 o2 busy st.
  assert (Hrun : st = ProjectSelectorProvider.settle o2
                        (ProjectSelectorProvider.settle o1 busy)).
  { unfold st, busy, ProjectSelectorProvider.run. now rewrite fold_left_app. }
  pose proof (selector_run ts) as (Hc & Hfresh & Hcount). fold busy in Hc, Hfresh, Hcount.
  split; [destruct (ProjectSelectorProvider.pendingRefresh busy); simpl in Hcount; lia|].
  rewrite Hrun. destruct Hc as [[Hflag Hf] | (Hflag & Hf & Hp)].
  - destruct (selector_settle o1 busy Hf) as (H1 & H2 & H3 & H4).
    destruct (ProjectSelectorProvider.pendingRefresh busy) eqn:P.
    + destruct (selector_settle o2 _ H3) as (H5 & H6 & H7 & H8).
      rewrite H5, H6, H7, H8, H1, H4, app_nil_r, marks_snoc, last_last.
      repeat split. lia.
    + rewrite (selector_settle_nothing o2 _ H3).
      rewrite H1, H2, H3, H4, app_nil_r. repeat split. now apply Hfresh.
  - rewrite (selector_settle_nothing o1 _ Hf), (selector_settle_nothing o2 _ Hf).
    repeat split; try assumption. now apply Hfresh.
Qed.

(** ** What the editor shows *)

Lemma createDecorations_map (results : list TranslationResult) :
  Editor.createDecorations results = map Editor.decoration results.
Proof.
  unfold Editor.createDecorations.
  assert (H : forall acc,
             fold_left (fun decorations result =>
                          decorations ++ [Editor.decoration result]) results acc
             = acc ++ map Editor.decoration results).
  { induction results as [|r results IH]; intros acc; simpl.
    - now rewrite app_nil_r.
    - now rewrite IH, <- app_assoc. }
  apply (H []).
Qed.

Lemma provideCodeLenses_positions (d : TextDocument)
  (results : list TranslationResult) :
  map Editor.position
      (Editor.provideCodeLenses (Editor.updateTranslationResults d results) d)
  = map (fun r => end_ (call r)) results
  /\ map Editor.arguments
       (Editor.provideCodeLenses (Editor.updateTranslationResults d results) d)
     = map (fun r => (methodName (call r), fsPath d)) results.
Proof.
  unfold Editor.provideCodeLenses, Editor.updateTranslationResults. simpl.
  rewrite String.eqb_refl. simpl.
  assert (H : forall acc,
             fold_left
               (fun codeLenses result =>
                  codeLenses
                    ++ [{| Editor.position := end_ (call result);
                           Editor.title := "$(globe)  Inspect Translation";
                           Editor.command := "poirot.clickTranslationLabel";
                           Editor.arguments := (methodName (call result), fsPath d) |}])
               results acc
             = acc ++ map (fun result =>
                             {| Editor.position := end_ (call result);
                                Editor.title := "$(globe)  Inspect Translation";
                                Editor.command := "poirot.clickTranslationLabel";
                                Editor.arguments :=
                                  (methodName (call result), fsPath d) |}) results).
  { induction results as [|r results IH]; intros acc; simpl.
    - now rewrite app_nil_r.
    - now rewrite IH, <- app_assoc. }
  rewrite (H []). simpl. rewrite !map_map. split; reflexivity.
Qed.

Lemma scanned_call_in_text (text : string) (c : TranslationCall) :
  In c (findTranslationCalls text) -> end_ c <= String.length text.
Proof.
  intros Hin. rewrite <- length_text.
  destruct (scanned_call_match text c Hin) as [(m & Hm & ->) | (m & Hm & ->)];
    unfold matches in Hm.
  - destruct (exec_loop_spans _ _ _ (list_ascii_of_string text) flatPattern_opens
                is_word_m (S (List.length (list_ascii_of_string text))) 0) as [HF _].
    rewrite Forall_forall in HF. specialize (HF m Hm). unfold span_ok in HF.
    simpl. tauto.
  - destruct (exec_loop_spans _ _ _ (list_ascii_of_string text) nestedPattern_opens
                is_word_m (S (List.length (list_ascii_of_string text))) 0) as [HF _].
    rewrite Forall_forall in HF. specialize (HF m Hm). unfold span_ok in HF.
    simpl. tauto.
Qed.

Lemma explained_shows (host : Host) (ls : LocaleService) (translations : value)
  (workspacePath currentLocale text : string) (c : TranslationCall)
  (r : TranslationResult) :
  In c (findTranslationCalls text) ->
  explained host ls translations workspacePath currentLocale c r ->
  shows host ls translations workspacePath currentLocale text c (Editor.decoration r).
Proof.
  intros Hin [Hcall Hr]. unfold shows, Editor.decoration.
  assert (Hend : end_ c <= String.length text).
  { assert (Hs := scanned_call_in_text text c Hin). exact Hs. }
  destruct (warningType r) as [[|]|] eqn:W; cbn [Editor.offset Editor.contentText Editor.color];
    rewrite Hcall; (split; [reflexivity|]); (split; [exact Hend|]).
  - destruct Hr as (T & l & v & pre & post & Hf & Hv & Hc & Hpre & Hl).
    right. left. split; [exact T|].
    exists l, v, pre, post. rewrite Hv. simpl. repeat split; try assumption.
    now apply (candidate_value_nonempty host ls workspacePath (methodName c) l).
  - destruct Hr as (T & Hv & Hf & Hall).
    right. right. auto.
  - destruct Hr as (Hv & T & Hf).
    left. destruct (translationValue r) as [v|] eqn:V; [|discriminate].
    exists v. repeat split; [now rewrite <- Hv |].
    intros ->. discriminate.
Qed.

Lemma Forall2_right_in {A B : Type} (R : A -> B -> Prop) (l : list A)
  (l' : list B) :
  Forall2 R l l' -> forall y, In y l' -> exists x, In x l /\ R x y.
Proof.
  induction 1 as [|x y l l' Hxy _ IH]; intros z Hz; [contradiction|].
  destruct Hz as [<-|Hz].
  - exists x. split; [now left | exact Hxy].
  - destruct (IH z Hz) as (x' & Hx' & Hr). exists x'. split; [now right | exact Hr].
Qed.

Lemma getTranslation_empty (k : string) : getTranslation (VObj []) k = None.
Proof.
  unfold getTranslation, lookup_key, getNestedValue. simpl.
  destruct (includes_dot k); [|reflexivity].
  destruct (split_dot k) as [|s segs]; [reflexivity|]. simpl.
  unfold nested_step at 2. simpl. now rewrite descend_undefined.
Qed.

(** X19: what [processDocument] shows for a visible document of a
    workspace that holds at least one call.  It clears the decorations,
    loads the data of the active locale, runs the resolution pass on these
    data (on an empty mapping when they are missing), applies one
    decoration per call and hands the results to the code lens provider.
    Each decoration sits at the end of its call, inside the text, and shows
    the value of the active data in grey, or else the value of the first
    other configured locale that has one, marked and in amber, or else the
    missing mark in red; the value shown is never empty.  The code lenses
    then provided for the document sit at the same offsets.  When the data
    of the active locale are missing, no decoration is grey. *)
Theorem processDocument_shows_calls :
  forall (host : Host) (ls : LocaleService) (d : TextDocument)
         (workspacePath : string),
    getWorkspaceFolder host (fsPath d) = Some workspacePath ->
    findTranslationCalls (getText d) <> [] ->
    let currentLocale := getCurrentLocale ls in
    let active := loaded host (resolveTranslationPath ls workspacePath currentLocale) in
    let translationCalls := findTranslationCalls (getText d) in
    exists results reads,
      Editor.processDocument host ls true d
      = (Editor.ClearDecorations d
           :: Editor.Read (LoadTranslations
                             (resolveTranslationPath ls workspacePath currentLocale)
                             currentLocale)
           :: map Editor.Read reads
           ++ [Editor.ApplyDecorations d (Editor.createDecorations results);
               Editor.UpdateTranslationResults d results],
         Normal tt)
      /\ Forall (pass_event ls (Editor.or_empty active) workspacePath currentLocale
                   translationCalls) reads
      /\ Forall2 (shows host ls (Editor.or_empty active) workspacePath currentLocale
                    (getText d))
                 translationCalls (Editor.createDecorations results)
      /\ map Editor.position
           (Editor.provideCodeLenses (Editor.updateTranslationResults d results) d)
         = map end_ translationCalls
      /\ (truthy active = false ->
          Forall (fun decoration => Editor.color decoration <> "#888888")
                 (Editor.createDecorations results)).
Proof.
  intros host ls d ws W Hcalls cur active calls.
  destruct (process_calls_spec host ls (Editor.or_empty active) ws cur calls [])
    as (results & Hrs & HF & Hev).
  assert (Hexp : Forall2 (explained host ls (Editor.or_empty active) ws cur)
                         calls results).
  { clear Hrs Hev. induction HF as [|c r cs rs Hr _ IH]; [constructor|].
    constructor; [now apply process_call_explained | exact IH]. }
  assert (Hlen : List.length results = List.length calls)
    by (symmetry; apply (Forall2_length Hexp)).
  assert (Hcall : map call results = calls).
  { clear -Hexp. induction Hexp as [|c r cs rs [Hr _] _ IH]; simpl; [reflexivity|].
    now rewrite Hr, IH. }
  exists results,
    (flat_map (fun c => fst (process_call host ls (Editor.or_empty active) ws cur c))
              calls).
  split; [|split; [|split; [|split]]].
  - unfold Editor.processDocument. simpl negb. cbv iota.
    unfold Editor.guarded, Editor.then_, Editor.act, Editor.await, Editor.done.
    cbn [fst snd]. rewrite W. fold calls.
    destruct (List.length calls =? 0) eqn:L.
    { apply Nat.eqb_eq, length_zero_iff_nil in L. contradiction. }
    rewrite loadTranslationsForLocale_settles. cbn [fst snd]. fold cur active.
    unfold processTranslationCallsWithWarnings. rewrite Hrs, Hev. cbn [fst snd app].
    rewrite Hlen, L. reflexivity.
  - apply Forall_forall. intros e He. apply in_flat_map in He.
    destruct He as (c & Hc & He).
    now apply (process_call_events host ls (Editor.or_empty active) ws cur calls c).
  - rewrite createDecorations_map.
    assert (Hin : forall c, In c calls -> In c (findTranslationCalls (getText d)))
      by auto.
    clear -Hexp Hin. induction Hexp as [|c r cs rs Hr _ IH]; simpl; [constructor|].
    constructor.
    + apply explained_shows; [apply Hin; now left | exact Hr].
    + apply IH. intros c' Hc'. apply Hin. now right.
  - rewrite (proj1 (provideCodeLenses_positions d results)).
    rewrite <- Hcall, map_map. reflexivity.
  - intros Hfalsy. rewrite createDecorations_map. apply Forall_forall.
    intros dec Hdec. apply in_map_iff in Hdec. destruct Hdec as (r & <- & Hr).
    destruct (Forall2_right_in _ _ _ Hexp _ Hr) as (c & _ & [_ He]).
    unfold Editor.decoration.
    destruct (warningType r) as [[|]|]; simpl; try discriminate.
    destruct He as (Hv & T & _). rewrite Hv in T.
    unfold Editor.or_empty in T. rewrite Hfalsy in T.
    now rewrite getTranslation_empty in T.
Qed.

(** In [three_host], with English active and no English file, the call
    [m.greeting()] gets one decoration, at offset 12: the German value,
    marked. *)
Lemma processDocument_shows_calls_witness :
  exists results reads,
    Editor.processDocument three_host (sample_locales "en" ["en"; "fr"; "de"]) true
      {| fsPath := "/w/src/app.ts"; getText := "m.greeting()" |}
    = (Editor.ClearDecorations {| fsPath := "/w/src/app.ts"; getText := "m.greeting()" |}
         :: Editor.Read (LoadTranslations "/w/messages/en.json" "en")
         :: map Editor.Read reads
         ++ [Editor.ApplyDecorations
               {| fsPath := "/w/src/app.ts"; getText := "m.greeting()" |}
               (Editor.createDecorations results);
             Editor.UpdateTranslationResults
               {| fsPath := "/w/src/app.ts"; getText := "m.greeting()" |} results],
       Normal tt)
    /\ Forall (pass_event (sample_locales "en" ["en"; "fr"; "de"])
                 (VObj []) "/w" "en" (findTranslationCalls "m.greeting()")) reads
    /\ Forall2 (shows three_host (sample_locales "en" ["en"; "fr"; "de"])
                  (VObj []) "/w" "en" "m.greeting()")
               (findTranslationCalls "m.greeting()")
               (Editor.createDecorations results)
    /\ map Editor.position
         (Editor.provideCodeLenses
            (Editor.updateTranslationResults
               {| fsPath := "/w/src/app.ts"; getText := "m.greeting()" |} results)
            {| fsPath := "/w/src/app.ts"; getText := "m.greeting()" |})
       = map end_ (findTranslationCalls "m.greeting()")
    /\ (truthy VNull = false ->
        Forall (fun decoration => Editor.color decoration <> "#888888")
               (Editor.createDecorations results)).
Proof.
  apply (processDocument_shows_calls three_host
           (sample_locales "en" ["en"; "fr"; "de"])
           {| fsPath := "/w/src/app.ts"; getText := "m.greeting()" |} "/w").
  - reflexivity.
  - discriminate.
Defined.

(** ** Debounced updates *)

Section DebounceProofs.
Variable callback : Type.

Lemma timeouts_get_in (k : string) (m : list (string * nat)) (h : nat) :
  Activator.get k m = Some h -> In (k, h) m.
Proof.
  induction m as [|[k' v] m IH]; simpl; [discriminate|].
  destruct (String.eqb_spec k k') as [->|_].
  - intros H. injection H as ->. now left.
  - intros H. right. now apply IH.
Qed.

Lemma timeouts_get_none (k : string) (m : list (string * nat)) :
  Activator.get k m = None -> ~ In k (map fst m).
Proof.
  induction m as [|[k' v] m IH]; simpl; [tauto|].
  destruct (String.eqb_spec k k') as [->|Hne]; [discriminate|].
  intros H [Heq|Hin]; [congruence | now apply IH].
Qed.

Lemma timeouts_in_get (k : string) (m : list (string * nat)) (h : nat) :
  NoDup (map fst m) -> In (k, h) m -> Activator.get k m = Some h.
Proof.
  induction m as [|[k' v] m IH]; simpl; [tauto|].
  intros Hnd Hin. apply NoDup_cons_iff in Hnd. destruct Hnd as [Hnot Hnd].
  destruct Hin as [Heq|Hin].
  - injection Heq as -> ->. now rewrite String.eqb_refl.
  - destruct (String.eqb_spec k k') as [->|_]; [|now apply IH].
    exfalso. apply Hnot. change k' with (fst (k', h)). now apply in_map.
Qed.

Lemma timeouts_set_keys (k : string) (v : nat) (m : list (string * nat)) :
  map fst (Activator.set k v m)
  = if existsb (String.eqb k) (map fst m) then map fst m else map fst m ++ [k].
Proof.
  induction m as [|[k' v'] m IH]; simpl; [reflexivity|].
  destruct (String.eqb_spec k k') as [->|_]; simpl; [reflexivity|].
  rewrite IH. now destruct (existsb _ _).
Qed.

Lemma timeouts_set_in (k : string) (v : nat) (m : list (string * nat)) (k0 : string) (v0 : nat) :
  NoDup (map fst m) ->
  In (k0, v0) (Activator.set k v m)
  <-> (k0 = k /\ v0 = v) \/ (k0 <> k /\ In (k0, v0) m).
Proof.
  induction m as [|[k' v'] m IH]; simpl; intros Hnd.
  - split.
    + intros [H|[]]. injection H as <- <-. now left.
    + intros [[-> ->]|[_ []]]. now left.
  - apply NoDup_cons_iff in Hnd. destruct Hnd as [Hnot Hnd].
    destruct (String.eqb_spec k k') as [<-|Hne]; simpl.
    + split.
      * intros [H|H]; [injection H as <- <-; now left|].
        right. split; [|now right]. intros ->. apply Hnot.
        change k with (fst (k, v0)). now apply in_map.
      * intros [[-> ->]|[Hk [H|H]]]; [now left | | now right].
        injection H as -> _. contradiction.
    + rewrite (IH Hnd). split.
      * intros [H|[H|[Hk H]]]; [| now left |].
        -- injection H as <- <-. right. split; [congruence | now left].
        -- right. split; [exact Hk | now right].
      * intros [H|[Hk [H|H]]]; [right; now left | now left | right; right; now split].
Qed.

Lemma timeouts_set_nodup (k : string) (v : nat) (m : list (string * nat)) :
  NoDup (map fst m) -> NoDup (map fst (Activator.set k v m)).
Proof.
  intros Hnd. rewrite timeouts_set_keys. destruct (existsb _ _) eqn:E; [exact Hnd|].
  apply NoDup_app; [exact Hnd | repeat constructor; tauto |].
  intros x Hx [Hk|[]]. subst x.
  assert (existsb (String.eqb k) (map fst m) = true)
    by (apply existsb_exists; exists k; split; [exact Hx | apply String.eqb_refl]).
  congruence.
Qed.

Lemma timeouts_delete_in (k : string) (m : list (string * nat)) (k0 : string) (v0 : nat) :
  In (k0, v0) (Activator.delete k m) <-> k0 <> k /\ In (k0, v0) m.
Proof.
  unfold Activator.delete. rewrite filter_In. simpl.
  destruct (String.eqb_spec k k0) as [->|Hne]; simpl; split.
  - intros [_ H]. discriminate.
  - intros [H _]. contradiction.
  - intros [H _]. split; [congruence | exact H].
  - intros [_ H]. split; [exact H | reflexivity].
Qed.

Lemma timeouts_delete_nodup (k : string) (m : list (string * nat)) :
  NoDup (map fst m) -> NoDup (map fst (Activator.delete k m)).
Proof.
  unfold Activator.delete. induction m as [|[k' v] m IH]; simpl; [constructor|].
  intros Hnd. apply NoDup_cons_iff in Hnd. destruct Hnd as [Hnot Hnd].
  destruct (negb (String.eqb k k')); simpl; [|now apply IH].
  constructor; [|now apply IH].
  intros Hin. apply Hnot. apply in_map_iff in Hin. destruct Hin as ([k1 v1] & <- & Hin).
  apply filter_In in Hin. destruct Hin as [Hin _].
  now apply (in_map fst) in Hin.
Qed.

Lemma disarm_in (h : nat) (l : list (nat * (string * callback))) (h0 : nat)
  (p : string * callback) :
  In (h0, p) (filter (fun t => negb (h =? fst t)) l) <-> h0 <> h /\ In (h0, p) l.
Proof.
  rewrite filter_In. simpl. destruct (Nat.eqb_spec h h0) as [->|Hne]; simpl; split.
  - intros [_ H]. discriminate.
  - intros [H _]. contradiction.
  - intros [H _]. split; [congruence | exact H].
  - intros [_ H]. split; [exact H | reflexivity].
Qed.

Lemma disarm_nodup (h : nat) (l : list (nat * (string * callback))) :
  NoDup (map fst l) -> NoDup (map fst (filter (fun t => negb (h =? fst t)) l)).
Proof.
  induction l as [|[h' p] l IH]; simpl; [constructor|].
  intros Hnd. apply NoDup_cons_iff in Hnd. destruct Hnd as [Hnot Hnd].
  destruct (negb (h =? h')); simpl; [|now apply IH].
  constructor; [|now apply IH].
  intros Hin. apply Hnot. apply in_map_iff in Hin. destruct Hin as ([h1 p1] & <- & Hin).
  apply filter_In in Hin. destruct Hin as [Hin _]. now apply (in_map fst) in Hin.
Qed.

Lemma find_timer (h : nat) (l : list (nat * (string * callback))) :
  match find (fun t => h =? fst t) l with
  | Some (h', p) => h' = h /\ In (h, p) l
  | None => forall p, ~ In (h, p) l
  end.
Proof.
  induction l as [|[h' p] l IH]; simpl; [tauto|].
  destruct (Nat.eqb_spec h h') as [->|Hne].
  - split; [reflexivity | now left].
  - destruct (find _ l) as [[h1 p1]|].
    + destruct IH as [-> Hin]. split; [reflexivity | now right].
    + intros p0 [H|H]; [congruence | now apply (IH p0)].
Qed.

Lemma timer_unique (st : Activator.activator callback) (h1 h2 : nat) (u : string)
  (c1 c2 : callback) :
  timers_registered st ->
  In (h1, (u, c1)) (Activator.timers callback st) ->
  In (h2, (u, c2)) (Activator.timers callback st) ->
  h1 = h2 /\ c1 = c2.
Proof.
  intros (Hm & Ht & _ & Hreg & _) H1 H2.
  assert (E : h1 = h2).
  { apply Hreg in H1. apply Hreg in H2.
    apply (timeouts_in_get _ _ _ Hm) in H1. apply (timeouts_in_get _ _ _ Hm) in H2. congruence. }
  subst h2. split; [reflexivity|].
  assert (Hp : forall (l : list (nat * (string * callback))) h p q,
             NoDup (map fst l) -> In (h, p) l -> In (h, q) l -> p = q).
  { clear. induction l as [|[h' p'] l IH]; simpl; intros h p q Hnd Hp Hq; [tauto|].
    apply NoDup_cons_iff in Hnd. destruct Hnd as [Hnot Hnd].
    destruct Hp as [Hp|Hp], Hq as [Hq|Hq].
    - congruence.
    - injection Hp as -> ->. exfalso. apply Hnot. now apply (in_map fst) in Hq.
    - injection Hq as -> ->. exfalso. apply Hnot. now apply (in_map fst) in Hp.
    - now apply (IH h). }
  assert (E := Hp _ _ _ _ Ht H1 H2). congruence.
Qed.


Lemma snoc_nodup (l : list (nat * (string * callback))) (n : nat)
  (p : string * callback) :
  NoDup (map fst l) -> (forall h q, In (h, q) l -> h < n) ->
  NoDup (map fst (l ++ [(n, p)])).
Proof.
  intros Hnd Hlt. rewrite map_app. apply NoDup_app; [exact Hnd | repeat constructor; tauto |].
  intros x Hx [<-|[]]. simpl in Hx. apply in_map_iff in Hx.
  destruct Hx as ([h q] & Hh & Hin). simpl in Hh. subst h.
  apply Hlt in Hin. lia.
Qed.

Lemma handle_unique (l : list (nat * (string * callback))) (h : nat)
  (p q : string * callback) :
  NoDup (map fst l) -> In (h, p) l -> In (h, q) l -> p = q.
Proof.
  induction l as [|[h' p'] l IH]; simpl; intros Hnd Hp Hq; [tauto|].
  apply NoDup_cons_iff in Hnd. destruct Hnd as [Hnot Hnd].
  destruct Hp as [Hp|Hp], Hq as [Hq|Hq].
  - congruence.
  - injection Hp as -> ->. exfalso. apply Hnot. now apply (in_map fst) in Hq.
  - injection Hq as -> ->. exfalso. apply Hnot. now apply (in_map fst) in Hp.
  - now apply IH.
Qed.

Lemma clearTimeout_fields (h : nat) (st : Activator.activator callback) :
  Activator.documentUpdateTimeouts callback (Activator.clearTimeout callback h st)
  = Activator.documentUpdateTimeouts callback st
  /\ Activator.next callback (Activator.clearTimeout callback h st)
     = Activator.next callback st
  /\ Activator.ran callback (Activator.clearTimeout callback h st)
     = Activator.ran callback st.
Proof. repeat split. Qed.

(** The timers and the entries that [debounceDocumentUpdate] leaves. *)
Lemma debounce_timers (u : string) (cb : callback)
  (st : Activator.activator callback) :
  timers_registered st ->
  let st' := Activator.debounceDocumentUpdate callback u cb st in
  Activator.ran callback st' = Activator.ran callback st
  /\ Activator.next callback st' = S (Activator.next callback st)
  /\ Activator.documentUpdateTimeouts callback st'
     = Activator.set u (Activator.next callback st)
         (Activator.documentUpdateTimeouts callback st)
  /\ forall h u' c,
       In (h, (u', c)) (Activator.timers callback st')
       <-> (h = Activator.next callback st /\ u' = u /\ c = cb)
           \/ (u' <> u /\ In (h, (u', c)) (Activator.timers callback st)).
Proof.
  intros (Hm & Ht & Hlt & Hreg & Harmed) st'. unfold st', Activator.debounceDocumentUpdate.
  destruct (Activator.get u (Activator.documentUpdateTimeouts callback st))
    as [he|] eqn:G; cbn [Activator.ran Activator.next Activator.timers
                         Activator.documentUpdateTimeouts Activator.clearTimeout].
  - repeat split; try reflexivity.
    + intros Hin. apply in_app_or in Hin. destruct Hin as [Hin|[Hin|[]]].
      * apply disarm_in in Hin. destruct Hin as [Hne Hin]. right. split; [|exact Hin].
        intros ->. apply Hreg in Hin. apply (timeouts_in_get _ _ _ Hm) in Hin. congruence.
      * injection Hin as <- <- <-. now left.
    + intros [(-> & -> & ->)|[Hne Hin]]; apply in_or_app; [right; now left|].
      left. apply disarm_in. split; [|exact Hin].
      intros ->. apply timeouts_get_in in G. apply Harmed in G. destruct G as [c' G].
      assert (E := handle_unique _ _ _ _ Ht Hin G). congruence.
  - repeat split; try reflexivity.
    + intros Hin. apply in_app_or in Hin. destruct Hin as [Hin|[Hin|[]]].
      * right. split; [|exact Hin]. intros ->. apply Hreg in Hin.
        apply timeouts_get_none in G. apply G. now apply (in_map fst) in Hin.
      * injection Hin as <- <- <-. now left.
    + intros [(-> & -> & ->)|[Hne Hin]]; apply in_or_app; [right; now left | now left].
Qed.

Lemma debounce_registered (u : string) (cb : callback)
  (st : Activator.activator callback) :
  timers_registered st ->
  timers_registered (Activator.debounceDocumentUpdate callback u cb st).
Proof.
  intros H. destruct (debounce_timers u cb st H) as (_ & Hn & Hmap & Hin).
  destruct H as (Hm & Ht & Hlt & Hreg & Harmed).
  unfold timers_registered. rewrite Hn, Hmap. split; [now apply timeouts_set_nodup|].
  split; [|split; [|split]].
  - unfold Activator.debounceDocumentUpdate.
    destruct (Activator.get u _) as [he|];
      cbn [Activator.timers Activator.next Activator.clearTimeout];
      apply snoc_nodup; try assumption.
    + now apply disarm_nodup.
    + intros h q Hq. destruct q as [u' c]. apply disarm_in in Hq. now apply (Hlt h (u', c)).
  - intros h [u' c] Hp. apply Hin in Hp.
    destruct Hp as [(-> & _)|[_ Hp]]; [lia|]. apply Hlt in Hp. lia.
  - intros h u' c Hp. apply Hin in Hp. apply (timeouts_set_in _ _ _ _ _ Hm).
    destruct Hp as [(-> & -> & _)|[Hne Hp]]; [now left|]. right. split; [exact Hne|].
    now apply (Hreg h u' c).
  - intros u' h Hp. apply (timeouts_set_in _ _ _ _ _ Hm) in Hp.
    destruct Hp as [[-> ->]|[Hne Hp]].
    + exists cb. apply Hin. now left.
    + destruct (Harmed u' h Hp) as [c Hc]. exists c. apply Hin. right. now split.
Qed.

Lemma expire_registered (h : nat) (st : Activator.activator callback) :
  timers_registered st -> timers_registered (Activator.expire callback h st).
Proof.
  intros (Hm & Ht & Hlt & Hreg & Harmed). unfold Activator.expire.
  pose proof (find_timer h (Activator.timers callback st)) as F.
  destruct (find _ _) as [[h' [u cb]]|]; [|repeat split; assumption].
  destruct F as [-> F]. unfold timers_registered.
  cbn [Activator.timers Activator.next Activator.documentUpdateTimeouts].
  split; [now apply timeouts_delete_nodup|]. split; [now apply disarm_nodup|].
  split; [|split].
  - intros h0 p Hp. apply disarm_in in Hp. now apply (Hlt h0 p).
  - intros h0 u0 c Hp. apply disarm_in in Hp. destruct Hp as [Hne Hp].
    apply timeouts_delete_in. split; [|now apply (Hreg h0 u0 c)].
    intros ->. apply Hreg in Hp. apply Hreg in F.
    apply (timeouts_in_get _ _ _ Hm) in Hp. apply (timeouts_in_get _ _ _ Hm) in F. congruence.
  - intros u0 h0 Hp. apply timeouts_delete_in in Hp. destruct Hp as [Hne Hp].
    destruct (Harmed u0 h0 Hp) as [c Hc]. exists c. apply disarm_in. split; [|exact Hc].
    intros ->. assert (E := handle_unique _ _ _ _ Ht Hc F). congruence.
Qed.

Lemma cancel_registered (u : string) (st : Activator.activator callback) :
  timers_registered st -> timers_registered (Activator.cancel callback u st).
Proof.
  intros (Hm & Ht & Hlt & Hreg & Harmed). unfold Activator.cancel.
  destruct (Activator.get u _) as [he|] eqn:G; [|repeat split; assumption].
  unfold timers_registered.
  cbn [Activator.timers Activator.next Activator.documentUpdateTimeouts
       Activator.clearTimeout].
  apply timeouts_get_in in G.
  split; [now apply timeouts_delete_nodup|]. split; [now apply disarm_nodup|].
  split; [|split].
  - intros h0 p Hp. apply disarm_in in Hp. now apply (Hlt h0 p).
  - intros h0 u0 c Hp. apply disarm_in in Hp. destruct Hp as [Hne Hp].
    apply timeouts_delete_in. split; [|now apply (Hreg h0 u0 c)].
    intros ->. apply Hreg in Hp.
    apply (timeouts_in_get _ _ _ Hm) in Hp. apply (timeouts_in_get _ _ _ Hm) in G. congruence.
  - intros u0 h0 Hp. apply timeouts_delete_in in Hp. destruct Hp as [Hne Hp].
    destruct (Harmed u0 h0 Hp) as [c Hc]. exists c. apply disarm_in. split; [|exact Hc].
    intros ->. destruct (Harmed u he G) as [c' Hc'].
    assert (E := handle_unique _ _ _ _ Ht Hc Hc'). congruence.
Qed.

Lemma cancel_all_timers (entries : list (string * nat)) :
  forall st : Activator.activator callback,
    let st' := fold_left (fun st entry => Activator.clearTimeout callback (snd entry) st)
                         entries st in
    Activator.next callback st' = Activator.next callback st
    /\ Activator.ran callback st' = Activator.ran callback st
    /\ forall h p, In (h, p) (Activator.timers callback st')
                   <-> In (h, p) (Activator.timers callback st)
                       /\ ~ In h (map snd entries).
Proof.
  induction entries as [|[u he] entries IH]; intros st; simpl.
  - repeat split; tauto.
  - destruct (IH (Activator.clearTimeout callback he st)) as (Hn & Hr & Hin).
    rewrite Hn, Hr. split; [reflexivity|]. split; [reflexivity|].
    intros h p. rewrite Hin. cbn [Activator.timers Activator.clearTimeout].
    rewrite disarm_in. simpl. intuition congruence.
Qed.

Lemma cancel_all_registered (st : Activator.activator callback) :
  timers_registered st -> timers_registered (Activator.cancel_all callback st).
Proof.
  intros (Hm & Ht & Hlt & Hreg & Harmed). unfold Activator.cancel_all.
  destruct (cancel_all_timers (Activator.documentUpdateTimeouts callback st) st)
    as (Hn & Hr & Hin).
  assert (Hnone : forall h p,
             ~ In (h, p)
                 (Activator.timers callback
                    (fold_left (fun st entry =>
                                  Activator.clearTimeout callback (snd entry) st)
                       (Activator.documentUpdateTimeouts callback st) st))).
  { intros h [u c] Hp. apply Hin in Hp. destruct Hp as [Hp Hnot].
    apply Hnot. apply Hreg in Hp. now apply (in_map snd) in Hp. }
  unfold timers_registered.
  cbn [Activator.timers Activator.next Activator.documentUpdateTimeouts].
  destruct (Activator.timers callback (fold_left _ _ st)) as [|[h p] l] eqn:E.
  - repeat split; try constructor; intros; contradiction.
  - exfalso. apply (Hnone h p). now left.
Qed.

Lemma step_registered (st : Activator.activator callback)
  (t : Activator.turn callback) :
  timers_registered st -> timers_registered (Activator.step callback st t).
Proof.
  destruct t; simpl.
  - apply debounce_registered.
  - apply expire_registered.
  - apply cancel_registered.
  - apply cancel_all_registered.
Qed.

Lemma run_registered (ts : list (Activator.turn callback))
  (st : Activator.activator callback) :
  timers_registered st -> timers_registered (Activator.run callback ts st).
Proof.
  revert st. induction ts as [|t ts IH]; intros st H; simpl; [exact H|].
  apply IH. now apply step_registered.
Qed.

Lemma initial_registered : timers_registered (Activator.initial callback).
Proof. repeat split; try constructor; intros; contradiction. Qed.

(** A burst of changes of one document leaves the timers of the other
    documents and the callbacks run as they are. *)
Lemma burst_others (u : string) (cbs : list callback) :
  forall st : Activator.activator callback,
    timers_registered st ->
    let st' := Activator.run callback (map (Activator.Changed callback u) cbs) st in
    Activator.ran callback st' = Activator.ran callback st
    /\ forall h u' c, u' <> u ->
         (In (h, (u', c)) (Activator.timers callback st')
          <-> In (h, (u', c)) (Activator.timers callback st)).
Proof.
  induction cbs as [|cb cbs IH]; intros st H; simpl.
  - split; [reflexivity | tauto].
  - destruct (debounce_timers u cb st H) as (Hr & _ & _ & Hin).
    destruct (IH _ (debounce_registered u cb st H)) as (Hr' & Hin').
    split; [congruence|]. intros h u' c Hne. rewrite (Hin' h u' c Hne), Hin.
    split; [intros [(_ & -> & _)|[_ Hp]]; [contradiction | exact Hp] | tauto].
Qed.

End DebounceProofs.

(** X20: a burst of changes of one document is collapsed into its last
    change.  From any state the timers can be in, after one or more calls
    of [debounceDocumentUpdate] for a document exactly one timer is armed
    for it, and it holds the callback of the last call; the timers of the
    other documents are as before and no callback has run; when that timer
    expires the last callback is the one that runs, and no timer is left
    for the document: the callbacks of the earlier calls never run. *)
Theorem debounce_runs_latest :
  forall (callback : Type) (ts : list (Activator.turn callback))
         (u : string) (cbs : list callback) (cb : callback),
    let st := Activator.run callback ts (Activator.initial callback) in
    let st' := Activator.run callback
                 (map (Activator.Changed callback u) (cbs ++ [cb])) st in
    exists h,
      In (h, (u, cb)) (Activator.timers callback st')
      /\ (forall h' cb', In (h', (u, cb')) (Activator.timers callback st') ->
                         h' = h /\ cb' = cb)
      /\ (forall h' u' c, u' <> u ->
            (In (h', (u', c)) (Activator.timers callback st')
             <-> In (h', (u', c)) (Activator.timers callback st)))
      /\ Activator.ran callback st' = Activator.ran callback st
      /\ Activator.ran callback (Activator.expire callback h st')
         = Activator.ran callback st ++ [(u, cb)]
      /\ forall h' cb',
           ~ In (h', (u, cb'))
                (Activator.timers callback (Activator.expire callback h st')).
Proof.
  intros callback ts u cbs cb st st'.
  assert (Hst : timers_registered st)
    by (apply run_registered, initial_registered).
  set (mid := Activator.run callback (map (Activator.Changed callback u) cbs) st).
  assert (Hmid : timers_registered mid) by (now apply run_registered).
  assert (E : st' = Activator.debounceDocumentUpdate callback u cb mid).
  { unfold st', mid, Activator.run. now rewrite map_app, fold_left_app. }
  assert (Hst' : timers_registered st') by (rewrite E; now apply debounce_registered).
  destruct (burst_others callback u cbs st Hst) as (Hr & Hothers). fold mid in Hr, Hothers.
  destruct (debounce_timers callback u cb mid Hmid) as (Hr' & _ & _ & Hin).
  rewrite <- E in Hr', Hin.
  exists (Activator.next callback mid).
  assert (Hnew : In (Activator.next callback mid, (u, cb)) (Activator.timers callback st'))
    by (apply Hin; now left).
  split; [exact Hnew|]. split; [|split; [|split; [|split]]].
  - intros h' cb' Hp. apply Hin in Hp. destruct Hp as [(-> & _ & ->)|[Hne _]]; tauto.
  - intros h' u' c Hne. rewrite Hin, <- (Hothers h' u' c Hne).
    split; [intros [(_ & -> & _)|[_ Hp]]; [contradiction | exact Hp] | tauto].
  - congruence.
  - unfold Activator.expire.
    pose proof (find_timer callback (Activator.next callback mid)
                  (Activator.timers callback st')) as F.
    destruct (find _ _) as [[h' [u' c']]|].
    + destruct F as [-> F].
      destruct (timer_unique callback st' _ _ _ _ _ Hst' Hnew Hnew) as [_ _].
      destruct Hst' as (_ & Ht & _).
      assert (Ep := handle_unique callback _ _ _ _ Ht F Hnew).
      injection Ep as -> ->. simpl. congruence.
    + exfalso. now apply (F (u, cb)).
  - intros h' cb' Hp. unfold Activator.expire in Hp.
    pose proof (find_timer callback (Activator.next callback mid)
                  (Activator.timers callback st')) as F.
    destruct (find _ _) as [[h0 [u0 c0]]|].
    + simpl in Hp. apply disarm_in in Hp. destruct Hp as [Hne Hp].
      apply Hin in Hp. destruct Hp as [(-> & _)|[Hu _]]; tauto.
    + now apply (F (u, cb)).
Qed.

(** ** Parameters of the scanned calls *)

Lemma group_star_class (n : nat) (q : ascii -> bool) (st : mstate)
  (k : mstate -> option mstate) (res : mstate) :
  rmatch (Group n (Star (Class q))) st k = Some res ->
  exists s st',
    Forall (fun d => q d = true) s
    /\ caps st' = (n, s) :: caps st /\ k st' = Some res.
Proof.
  intros H. rewrite rmatch_group in H. apply rmatch_star_inv in H.
  destruct H as (s & st1 & Hs & (H1 & H2 & H3) & Hk).
  exists s. eexists. split; [exact Hs|]. split; [|exact Hk].
  simpl. rewrite H3, H2, H1. f_equal. f_equal.
  replace (pos st + List.length s - pos st) with (List.length s) by lia.
  now rewrite firstn_app, Nat.sub_diag, firstn_all, firstn_O, app_nil_r.
Qed.

(** The argument list captures characters other than a closing
    parenthesis. *)
Lemma arguments_capture (n : nat) (st res : mstate) :
  rmatch (arguments n) st Some = Some res ->
  exists s, Forall (fun d => not_rparen d = true) s /\ capture n (caps res) = Some s.
Proof.
  intros H. unfold arguments in H. cbn [cat] in H.
  apply skip_prefix in H. destruct H as (st1 & H).
  apply skip_prefix in H. destruct H as (st2 & H).
  apply skip_prefix in H. destruct H as (st3 & H).
  rewrite rmatch_cat in H. apply group_star_class in H.
  destruct H as (s & st4 & Hs & Hcaps & H).
  apply (rmatch_keeps n) in H.
  - destruct H as (st5 & Hk & Heq). injection Heq as <-.
    exists s. split; [exact Hs|]. rewrite Hk, Hcaps. simpl. now rewrite Nat.eqb_refl.
  - simpl. tauto.
Qed.

Lemma trim_start_sub (P : ascii -> Prop) (s : list ascii) :
  Forall P s -> Forall P (trim_start s).
Proof.
  induction 1 as [|c s Hc Hs IH]; simpl; [constructor|].
  destruct (is_space c); [exact IH | now constructor].
Qed.

Lemma trim_start_head (s : list ascii) :
  match trim_start s with [] => True | c :: _ => is_space c = false end.
Proof.
  induction s as [|c s IH]; simpl; [exact I|].
  destruct (is_space c) eqn:E; [exact IH | exact E].
Qed.

Lemma trim_start_suffix (s : list ascii) : exists pre, s = pre ++ trim_start s.
Proof.
  induction s as [|c s [pre IH]]; simpl; [now exists []|].
  destruct (is_space c).
  - exists (c :: pre). simpl. now f_equal.
  - now exists [].
Qed.

Lemma trim_sub (P : ascii -> Prop) (s : list ascii) : Forall P s -> Forall P (trim s).
Proof.
  intros H. unfold trim. apply Forall_rev, trim_start_sub, Forall_rev.
  now apply trim_start_sub.
Qed.

Lemma trim_ends (s : list ascii) :
  match trim s with
  | [] => True
  | c :: _ => is_space c = false /\ is_space (last (trim s) c) = false
  end.
Proof.
  unfold trim.
  destruct (trim_start_suffix (rev (trim_start s))) as [pre Hpre].
  pose proof (trim_start_head (rev (trim_start s))) as Hhead.
  pose proof (trim_start_head s) as Hfirst.
  set (t := trim_start (rev (trim_start s))) in *.
  destruct (rev t) as [|c r] eqn:E; [exact I|].
  assert (Ht : t = rev (c :: r)) by (rewrite <- E; now rewrite rev_involutive).
  split.
  - assert (Hs : trim_start s = rev t ++ rev pre).
    { rewrite <- (rev_involutive (trim_start s)), Hpre, rev_app_distr. reflexivity. }
    rewrite E in Hs. simpl in Hs. rewrite Hs in Hfirst. exact Hfirst.
  - rewrite Ht in Hhead. simpl in Hhead.
    destruct r as [|d r] using rev_ind.
    + simpl in *. exact Hhead.
    + clear IHr. change (c :: r ++ [d]) with ((c :: r) ++ [d]).
      rewrite last_last. rewrite rev_app_distr in Hhead. simpl in Hhead.
      exact Hhead.
Qed.

Lemma flat_match_params (st res : mstate) :
  rmatch flatPattern st Some = Some res ->
  exists s, Forall (fun d => not_rparen d = true) s /\ capture 2 (caps res) = Some s.
Proof.
  intros H. unfold flatPattern in H. cbn [cat] in H.
  do 4 (apply skip_prefix in H; destruct H as (? & H)).
  now apply arguments_capture in H.
Qed.

Lemma nested_match_params (st res : mstate) :
  rmatch nestedPattern st Some = Some res ->
  exists s, Forall (fun d => not_rparen d = true) s /\ capture 3 (caps res) = Some s.
Proof.
  intros H. unfold nestedPattern in H. cbn [cat] in H.
  do 7 (apply skip_prefix in H; destruct H as (? & H)).
  now apply arguments_capture in H.
Qed.

(** X21: the parameters of a scanned call hold no closing parenthesis
    (the argument list ends at the first one after its opening
    parenthesis) and no white space at either end. *)
Theorem scanned_call_params :
  forall (text : string) (c : TranslationCall),
    In c (findTranslationCalls text) ->
    Forall (fun d => d <> ")"%char) (list_ascii_of_string (params c))
    /\ trimmed (list_ascii_of_string (params c)).
Proof.
  intros text c Hin.
  assert (H : exists s, Forall (fun d => not_rparen d = true) s
                        /\ params c = string_of_list_ascii (trim s)).
  { destruct (scanned_call_match text c Hin) as [(m & Hm & ->) | (m & Hm & ->)];
      unfold matches in Hm; apply exec_loop_matched in Hm;
      destruct Hm as (st & res & Hr & Hg).
    - apply flat_match_params in Hr. destruct Hr as (s & Hs & Hcap).
      exists s. split; [exact Hs|]. simpl. unfold group. now rewrite Hg, Hcap.
    - apply nested_match_params in Hr. destruct Hr as (s & Hs & Hcap).
      exists s. split; [exact Hs|]. simpl. unfold group. now rewrite Hg, Hcap. }
  destruct H as (s & Hs & ->). rewrite list_ascii_of_string_of_list_ascii. split.
  - apply trim_sub. eapply Forall_impl; [|exact Hs].
    intros d Hd ->. discriminate.
  - apply trim_ends.
Qed.

(** In [m.a( f(x ) + 1)] the call ends at the first closing parenthesis:
    its parameters are [f(x]. *)
Lemma scanned_call_params_witness :
  Forall (fun d => d <> ")"%char) (list_ascii_of_string "f(x")
  /\ trimmed (list_ascii_of_string "f(x").
Proof.
  apply (scanned_call_params "m.a( f(x ) + 1)"
           {| methodName := "a"; params := "f(x"; start := 0; end_ := 10;
              keyType_ := flat |}).
  now left.
Defined.
